(** * A shallow embedding of the resume parser (parser.py, utils.py)

    Python texts are modelled as lists of characters, one [ascii] per code
    point, which covers the Latin-1 range 0..255: the character classes of
    [str.strip], [str.splitlines], [str.lower] and of the [re] module are
    written out below for that range.  Regular expressions are terms of a small
    syntax ([regex]) interpreted by a backtracking matcher that tries the
    alternatives in the order of Python's [re]. *)

From Stdlib Require Import Ascii String NArith.
From stdpp Require Import base list strings gmap sorting.

Open Scope list_scope.
Open Scope nat_scope.

Set Warnings "-register-all".

(** ** Texts *)

Abbreviation str := (list ascii).

Definition L (s : string) : str := list_ascii_of_string s.

Definition code (c : ascii) : N := N_of_ascii c.

Definition in_range (lo hi : N) (c : ascii) : bool :=
  ((lo <=? code c) && (code c <=? hi))%N.

Definition is_char (a c : ascii) : bool := Ascii.eqb a c.

Definition LF : ascii := "010"%char.
Definition CR : ascii := "013"%char.
Definition TAB : ascii := "009"%char.
Definition SP : ascii := " "%char.

(** [str.isspace] on one character, which is also the class [\s] of [re]. *)
Definition is_space (c : ascii) : bool :=
  in_range 9 13 c || in_range 28 32 c || in_range 133 133 c || in_range 160 160 c.

(** The class [\d] of [re]. *)
Definition is_digit (c : ascii) : bool := in_range 48 57 c.

(** The class [\w] of [re]: alphanumeric characters and the underscore. *)
Definition is_word (c : ascii) : bool :=
  in_range 48 57 c || in_range 65 90 c || in_range 95 95 c || in_range 97 122 c
  || in_range 170 170 c || in_range 178 179 c || in_range 181 181 c
  || in_range 185 186 c || in_range 188 190 c || in_range 192 214 c
  || in_range 216 246 c || in_range 248 255 c.

(** The characters at which [str.splitlines] breaks a line. *)
Definition is_linebreak (c : ascii) : bool :=
  in_range 10 13 c || in_range 28 30 c || in_range 133 133 c.

(** [str.lower], character by character. *)
Definition lower_char (c : ascii) : ascii :=
  if in_range 65 90 c || in_range 192 214 c || in_range 216 222 c
  then ascii_of_N (code c + 32) else c.

Definition lower (s : str) : str := map lower_char s.

Arguments in_range : simpl never.
Arguments is_char : simpl never.
Arguments is_space : simpl never.
Arguments is_digit : simpl never.
Arguments is_word : simpl never.
Arguments is_linebreak : simpl never.
Arguments lower_char : simpl never.

(** [s.lstrip()], [s.rstrip()] and [s.strip()]. *)
Fixpoint lstrip (s : str) : str :=
  match s with
  | c :: s' => if is_space c then lstrip s' else s
  | [] => []
  end.

Definition rstrip (s : str) : str := rev (lstrip (rev s)).

Definition strip (s : str) : str := rstrip (lstrip s).

(** [s.splitlines()]: a carriage return directly followed by a line feed is
    one break, and a final break opens no further line. *)
Fixpoint splitlines (s : str) : list str :=
  match s with
  | [] => []
  | c :: s' =>
      if is_linebreak c then
        if is_char CR c then
          match s' with
          | d :: _ => if is_char LF d then splitlines s' else [] :: splitlines s'
          | [] => [] :: splitlines s'
          end
        else [] :: splitlines s'
      else
        match splitlines s' with
        | [] => [[c]]
        | l :: ls => (c :: l) :: ls
        end
  end.

(** [sep.join(parts)]. *)
Fixpoint join (sep : str) (parts : list str) : str :=
  match parts with
  | [] => []
  | [p] => p
  | p :: ps => p ++ sep ++ join sep ps
  end.

(** [pre] is a prefix of [s]; [sub in s]. *)
Fixpoint starts_with (pre s : str) : bool :=
  match pre, s with
  | [], _ => true
  | a :: pre', c :: s' => Ascii.eqb a c && starts_with pre' s'
  | _ :: _, [] => false
  end.

Fixpoint contains (sub s : str) : bool :=
  starts_with sub s ||
  match s with
  | [] => false
  | _ :: s' => contains sub s'
  end.

(** Truth value of a text or of a list: the empty one is false. *)
Definition nonempty {A : Type} (l : list A) : bool :=
  match l with [] => false | _ :: _ => true end.

(** Equality test on texts. *)
Definition str_eqb (a b : str) : bool := bool_decide (a = b).

(** ** Regular expressions

    The fragment of [re] that the parser's patterns use.  A single character
    is a class [Chr p]; repetition ([+], [*], [{lo,hi}]) is only ever applied
    to a class, and is greedy; [Alt] tries its left side first, so that
    [Opt r], the pattern [r?], prefers to match [r]; [Grp i r] is the
    capturing group number [i]; [Bnd] is [\b]. *)

Inductive regex : Type :=
  | Eps : regex
  | Chr (p : ascii -> bool)
  | Rep (p : ascii -> bool) (lo : nat) (hi : option nat)
  | Seq (r1 r2 : regex)
  | Alt (r1 r2 : regex)
  | Grp (i : nat) (r : regex)
  | Bnd : regex.

Definition Opt (r : regex) : regex := Alt r Eps.

(** A literal text, and a literal text under [re.IGNORECASE]. *)
Fixpoint lit (s : str) : regex :=
  match s with
  | [] => Eps
  | [c] => Chr (is_char c)
  | c :: s' => Seq (Chr (is_char c)) (lit s')
  end.

Definition is_char_i (a c : ascii) : bool := Ascii.eqb (lower_char a) (lower_char c).

Fixpoint liti (s : str) : regex :=
  match s with
  | [] => Eps
  | [c] => Chr (is_char_i c)
  | c :: s' => Seq (Chr (is_char_i c)) (liti s')
  end.

Fixpoint seqs (rs : list regex) : regex :=
  match rs with
  | [] => Eps
  | [r] => r
  | r :: rs' => Seq r (seqs rs')
  end.

Fixpoint alts (r : regex) (rs : list regex) : regex :=
  match rs with
  | [] => r
  | r' :: rs' => Alt r (alts r' rs')
  end.

(** The texts captured by the groups that took part in a match, the most
    recent first. *)
Definition captures := list (nat * str).

Fixpoint cap_get (i : nat) (caps : captures) : option str :=
  match caps with
  | [] => None
  | (j, w) :: caps' => if Nat.eqb i j then Some w else cap_get i caps'
  end.

(** The matcher is written in continuation-passing style: [k] is what remains
    to be matched after [r], and a [None] from [k] makes the matcher try its
    next alternative.  [prev] is the character before the current position,
    when there is one (for [\b]); the result is the text left after the match
    and the captures. *)
Definition mres := option (str * captures).

Fixpoint rep (p : ascii -> bool) (lo : nat) (hi : option nat)
    (prev : option ascii) (s : str) (k : option ascii -> str -> mres) : mres :=
  match s with
  | c :: s' =>
      if p c && negb (bool_decide (hi = Some 0)) then
        match rep p (pred lo) (pred <$> hi) (Some c) s' k with
        | Some x => Some x
        | None => match lo with 0 => k prev s | S _ => None end
        end
      else match lo with 0 => k prev s | S _ => None end
  | [] => match lo with 0 => k prev s | S _ => None end
  end.

Definition word_before (prev : option ascii) : bool :=
  match prev with Some c => is_word c | None => false end.

Definition word_after (s : str) : bool :=
  match s with c :: _ => is_word c | [] => false end.

Fixpoint rmatch (r : regex) (prev : option ascii) (s : str) (caps : captures)
    (k : option ascii -> str -> captures -> mres) : mres :=
  match r with
  | Eps => k prev s caps
  | Chr p =>
      match s with
      | c :: s' => if p c then k (Some c) s' caps else None
      | [] => None
      end
  | Rep p lo hi => rep p lo hi prev s (fun prev' s' => k prev' s' caps)
  | Seq r1 r2 =>
      rmatch r1 prev s caps (fun prev' s' caps' => rmatch r2 prev' s' caps' k)
  | Alt r1 r2 =>
      match rmatch r1 prev s caps k with
      | Some x => Some x
      | None => rmatch r2 prev s caps k
      end
  | Grp i r0 =>
      rmatch r0 prev s caps
        (fun prev' s' caps' => k prev' s' ((i, take (length s - length s') s) :: caps'))
  | Bnd => if xorb (word_before prev) (word_after s) then k prev s caps else None
  end.

(** A match object: [m.group()] and the groups. *)
Record mobj := { m_text : str; m_caps : captures }.

(** [m.group(i)] as [findall] reports it: the empty text for a group that
    took no part in the match. *)
Definition m_group (m : mobj) (i : nat) : str := default [] (cap_get i (m_caps m)).

(** One attempt to match [r] at the start of [s]. *)
Definition match_at (r : regex) (prev : option ascii) (s : str) : option mobj :=
  match rmatch r prev s [] (fun _ s' caps => Some (s', caps)) with
  | Some (s', caps) => Some {| m_text := take (length s - length s') s; m_caps := caps |}
  | None => None
  end.

(** [re.search]: the first position, from the left, at which [r] matches. *)
Fixpoint search_from (r : regex) (prev : option ascii) (s : str) : option mobj :=
  match match_at r prev s with
  | Some m => Some m
  | None =>
      match s with
      | [] => None
      | c :: s' => search_from r (Some c) s'
      end
  end.

Definition re_search (r : regex) (s : str) : option mobj := search_from r None s.

(** [re.finditer]: the matches from left to right, without overlap.  [skip]
    counts the characters of the last match that are still to be passed. *)
Fixpoint scan (r : regex) (prev : option ascii) (skip : nat) (s : str) : list mobj :=
  match s with
  | [] =>
      match skip with
      | 0 => match match_at r prev [] with Some m => [m] | None => [] end
      | S _ => []
      end
  | c :: s' =>
      match skip with
      | S n => scan r (Some c) n s'
      | 0 =>
          match match_at r prev s with
          | Some m => m :: scan r (Some c) (pred (length (m_text m))) s'
          | None => scan r (Some c) 0 s'
          end
      end
  end.

Definition re_finditer (r : regex) (s : str) : list mobj := scan r None 0 s.

(** [re.findall] for a pattern without groups, and for one with [n > 1]
    groups (a tuple of the [n] group texts for each match). *)
Definition re_findall (r : regex) (s : str) : list str :=
  map m_text (re_finditer r s).

Definition re_findall_groups (n : nat) (r : regex) (s : str) : list (list str) :=
  map (fun m => map (m_group m) (seq 1 n)) (re_finditer r s).

(** [re.sub(r, repl, s)]. *)
Fixpoint sub_scan (r : regex) (repl : str) (prev : option ascii) (skip : nat) (s : str) : str :=
  match s with
  | [] =>
      match skip with
      | 0 => match match_at r prev [] with Some _ => repl | None => [] end
      | S _ => []
      end
  | c :: s' =>
      match skip with
      | S n => sub_scan r repl (Some c) n s'
      | 0 =>
          match match_at r prev s with
          | Some m =>
              match length (m_text m) with
              | 0 => repl ++ c :: sub_scan r repl (Some c) 0 s'
              | S n => repl ++ sub_scan r repl (Some c) n s'
              end
          | None => c :: sub_scan r repl (Some c) 0 s'
          end
      end
  end.

Definition re_sub (r : regex) (repl : str) (s : str) : str := sub_scan r repl None 0 s.

(** [re.split(r, s)] for a pattern without groups. *)
Definition cons_first (c : ascii) (ps : list str) : list str :=
  match ps with
  | [] => [[c]]
  | p :: ps' => (c :: p) :: ps'
  end.

Fixpoint split_scan (r : regex) (prev : option ascii) (skip : nat) (s : str) : list str :=
  match s with
  | [] =>
      match skip with
      | 0 => match match_at r prev [] with Some _ => [[]; []] | None => [[]] end
      | S _ => [[]]
      end
  | c :: s' =>
      match skip with
      | S n => split_scan r (Some c) n s'
      | 0 =>
          match match_at r prev s with
          | Some m =>
              match length (m_text m) with
              | 0 => [] :: cons_first c (split_scan r (Some c) 0 s')
              | S n => [] :: split_scan r (Some c) n s'
              end
          | None => cons_first c (split_scan r (Some c) 0 s')
          end
      end
  end.

Definition re_split (r : regex) (s : str) : list str := split_scan r None 0 s.

(** ** Cleaning *)

(** [text.replace(a, b)] for one-character texts. *)
Definition replace_char (a b : ascii) (s : str) : str :=
  map (fun c => if is_char a c then b else c) s.

Definition is_blank (c : ascii) : bool := is_char SP c || is_char TAB c.

(** The class [[\x00-\x08\x0b\x0c\x0e-\x1f]]. *)
Definition is_ctrl (c : ascii) : bool :=
  in_range 0 8 c || in_range 11 12 c || in_range 14 31 c.

Arguments is_blank : simpl never.
Arguments is_ctrl : simpl never.

Definition clean_text (text : str) : str :=
  let text := replace_char CR LF text in
  let text := re_sub (Rep is_blank 1 None) [SP] text in
  let text := re_sub (Rep (is_char LF) 3 None) [LF; LF] text in
  let text := re_sub (Rep is_ctrl 1 None) [] text in
  strip text.

(** ** Exceptions

    Indexing a list out of range, reading a missing key of a dict and calling
    a method of [None] raise in Python; the functions that use them return a
    [result]. *)

Inductive exn : Type := IndexError | KeyError | AttributeError.

Inductive result (A : Type) : Type :=
  | Ok (a : A)
  | Raise (e : exn).

Arguments Ok {A} a.
Arguments Raise {A} e.

Definition bind {A B : Type} (x : result A) (f : A -> result B) : result B :=
  match x with
  | Ok a => f a
  | Raise e => Raise e
  end.

Notation "'let!' x ':=' e 'in' k" := (bind e (fun x => k))
  (at level 10, x pattern, e at level 200, k at level 200).

(** [l[i]] *)
Definition index {A : Type} (l : list A) (i : nat) : result A :=
  match l !! i with
  | Some a => Ok a
  | None => Raise IndexError
  end.

(** [l[a:b]] for indices that are not negative. *)
Definition slice {A : Type} (l : list A) (a b : nat) : list A := take (b - a) (drop a l).

(** ** Dicts

    A dict with text keys keeps its keys in the order in which they were first
    inserted; assigning to a key that is present replaces the value in place. *)

Definition dict (V : Type) : Type := list (str * V).

Fixpoint dict_set {V : Type} (k : str) (v : V) (d : dict V) : dict V :=
  match d with
  | [] => [(k, v)]
  | (k', v') :: d' =>
      if str_eqb k k' then (k, v) :: d' else (k', v') :: dict_set k v d'
  end.

Fixpoint dict_get {V : Type} (k : str) (d : dict V) : option V :=
  match d with
  | [] => None
  | (k', v') :: d' => if str_eqb k k' then Some v' else dict_get k d'
  end.

(** [d[k]] *)
Definition dict_item {V : Type} (d : dict V) (k : str) : result V :=
  match dict_get k d with
  | Some v => Ok v
  | None => Raise KeyError
  end.

(** [k in d] *)
Definition dict_has {V : Type} (k : str) (d : dict V) : bool :=
  match dict_get k d with Some _ => true | None => false end.

Definition keys {V : Type} (d : dict V) : list str := map fst d.

(** ** Section splitting *)

Definition header (w : string) : regex := seqs [Bnd; lit (L w); Bnd].

Definition SECTION_HEADERS : list regex :=
  [ header "experience";
    header "work experience";
    header "professional experience";
    header "education";
    header "skills";
    header "technical skills";
    header "projects";
    header "certifications";
    header "about";
    header "summary";
    header "objective" ].

Definition found (m : option mobj) : bool :=
  match m with Some _ => true | None => false end.

(** The inner loop over [SECTION_HEADERS]: does some pattern match [norm]? *)
Definition is_header (norm : str) : bool :=
  existsb (fun hdr => found (re_search hdr norm)) SECTION_HEADERS.

(** The first loop of [split_sections], over [enumerate(lines)] from [i]. *)
Fixpoint header_scan (i : nat) (lines : list str) : list (nat * str) :=
  match lines with
  | [] => []
  | line :: rest =>
      let norm := lower (strip line) in
      if is_header norm then (i, norm) :: header_scan (S i) rest
      else header_scan (S i) rest
  end.

(** The second loop, over [enumerate(header_idxs)] from [idx]; [todo] is what
    remains of [header_idxs]. *)
Fixpoint fill_sections (lines : list str) (header_idxs : list (nat * str))
    (idx : nat) (todo : list (nat * str)) (sections : dict str) : result (dict str) :=
  match todo with
  | [] => Ok sections
  | (line_no, norm) :: todo' =>
      let start := line_no + 1 in
      let! end_ :=
        if idx + 1 <? length header_idxs
        then (let! nxt := index header_idxs (idx + 1) in Ok (fst nxt))
        else Ok (length lines) in
      let! line := index lines line_no in
      let header := strip line in
      fill_sections lines header_idxs (S idx) todo'
        (dict_set (lower header) (strip (join [LF] (slice lines start end_))) sections)
  end.

Definition split_sections (text : str) : result (dict str) :=
  let lines := splitlines text in
  let header_idxs := header_scan 0 lines in
  match header_idxs with
  | [] => Ok [(L "main", text)]
  | _ :: _ =>
      let! sections := fill_sections lines header_idxs 0 header_idxs [] in
      let! first := index header_idxs 0 in
      let first_header_line := fst first in
      let top_text := strip (join [LF] (slice lines 0 first_header_line)) in
      if nonempty top_text then Ok (dict_set (L "top") top_text sections)
      else Ok sections
  end.

(** ** Contact extraction *)

Definition ch (c : string) : ascii -> bool :=
  match c with
  | String a _ => is_char a
  | EmptyString => fun _ => false
  end.

Definition plus (r : ascii -> bool) : regex := Rep r 1 None.
Definition star (r : ascii -> bool) : regex := Rep r 0 None.
Definition times (r : ascii -> bool) (lo hi : nat) : regex := Rep r lo (Some hi).

(** [[\w\.-]] *)
Definition email_char (c : ascii) : bool := is_word c || ch "." c || ch "-" c.

(** [[\w\.-]+@[\w\.-]+\.\w+] *)
Definition EMAIL_RE : regex :=
  seqs [plus email_char; Chr (ch "@"); plus email_char; Chr (ch "."); plus is_word].

(** [[-.\s]] and [[\d\-.\s]] *)
Definition phone_sep (c : ascii) : bool := ch "-" c || ch "." c || is_space c.
Definition phone_char (c : ascii) : bool := is_digit c || ch "-" c || ch "." c || is_space c.

(** [(\+?\d{1,3}[-.\s]?)?(\(?\d{2,4}\)?[-.\s]?)?[\d\-.\s]{6,15}] *)
Definition PHONE_RE : regex :=
  seqs [ Opt (Grp 1 (seqs [Opt (Chr (ch "+")); times is_digit 1 3; Opt (Chr phone_sep)]));
         Opt (Grp 2 (seqs [Opt (Chr (ch "(")); times is_digit 2 4; Opt (Chr (ch ")"));
                           Opt (Chr phone_sep)]));
         times phone_char 6 15 ].

(** [[\w\-/]] *)
Definition path_char (c : ascii) : bool := is_word c || ch "-" c || ch "/" c.

(** [(https?://)?(www\.)?linkedin\.com/[\w\-/]+] *)
Definition LINKEDIN_RE : regex :=
  seqs [ Opt (Grp 1 (seqs [lit (L "http"); Opt (Chr (ch "s")); lit (L "://")]));
         Opt (Grp 2 (lit (L "www.")));
         lit (L "linkedin.com/");
         plus path_char ].

(** [\D] *)
Definition non_digit (c : ascii) : bool := negb (is_digit c).

Record ContactInfo := {
  emails : list str;
  phones : list str;
  linkedin : list str
}.

(** [list(dict.fromkeys(l))]: the elements of [l] without repetition, in the
    order of their first occurrence. *)
Definition fromkeys (l : list str) : dict unit :=
  fold_left (fun d k => dict_set k tt d) l [].

(** The body of the loop over [PHONE_RE.finditer(text)]. *)
Definition phone_step (phone_candidates : gset str) (m : mobj) : gset str :=
  let candidate := strip (m_text m) in
  let digits := re_sub (Chr non_digit) [] candidate in
  if (7 <=? length digits) && (length digits <=? 15)
  then phone_candidates ∪ {[ candidate ]}
  else phone_candidates.

Definition extract_contact (text : str) : ContactInfo :=
  let emails := re_findall EMAIL_RE text in
  let phone_candidates := fold_left phone_step (re_finditer PHONE_RE text) ∅ in
  let linkedin_urls := map (fun m => strip (m_text m)) (re_finditer LINKEDIN_RE text) in
  {| emails := keys (fromkeys emails);
     phones := elements phone_candidates;
     linkedin := linkedin_urls |}.

(** ** Skills extraction *)

Definition DEFAULT_SKILLS : list str :=
  map L [ "python"; "java"; "c++"; "c#"; "javascript"; "react"; "node.js"; "django";
          "flask"; "sql"; "postgresql"; "mysql"; "aws"; "azure"; "gcp"; "docker";
          "kubernetes"; "git"; "linux"; "nlp"; "spaCy"; "pandas"; "numpy"; "tensorflow";
          "pytorch"; "scikit-learn"; "excel"; "tableau"; "power bi" ]%string.

(** The order of [sorted] on texts: lexicographic, by code point. *)
Fixpoint str_leb (a b : str) : bool :=
  match a, b with
  | [], _ => true
  | _ :: _, [] => false
  | x :: a', y :: b' =>
      if (code x <? code y)%N then true
      else if (code y <? code x)%N then false
      else str_leb a' b'
  end.

Definition str_le (a b : str) : Prop := str_leb a b = true.

#[global] Instance str_le_dec (a b : str) : Decision (str_le a b).
Proof. unfold str_le. apply _. Defined.

(** [sorted(list(s))] for a set of texts. *)
Definition sorted (s : gset str) : list str := merge_sort str_le (elements s).

Section Skills.

(** The phrase matcher built on the language model [nlp], when the model
    could be loaded: from the list of skills and the lower-cased text to the
    texts of the spans it matches. *)
Variable nlp : option (list str -> str -> list str).

Definition extract_skills (text : str) (skills_list : option (list str)) : list str :=
  let skills_list := default DEFAULT_SKILLS skills_list in
  let text_lower := lower text in
  let found : gset str := ∅ in
  let found :=
    match nlp with
    | Some matcher =>
        fold_left (fun acc span => acc ∪ {[ lower span ]}) (matcher skills_list text_lower) found
    | None => found
    end in
  let found :=
    fold_left (fun acc s => if contains (lower s) text_lower then acc ∪ {[ lower s ]} else acc)
      skills_list found in
  sorted found.

End Skills.

(** ** Education extraction *)

Definition EDU_KEYWORDS : list regex :=
  map (fun w => lit (L w))
    [ "bachelor"; "master"; "b.a."; "b.sc."; "m.sc."; "phd"; "b.tech"; "m.tech";
      "bs"; "ms"; "mba"; "associate"; "high school"; "secondary school" ]%string.

(** [(19|20)\d{2}] *)
Definition YEAR_RE : regex :=
  Seq (Grp 1 (Alt (lit (L "19")) (lit (L "20")))) (times is_digit 2 2).

(** [,|-] *)
Definition COMMA_HYPHEN_RE : regex := Alt (Chr (ch ",")) (Chr (ch "-")).

Record EducationEntry := {
  degree : str;
  institution : str;
  year : str;
  raw : str
}.

(** [m.group(0)] for the result [m] of a search, which is [None] when nothing
    matched. *)
Definition group0 (m : option mobj) : result str :=
  match m with
  | Some m => Ok (m_text m)
  | None => Raise AttributeError
  end.

(** The body of the loop over the lines: the entry of a line with a degree
    keyword, nothing for another line. *)
Definition education_line (line : str) : result (list EducationEntry) :=
  let low := lower line in
  if existsb (fun k => found (re_search k low)) EDU_KEYWORDS then
    let year_match := re_search YEAR_RE line in
    let! year := if found year_match then group0 year_match else Ok [] in
    let parts :=
      map strip (filter (fun p => nonempty (strip p) = true) (re_split COMMA_HYPHEN_RE line)) in
    let! degree := if nonempty parts then index parts 0 else Ok (strip line) in
    let! institution := if 1 <? length parts then index parts 1 else Ok [] in
    Ok [ {| degree := degree; institution := institution; year := year; raw := strip line |} ]
  else Ok [].

Fixpoint education_loop (lines : list str) (results : list EducationEntry)
    : result (list EducationEntry) :=
  match lines with
  | [] => Ok results
  | line :: rest =>
      let! new := education_line line in
      education_loop rest (results ++ new)
  end.

Definition extract_education (section_text : str) : result (list EducationEntry) :=
  education_loop (splitlines section_text) [].

(** ** Experience extraction *)

(** [Jan(uary)?] and the like, under [re.IGNORECASE]; [i] is the number of the
    group around the rest of the name. *)
Definition month (i : nat) (abbr rest : string) : regex :=
  Seq (liti (L abbr)) (Opt (Grp i (liti (L rest)))).

Definition MONTHS : regex :=
  alts (month 3 "Jan" "uary")
    [ month 4 "Feb" "ruary"; month 5 "Mar" "ch"; month 6 "Apr" "il"; liti (L "May");
      month 7 "Jun" "e"; month 8 "Jul" "y"; month 9 "Aug" "ust"; month 10 "Sep" "tember";
      month 11 "Oct" "ober"; month 12 "Nov" "ember"; month 13 "Dec" "ember" ].

(** [[\w\.\s,-]] *)
Definition date_fill (c : ascii) : bool :=
  is_word c || ch "." c || is_space c || ch "," c || ch "-" c.

(** [((Jan(uary)?|...|Dec(ember)?)[\w\.\s,-]*\d{4})|((19|20)\d{2})|present]
    with [re.IGNORECASE]; it has 15 groups. *)
Definition DATE_RANGE_RE : regex :=
  alts (Grp 1 (seqs [Grp 2 MONTHS; star date_fill; times is_digit 4 4]))
    [ Grp 14 (Seq (Grp 15 (Alt (liti (L "19")) (liti (L "20")))) (times is_digit 2 2));
      liti (L "present") ].

Definition DATE_RANGE_GROUPS : nat := 15.

(** [(19|20)\d{2}|present] with [re.IGNORECASE] *)
Definition DATE_TOKEN_RE : regex :=
  Alt (Seq (Grp 1 (Alt (liti (L "19")) (liti (L "20")))) (times is_digit 2 2))
      (liti (L "present")).

(** An entry while the lines are read, and a returned entry, which has the
    key [date_tokens] as well. *)
Record OpenEntry := {
  o_title_company : str;
  o_dates : list (list str);
  o_details : list str
}.

Record ExperienceEntry := {
  title_company : str;
  dates : list (list str);
  details : list str;
  date_tokens : list str
}.

Definition close_entry (cur_entry : option OpenEntry) (entries : list OpenEntry)
    : list OpenEntry :=
  match cur_entry with
  | Some e => entries ++ [e]
  | None => entries
  end.

(** The loop over the lines, with the state [(entries, cur_entry)]. *)
Fixpoint experience_loop (lines : list str) (entries : list OpenEntry)
    (cur_entry : option OpenEntry) : list OpenEntry :=
  match lines with
  | [] => close_entry cur_entry entries
  | line :: rest =>
      if found (re_search DATE_RANGE_RE line) then
        experience_loop rest (close_entry cur_entry entries)
          (Some {| o_title_company := line;
                   o_dates := re_findall_groups DATE_RANGE_GROUPS DATE_RANGE_RE line;
                   o_details := [] |})
      else
        match cur_entry with
        | None =>
            experience_loop rest entries
              (Some {| o_title_company := line; o_dates := []; o_details := [] |})
        | Some e =>
            experience_loop rest entries
              (Some {| o_title_company := o_title_company e;
                       o_dates := o_dates e;
                       o_details := o_details e ++ [line] |})
        end
  end.

(** The post-processing of one entry. *)
Definition simplify_dates (e : OpenEntry) : ExperienceEntry :=
  let dates := re_findall_groups DATE_RANGE_GROUPS DATE_RANGE_RE (o_title_company e) in
  let date_tokens :=
    concat (map (fun t => filter (fun part => found (re_search DATE_TOKEN_RE part) = true) t)
                dates) in
  {| title_company := o_title_company e;
     dates := o_dates e;
     details := o_details e;
     date_tokens := date_tokens |}.

Definition parse_experience (section_text : str) : list ExperienceEntry :=
  let lines :=
    map strip (filter (fun l => nonempty (strip l) = true) (splitlines section_text)) in
  let entries := experience_loop lines [] None in
  map simplify_dates entries.

(** ** Top-level parse *)

Record ParsedResume := {
  contact : ContactInfo;
  summary : str;
  skills : list str;
  education : list EducationEntry;
  experience : list ExperienceEntry;
  raw_sections : dict str
}.

(** [x = ""; for k in sections: if test(k): x = sections[k]; break] *)
Fixpoint first_key (test : str -> bool) (ks : list str) : option str :=
  match ks with
  | [] => None
  | k :: ks' => if test k then Some k else first_key test ks'
  end.

Definition section_for (test : str -> bool) (sections : dict str) : result str :=
  match first_key test (keys sections) with
  | Some k => dict_item sections k
  | None => Ok []
  end.

(** The text given to the skill extractor: the skills section, or the whole
    text when [skills_text] is still empty after the loop. *)
Definition select_skills_text (sections : dict str) (text : str) : result str :=
  let! skills_text := section_for (contains (L "skill")) sections in
  Ok (if nonempty skills_text then skills_text else text).

Section Pipeline.

Variable nlp : option (list str -> str -> list str).

Definition parse_resume_from_text (text : str) : result ParsedResume :=
  let text := clean_text text in
  let! sections := split_sections text in
  let contact := extract_contact text in
  let! skills_text := select_skills_text sections text in
  let skills := extract_skills nlp skills_text None in
  let! education_section := section_for (contains (L "educat")) sections in
  let! education :=
    if nonempty education_section then extract_education education_section else Ok [] in
  let! experience_section := section_for (contains (L "experi")) sections in
  let experience :=
    if nonempty experience_section then parse_experience experience_section else [] in
  let! summary :=
    section_for (fun k => contains (L "summary") k || contains (L "objective") k) sections in
  let! summary :=
    if negb (nonempty summary) && dict_has (L "top") sections
    then (let! top := dict_item sections (L "top") in
          Ok (join [LF] (slice (splitlines top) 0 3)))
    else Ok summary in
  Ok {| contact := contact;
        summary := summary;
        skills := skills;
        education := education;
        experience := experience;
        raw_sections := sections |}.

End Pipeline.

(** ** Python values and JSON export (utils.py)

    The parser returns nested dicts, lists, tuples and texts.  The records
    above stand for the dicts with fixed keys; [py_parsed] gives the value
    itself, with the keys in the order in which the code inserts them. *)

Inductive pyval : Type :=
  | PStr (s : str)
  | PList (l : list pyval)
  | PTuple (l : list pyval)
  | PDict (d : list (str * pyval)).

Definition py_strs (l : list str) : pyval := PList (map PStr l).

Definition py_contact (c : ContactInfo) : pyval :=
  PDict [ (L "emails", py_strs (emails c));
          (L "phones", py_strs (phones c));
          (L "linkedin", py_strs (linkedin c)) ].

Definition py_education (e : EducationEntry) : pyval :=
  PDict [ (L "degree", PStr (degree e));
          (L "institution", PStr (institution e));
          (L "year", PStr (year e));
          (L "raw", PStr (raw e)) ].

(** [findall] gives one tuple of group texts for each match. *)
Definition py_dates (ds : list (list str)) : pyval :=
  PList (map (fun t => PTuple (map PStr t)) ds).

Definition py_experience (e : ExperienceEntry) : pyval :=
  PDict [ (L "title_company", PStr (title_company e));
          (L "dates", py_dates (dates e));
          (L "details", py_strs (details e));
          (L "date_tokens", py_strs (date_tokens e)) ].

Definition py_sections (d : dict str) : pyval :=
  PDict (map (fun kv => (fst kv, PStr (snd kv))) d).

Definition py_parsed (r : ParsedResume) : pyval :=
  PDict [ (L "contact", py_contact (contact r));
          (L "summary", PStr (summary r));
          (L "skills", py_strs (skills r));
          (L "education", PList (map py_education (education r)));
          (L "experience", PList (map py_experience (experience r)));
          (L "raw_sections", py_sections (raw_sections r)) ].

(** A JSON document, as the tree that its text denotes. *)
Inductive json : Type :=
  | JStr (s : str)
  | JArr (l : list json)
  | JObj (l : list (str * json)).

(** [json.dumps]: a dict becomes an object, a list and a tuple both become
    an array, a text becomes a string. *)
Fixpoint json_dumps (v : pyval) : json :=
  match v with
  | PStr s => JStr s
  | PList l => JArr (map json_dumps l)
  | PTuple l => JArr (map json_dumps l)
  | PDict d => JObj (map (fun '(k, x) => (k, json_dumps x)) d)
  end.

Definition to_json (parsed : pyval) : json := json_dumps parsed.

(** The dict built from the members of an object, in their order. *)
Definition ins {V : Type} (d : dict V) (kv : str * V) : dict V :=
  dict_set (fst kv) (snd kv) d.

Definition dict_of_items {V : Type} (items : list (str * V)) : dict V :=
  fold_left ins items [].

(** [json.loads]: an object becomes a dict, an array becomes a list. *)
Fixpoint json_loads (j : json) : pyval :=
  match j with
  | JStr s => PStr s
  | JArr l => PList (map json_loads l)
  | JObj l => PDict (dict_of_items (map (fun '(k, x) => (k, json_loads x)) l))
  end.

(** Python's [==] on these values: a list never equals a tuple, and dicts
    are compared key by key, whatever the order of their keys. *)
Fixpoint py_eqb (a b : pyval) {struct a} : bool :=
  match a, b with
  | PStr s, PStr t => str_eqb s t
  | PList l, PList l' | PTuple l, PTuple l' =>
      (fix go (l l' : list pyval) : bool :=
         match l, l' with
         | [], [] => true
         | x :: l, y :: l' => py_eqb x y && go l l'
         | _, _ => false
         end) l l'
  | PDict d, PDict d' =>
      (length d =? length d') &&
      (fix go (d : list (str * pyval)) : bool :=
         match d with
         | [] => true
         | (k, x) :: d =>
             match dict_get k d' with
             | Some y => py_eqb x y
             | None => false
             end && go d
         end) d
  | _, _ => false
  end.

(** The value in which every tuple has been replaced by the list of its
    elements. *)
Fixpoint tuples_to_lists (v : pyval) : pyval :=
  match v with
  | PStr s => PStr s
  | PList l => PList (map tuples_to_lists l)
  | PTuple l => PList (map tuples_to_lists l)
  | PDict d => PDict (map (fun '(k, x) => (k, tuples_to_lists x)) d)
  end.

(** ** Notions used to state the properties *)

(** The length of the longest prefix of [s] made of characters of class [p]. *)
Fixpoint run (p : ascii -> bool) (s : str) : nat :=
  match s with
  | c :: s' => if p c then S (run p s') else 0
  | [] => 0
  end.

(** No run of characters of class [p] in [s] is longer than [n]. *)
Fixpoint runs_le (p : ascii -> bool) (n : nat) (s : str) : bool :=
  match s with
  | [] => true
  | _ :: s' => (run p s <=? n) && runs_le p n s'
  end.

(** [s] does not start with a character of class [p]. *)
Definition starts_off (p : ascii -> bool) (s : str) : bool :=
  match s with c :: _ => negb (p c) | [] => true end.

(** The lines before the first header line. *)
Definition is_header_line (l : str) : bool := is_header (lower (strip l)).

Fixpoint before_header (lines : list str) : list str :=
  match lines with
  | [] => []
  | l :: rest => if is_header_line l then [] else l :: before_header rest
  end.

(** A block of consecutive lines, from index [a] up to, not including, index
    [b], and the body that [split_sections] makes of it. *)
Definition block : Type := nat * nat.

Definition body (lines : list str) (r : block) : str :=
  strip (join [LF] (slice lines (fst r) (snd r))).

(** The segments that the second loop of [split_sections] inserts, as it
    computes them from [header_idxs]. *)
Fixpoint segments (total : nat) (hs : list (nat * str)) : list (str * block) :=
  match hs with
  | [] => []
  | (i, norm) :: hs' =>
      (norm, (i + 1, match hs' with [] => total | (j, _) :: _ => j end)) :: segments total hs'
  end.

(** The same segments read off the lines: every header line opens a segment
    that runs to the next header line. *)
Fixpoint header_segments (i : nat) (lines : list str) : list (str * block) :=
  match lines with
  | [] => []
  | l :: rest =>
      if is_header_line l
      then (lower (strip l), (S i, S i + length (before_header rest))) :: header_segments (S i) rest
      else header_segments (S i) rest
  end.

(** The segment of the text before the first header, when its body is not
    empty. *)
Definition top_segment (lines : list str) : list (str * block) :=
  let r := (0, length (before_header lines)) in
  if nonempty (body lines r) then [(L "top", r)] else [].

(** The entries of a list of key-value pairs that are not overwritten by a
    later entry with the same key. *)
Fixpoint survivors {V : Type} (items : list (str * V)) : list (str * V) :=
  match items with
  | [] => []
  | (k, v) :: rest =>
      if bool_decide (k ∈ keys rest) then survivors rest else (k, v) :: survivors rest
  end.

(** The last value given to [k] in a list of key-value pairs. *)
Fixpoint lookup_last {V : Type} (k : str) (items : list (str * V)) : option V :=
  match items with
  | [] => None
  | (k', v) :: rest =>
      match lookup_last k rest with
      | Some w => Some w
      | None => if str_eqb k k' then Some v else None
      end
  end.

(** The pair of a key and the body of its block. *)
Definition with_body (lines : list str) (kr : str * block) : str * str :=
  (fst kr, body lines kr.2).

(** Blocks in document order: each starts at or after [off] and at or after
    the end of the one before. *)
Fixpoint ordered_from (off : nat) (rs : list block) : bool :=
  match rs with
  | [] => true
  | (a, b) :: rest => (off <=? a) && (a <=? b) && ordered_from b rest
  end.

(** The value that holds the parse result after export and re-parsing: the
    same dicts, lists and texts, with each element of [dates] a list. *)
Definition py_dates_reloaded (ds : list (list str)) : pyval :=
  PList (map (fun t => PList (map PStr t)) ds).

Definition py_experience_reloaded (e : ExperienceEntry) : pyval :=
  PDict [ (L "title_company", PStr (title_company e));
          (L "dates", py_dates_reloaded (dates e));
          (L "details", py_strs (details e));
          (L "date_tokens", py_strs (date_tokens e)) ].

Definition py_parsed_reloaded (r : ParsedResume) : pyval :=
  PDict [ (L "contact", py_contact (contact r));
          (L "summary", PStr (summary r));
          (L "skills", py_strs (skills r));
          (L "education", PList (map py_education (education r)));
          (L "experience", PList (map py_experience_reloaded (experience r)));
          (L "raw_sections", py_sections (raw_sections r)) ].

(** The number of digits of a text. *)
Definition digit_count (s : str) : nat := length (filter (fun c => is_digit c = true) s).

(** A text made of exactly [n] digits. *)
Definition digit_run (n : nat) (s : str) : Prop := length s = n /\ forallb is_digit s = true.

(** A candidate of the phone scan: the trimmed text of a match of [PHONE_RE]. *)
Definition phone_candidate (text c : str) : Prop :=
  exists m, m ∈ re_finditer PHONE_RE text /\ c = strip (m_text m).

(** The education entry of a line, in the words of the specification: the
    line is cut at its commas and hyphens, the parts are trimmed and the empty
    ones dropped; the year is the first run of four characters that starts
    with 19 or 20 and goes on with two digits. *)
Definition is_comma_or_hyphen (c : ascii) : bool := ch "," c || ch "-" c.

Fixpoint split_on (p : ascii -> bool) (s : str) : list str :=
  match s with
  | [] => [[]]
  | c :: s' => if p c then [] :: split_on p s' else cons_first c (split_on p s')
  end.

Definition parts_of (line : str) : list str :=
  filter (fun part => part <> []) (map strip (split_on is_comma_or_hyphen line)).

Definition year_at (s : str) : option str :=
  if (starts_with (L "19") s || starts_with (L "20") s)
     && forallb is_digit (take 2 (drop 2 s)) && (4 <=? length s)
  then Some (take 4 s) else None.

Fixpoint first_year (s : str) : str :=
  match year_at s with
  | Some y => y
  | None => match s with [] => [] | _ :: s' => first_year s' end
  end.

Definition DEGREE_KEYWORDS : list str :=
  map L [ "bachelor"; "master"; "b.a."; "b.sc."; "m.sc."; "phd"; "b.tech"; "m.tech";
          "bs"; "ms"; "mba"; "associate"; "high school"; "secondary school" ]%string.

Definition has_degree_keyword (line : str) : bool :=
  existsb (fun k => contains k (lower line)) DEGREE_KEYWORDS.

Definition education_entry (line : str) : EducationEntry :=
  {| degree := nth 0 (parts_of line) [];
     institution := nth 1 (parts_of line) [];
     year := first_year line;
     raw := strip line |}.

Definition education_entries (section_text : str) : list EducationEntry :=
  map education_entry (filter (fun line => has_degree_keyword line = true) (splitlines section_text)).

(** The texts that a pattern denotes, whatever stands around them. *)
Fixpoint lang (r : regex) (w : str) : Prop :=
  match r with
  | Eps => w = []
  | Chr p => exists c, w = [c] /\ p c = true
  | Rep p lo hi =>
      forallb p w = true /\ lo <= length w /\ (forall h, hi = Some h -> length w <= h)
  | Seq r1 r2 => exists w1 w2, w = w1 ++ w2 /\ lang r1 w1 /\ lang r2 w2
  | Alt r1 r2 => lang r1 w \/ lang r2 w
  | Grp _ r0 => lang r0 w
  | Bnd => w = []
  end.

(** A year: 19 or 20 and two digits. *)
Definition is_year (y : str) : Prop :=
  exists c d, (y = L "19" ++ [c; d] \/ y = L "20" ++ [c; d])
              /\ is_digit c = true /\ is_digit d = true.

(** [tok] contains a year; [tok] contains the word "present", in any case. *)
Definition has_year (tok : str) : Prop :=
  exists pre y post, tok = pre ++ y ++ post /\ is_year y.

Definition has_present (tok : str) : Prop :=
  exists pre w post, tok = pre ++ w ++ post /\ lower w = L "present".

(** The month names of [DATE_RANGE_RE], short and long. *)
Definition MONTH_NAMES : list str :=
  map L [ "jan"; "january"; "feb"; "february"; "mar"; "march"; "apr"; "april"; "may";
          "jun"; "june"; "jul"; "july"; "aug"; "august"; "sep"; "september";
          "oct"; "october"; "nov"; "november"; "dec"; "december" ]%string.

(** [tok] is a month name and nothing else, in any case. *)
Definition is_month_name (tok : str) : Prop := lower tok ∈ MONTH_NAMES.

(** The characters that [clean_text] keeps, and the texts that it leaves as
    they are. *)
Definition not_cr (c : ascii) : bool := negb (is_char CR c).
Definition not_tab (c : ascii) : bool := negb (is_char TAB c).
Definition not_ctrl (c : ascii) : bool := negb (is_ctrl c).

Record normal (s : str) : Prop := {
  normal_cr : forallb not_cr s = true;
  normal_tab : forallb not_tab s = true;
  normal_blank : runs_le is_blank 1 s = true;
  normal_lf : runs_le (is_char LF) 2 s = true;
  normal_ctrl : forallb not_ctrl s = true;
  normal_strip : strip s = s
}.

(** The section text of the boundary example. *)
Definition boundary_text : str :=
  join [LF] [ L "Engineer, Acme (2020-Present)"; L "- did X";
              L "Intern, Beta (2018-2019)"; L "- did Y" ].

(** The section that the loop [for k in sections] selects. *)
Definition selected (test : str -> bool) (sections : dict str) : str :=
  match first_key test (keys sections) with
  | Some k => default [] (dict_get k sections)
  | None => []
  end.

(** The values all of whose dicts have distinct keys. *)
Inductive py_wf : pyval -> Prop :=
  | wf_str s : py_wf (PStr s)
  | wf_list l : Forall py_wf l -> py_wf (PList l)
  | wf_tuple l : Forall py_wf l -> py_wf (PTuple l)
  | wf_dict d : NoDup (keys d) -> Forall (fun kv => py_wf kv.2) d -> py_wf (PDict d).

(** A character that is neither a separator of the parts nor white space. *)
Definition solid (c : ascii) : bool := negb (is_comma_or_hyphen c) && negb (is_space c).

(** Two characters that no class of [r] tells apart; a character that every
    class of [r] rejects; a pattern without [\b]. *)
Fixpoint same_class (r : regex) (c c' : ascii) : bool :=
  match r with
  | Eps | Bnd => true
  | Chr p | Rep p _ _ => Bool.eqb (p c) (p c')
  | Seq r1 r2 | Alt r1 r2 => same_class r1 c c' && same_class r2 c c'
  | Grp _ r0 => same_class r0 c c'
  end.

Fixpoint rejects (r : regex) (x : ascii) : bool :=
  match r with
  | Eps | Bnd => true
  | Chr p | Rep p _ _ => negb (p x)
  | Seq r1 r2 | Alt r1 r2 => rejects r1 x && rejects r2 x
  | Grp _ r0 => rejects r0 x
  end.

Fixpoint bnd_free (r : regex) : bool :=
  match r with
  | Eps | Chr _ | Rep _ _ _ => true
  | Seq r1 r2 | Alt r1 r2 => bnd_free r1 && bnd_free r2
  | Grp _ r0 => bnd_free r0
  | Bnd => false
  end.

(** A text that is empty or starts with a character of [B]. *)
Definition stopped (B : ascii -> Prop) (s : str) : Prop :=
  match s with [] => True | x :: _ => B x end.

(** Two texts that look alike: their characters are related by [E], one by
    one, up to a place where both are stopped. *)
Inductive sim (E : ascii -> ascii -> Prop) (B : ascii -> Prop) : str -> str -> Prop :=
  | sim_stop s s' : stopped B s -> stopped B s' -> sim E B s s'
  | sim_step c c' s s' : E c c' -> sim E B s s' -> sim E B (c :: s) (c' :: s').

(** Two results of the matcher that agree: both fail, or both succeed with
    answers related by [Q]. *)
Definition agree {A A' : Type} (Q : A -> A' -> Prop) (x : option A) (x' : option A') : Prop :=
  match x, x' with
  | None, None => True
  | Some a, Some a' => Q a a'
  | _, _ => False
  end.

(** The characters that [PHONE_RE] can match. *)
Definition phone_symbol (c : ascii) : bool :=
  is_digit c || ch "+" c || ch "(" c || ch ")" c || ch "-" c || ch "." c || is_space c.

(** A digit, to be compared with the digit 0; a character that [PHONE_RE]
    cannot match. *)
Definition is_digit_for_zero (c c' : ascii) : Prop := is_digit c = true /\ c' = "0"%char.
Definition not_phone_symbol (x : ascii) : Prop := phone_symbol x = false.

(** ** Reading a file (parser.py)

    An exception is told by its class: [RuntimeError] and [ValueError] stand
    for these two classes with their subclasses, [Raised e] for the
    exceptions of the parser, and [External n] for any other class. *)
Inductive failure : Type :=
  | RuntimeError
  | ValueError
  | External (n : nat)
  | Raised (e : exn).

(** The decoders of PDF and DOCX files and the file system are outside the
    program: [fitz] and [docx] are the two optional backends (absent when the
    import failed), each giving the texts of the pages or of the paragraphs
    of the file at a path, and [read_text] reads a text file.  Each of the
    three either returns or raises, and what it raises can be of any class:
    opening a path with a null byte or decoding a file that is not UTF-8
    raises a ValueError, and the errors of a backend can be RuntimeErrors. *)
Inductive external (A : Type) : Type :=
  | Returns (a : A)
  | Throws (f : failure).

Arguments Returns {A} a.
Arguments Throws {A} f.

Inductive outcome (A : Type) : Type :=
  | Done (a : A)
  | Failed (f : failure).

Arguments Done {A} a.
Arguments Failed {A} f.

(** [s.endswith(suffix)] *)
Definition ends_with (suffix s : str) : bool := starts_with (rev suffix) (rev s).

Section Files.

Variable fitz : option (str -> external (list str)).
Variable docx : option (str -> external (list str)).
Variable read_text : str -> external str.
Variable nlp : option (list str -> str -> list str).

Definition extract_text_from_pdf (path : str) : outcome str :=
  match fitz with
  | None => Failed RuntimeError
  | Some pages_of =>
      match pages_of path with
      | Returns text_chunks => Done (join [LF] text_chunks)
      | Throws f => Failed f
      end
  end.

Definition extract_text_from_docx (path : str) : outcome str :=
  match docx with
  | None => Failed RuntimeError
  | Some paragraphs_of =>
      match paragraphs_of path with
      | Returns paragraphs => Done (join [LF] paragraphs)
      | Throws f => Failed f
      end
  end.

(** [with open(path, "r", encoding="utf-8") as f: text = f.read()] *)
Definition read_file (path : str) : outcome str :=
  match read_text path with
  | Returns text => Done text
  | Throws f => Failed f
  end.

(** The call [parse_resume_from_text(text)] at the end of [parse_resume_file]. *)
Definition parse_text (text : outcome str) : outcome ParsedResume :=
  match text with
  | Done text =>
      match parse_resume_from_text nlp text with
      | Ok r => Done r
      | Raise e => Failed (Raised e)
      end
  | Failed f => Failed f
  end.

Definition parse_resume_file (path : str) : outcome ParsedResume :=
  let lpath := lower path in
  if ends_with (L ".pdf") lpath then parse_text (extract_text_from_pdf path)
  else if ends_with (L ".docx") lpath then parse_text (extract_text_from_docx path)
  else if ends_with (L ".txt") lpath then parse_text (read_file path)
  else Failed ValueError.

End Files.

(** ** The table of the parsed data (utils.py)

    The data frame is the list of its rows, each with the columns [section],
    [key] and [value]. *)

Record DataRow := { r_section : str; r_key : str; r_value : str }.

Definition parsed_to_dataframe (parsed : ParsedResume) : list DataRow :=
  let contact := contact parsed in
  [ {| r_section := L "contact"; r_key := L "emails"; r_value := join (L ", ") (emails contact) |};
    {| r_section := L "contact"; r_key := L "phones"; r_value := join (L ", ") (phones contact) |};
    {| r_section := L "contact"; r_key := L "linkedin";
       r_value := join (L ", ") (linkedin contact) |};
    {| r_section := L "summary"; r_key := L "summary"; r_value := summary parsed |} ]
  ++ map (fun s => {| r_section := L "skills"; r_key := L "skill"; r_value := s |})
         (skills parsed)
  ++ map (fun edu => {| r_section := L "education"; r_key := degree edu;
                        r_value := institution edu ++ L " | " ++ year edu |})
         (education parsed)
  ++ map (fun exp => {| r_section := L "experience"; r_key := title_company exp;
                        r_value := join (L ", ") (date_tokens exp) ++ L " | "
                                   ++ join (L "; ") (details exp) |})
         (experience parsed).

(** ** The warning of the user interface (streamlit_app.py)

    [parsed.get(k)] and the truth value of what it returns: [None], an empty
    text, list, tuple or dict are false. *)

Definition py_get (k : str) (parsed : pyval) : option pyval :=
  match parsed with
  | PDict d => dict_get k d
  | _ => None
  end.

Definition py_truthy (v : option pyval) : bool :=
  match v with
  | None => false
  | Some (PStr s) => nonempty s
  | Some (PList l) => nonempty l
  | Some (PTuple l) => nonempty l
  | Some (PDict d) => nonempty d
  end.

(** The condition under which the interface warns that parsing returned no
    structured data. *)
Definition no_structured_data (parsed : pyval) : bool :=
  negb (py_truthy (py_get (L "skills") parsed))
  && negb (py_truthy (py_get (L "education") parsed))
  && negb (py_truthy (py_get (L "experience") parsed))
  && negb (py_truthy (py_get (L "contact") parsed)).

(** ** Notions used to state the further properties *)

(** [w] occurs in [s]. *)
Definition occurs_in (w s : str) : Prop := exists pre post, s = pre ++ w ++ post.

(** The elements of a list without repetition, each at the place of its first
    occurrence. *)
Fixpoint uniq (l : list str) : list str :=
  match l with
  | [] => []
  | x :: l' => x :: filter (fun y => y <> x) (uniq l')
  end.

(** A character that is white space or one of the removed control
    characters. *)
Definition is_blank_or_ctrl (c : ascii) : bool := is_space c || is_ctrl c.

(** A line with a date, as the experience extractor tests it. *)
Definition is_dated (line : str) : bool := found (re_search DATE_RANGE_RE line).

(** The lines that the experience extractor reads: trimmed and not empty. *)
Definition content_lines (section_text : str) : list str :=
  filter (fun l => l <> []) (map strip (splitlines section_text)).

(** A part of a line as the education extractor cuts it: trimmed, without
    comma or hyphen, and a piece of the line. *)
Definition part_of_line (part line : str) : Prop :=
  strip part = part /\
  forallb (fun c => negb (is_comma_or_hyphen c)) part = true /\
  occurs_in part line.

(** The lines and titles of the experience entries read so far, in order. *)
Definition entry_lines (e : ExperienceEntry) : list str := title_company e :: details e.

(** The number of entries that the experience extractor opens on a list of
    lines: one for every line with a date, and one for the first line when
    it has none. *)
Definition entry_count (lines : list str) : nat :=
  length (filter (fun l => is_dated l = true) lines)
  + match lines with
    | l :: _ => if is_dated l then 0 else 1
    | [] => 0
    end.

(** What holds of the entries while the lines are read. *)
Definition well_grouped (es : list OpenEntry) : Prop :=
  Forall (fun e => Forall (fun d => is_dated d = false) (o_details e) /\
                   o_dates e = re_findall_groups DATE_RANGE_GROUPS DATE_RANGE_RE
                                 (o_title_company e)) es /\
  Forall (fun e => is_dated (o_title_company e) = true) (tail es).

(** * Properties *)

(** ** Texts and runs *)

Lemma run_le_length p s : run p s <= length s.
Proof. induction s as [|c s IH]; simpl; [lia|]. destruct (p c); simpl; lia. Qed.

Lemma run_app_all p w s :
  forallb p w = true -> starts_off p s = true -> run p (w ++ s) = length w.
Proof.
  intros Hw Hs. induction w as [|c w IH]; simpl in *.
  - destruct s as [|d s]; simpl in *; [done|]. by destruct (p d).
  - apply andb_prop in Hw as [Hc Hw]. rewrite Hc. f_equal. by apply IH.
Qed.

Lemma run_decompose p s :
  exists w t, s = w ++ t /\ forallb p w = true /\ starts_off p t = true /\ run p s = length w.
Proof.
  induction s as [|c s (w & t & -> & Hw & Ht & Hr)].
  - by exists [], [].
  - simpl. destruct (p c) eqn:Hc.
    + exists (c :: w), t. simpl. rewrite Hc, Hw, Hr. done.
    + exists [], (c :: w ++ t). simpl. rewrite Hc. done.
Qed.

(** Induction over a text run by run. *)
Lemma run_ind (p : ascii -> bool) (P : str -> Prop) :
  P [] ->
  (forall c s, p c = false -> P s -> P (c :: s)) ->
  (forall w s, w <> [] -> forallb p w = true -> starts_off p s = true -> P s -> P (w ++ s)) ->
  forall s, P s.
Proof.
  intros Hnil Hoff Hrun s.
  assert (H : forall n t, length t <= n -> P t); [|by apply (H (length s))].
  clear s. induction n as [|n IH]; intros [|c s] Hl; simpl in Hl; try done; [lia|].
  destruct (p c) eqn:Hc.
  - destruct (run_decompose p (c :: s)) as (w & t & E & Hw & Ht & Hr).
    simpl in Hr. rewrite Hc in Hr. rewrite E.
    apply Hrun; try done.
    + intros ->. done.
    + apply IH. apply (f_equal length) in E. rewrite length_app in E. simpl in E. lia.
  - apply Hoff; [done|]. apply IH. lia.
Qed.

(** ** Substitution of the runs of a class

    [re.sub] with the pattern [p{lo,}], written [Rep p lo None], handles a
    text run by run: a run of at least [lo] characters is replaced, a shorter
    one is kept. *)

Lemma rep_unbounded p lo prev s caps :
  rep p lo None prev s (fun _ s' => Some (s', caps))
  = if lo <=? run p s then Some (drop (run p s) s, caps) else None.
Proof.
  revert lo prev. induction s as [|c s IH]; intros lo prev; simpl.
  - by destruct lo.
  - destruct (p c) eqn:Hc; simpl.
    + rewrite IH. destruct lo as [|lo]; simpl; [done|].
      by destruct (lo <=? run p s).
    + by destruct lo.
Qed.

Lemma match_at_rep p lo prev s :
  match_at (Rep p lo None) prev s
  = if lo <=? run p s then Some {| m_text := take (run p s) s; m_caps := [] |} else None.
Proof.
  unfold match_at. simpl. rewrite rep_unbounded.
  destruct (lo <=? run p s); [|done].
  rewrite length_drop. pose proof (run_le_length p s).
  do 2 f_equal. f_equal. lia.
Qed.

Section SubRuns.

Variables (p : ascii -> bool) (lo : nat) (repl : str).
Hypothesis lo_pos : 0 < lo.

Local Abbreviation sub := (sub_scan (Rep p lo None) repl).

Lemma sub_prev prev prev' skip s : sub prev skip s = sub prev' skip s.
Proof.
  revert prev prev' skip.
  induction s as [|c s IH]; intros prev prev' skip; simpl.
  - rewrite !match_at_rep. done.
  - destruct skip as [|n]; [|apply IH].
    rewrite !match_at_rep. destruct (lo <=? run p (c :: s)); [|done].
    simpl. by destruct (length (take (run p (c :: s)) (c :: s))).
Qed.

Lemma sub_nil prev skip : sub prev skip [] = [].
Proof using lo_pos.
  simpl. destruct skip; [|done]. rewrite match_at_rep. simpl.
  by rewrite (proj2 (Nat.leb_gt lo 0) lo_pos).
Qed.

Lemma sub_skip prev skip s : sub prev skip s = sub None 0 (drop skip s).
Proof using lo_pos.
  revert prev skip. induction s as [|c s IH]; intros prev skip.
  - rewrite drop_nil. by rewrite !sub_nil.
  - destruct skip as [|n]; [apply sub_prev|]. simpl. apply IH.
Qed.

Lemma sub_off c s : p c = false -> sub None 0 (c :: s) = c :: sub None 0 s.
Proof using lo_pos.
  intros Hc. simpl. rewrite match_at_rep. simpl. rewrite Hc.
  rewrite (proj2 (Nat.leb_gt lo 0) lo_pos). f_equal. apply sub_prev.
Qed.

Lemma sub_short w s :
  forallb p w = true -> starts_off p s = true -> length w < lo ->
  sub None 0 (w ++ s) = w ++ sub None 0 s.
Proof using lo_pos.
  intros Hw Hs. induction w as [|c w IH]; intros Hl; [done|].
  simpl in Hw. apply andb_prop in Hw as [Hc Hw].
  change ((c :: w) ++ s) with (c :: (w ++ s)).
  simpl. rewrite match_at_rep.
  change (run p (c :: w ++ s)) with (run p ((c :: w) ++ s)).
  rewrite run_app_all by (simpl; rewrite ?Hc; done).
  destruct (lo <=? length (c :: w)) eqn:E; [apply Nat.leb_le in E; lia|].
  f_equal. rewrite (sub_prev _ None). apply IH; [done|]. simpl in Hl. lia.
Qed.

Lemma sub_long w s :
  w <> [] -> forallb p w = true -> starts_off p s = true -> lo <= length w ->
  sub None 0 (w ++ s) = repl ++ sub None 0 s.
Proof using lo_pos.
  intros Hne Hw Hs Hl. destruct w as [|c w]; [done|].
  change ((c :: w) ++ s) with (c :: (w ++ s)).
  simpl. rewrite match_at_rep.
  change (run p (c :: w ++ s)) with (run p ((c :: w) ++ s)).
  rewrite run_app_all by done.
  destruct (lo <=? length (c :: w)) eqn:E; [|apply Nat.leb_gt in E; lia].
  cbn [m_text]. simpl length at 1. simpl take.
  rewrite length_take, length_app. rewrite Nat.min_l by lia.
  rewrite sub_skip. by rewrite drop_app_length.
Qed.

(** The three equations that determine the substitution. *)
Lemma sub_run w s :
  w <> [] -> forallb p w = true -> starts_off p s = true ->
  sub None 0 (w ++ s) = (if lo <=? length w then repl else w) ++ sub None 0 s.
Proof using lo_pos.
  intros Hne Hw Hs. destruct (lo <=? length w) eqn:E.
  - apply sub_long; try done. by apply Nat.leb_le.
  - apply sub_short; try done. by apply Nat.leb_gt.
Qed.

End SubRuns.

Lemma runs_le_suffix p n u s : runs_le p n (u ++ s) = true -> runs_le p n s = true.
Proof.
  induction u as [|c u IH]; simpl; [done|].
  intros H. apply andb_prop in H as [_ H]. by apply IH.
Qed.

Lemma run_prefix_le p u s : run p u <= run p (u ++ s).
Proof. induction u as [|c u IH]; simpl; [lia|]. destruct (p c); lia. Qed.

Lemma runs_le_prefix p n u s : runs_le p n (u ++ s) = true -> runs_le p n u = true.
Proof.
  induction u as [|c u IH]; intros H; [done|].
  change ((c :: u) ++ s) with (c :: (u ++ s)) in H.
  cbn [runs_le] in *. apply andb_prop in H as [H1 H2].
  apply andb_true_intro. split; [|by apply IH].
  apply Nat.leb_le in H1. apply Nat.leb_le.
  pose proof (run_prefix_le p (c :: u) s). simpl in *. lia.
Qed.

Lemma runs_le_app_run p n v x :
  forallb p v = true -> length v <= n -> starts_off p x = true ->
  runs_le p n x = true -> runs_le p n (v ++ x) = true.
Proof.
  intros Hv Hl Hx Hr. induction v as [|c v IH]; [done|].
  change ((c :: v) ++ x) with (c :: (v ++ x)). cbn [runs_le].
  apply andb_true_intro. split.
  - apply Nat.leb_le. change (c :: v ++ x) with ((c :: v) ++ x).
    by rewrite run_app_all.
  - simpl in Hv, Hl. apply andb_prop in Hv as [_ Hv]. apply IH; [done|lia].
Qed.

Lemma runs_le_app_off p n v x :
  forallb (fun c => negb (p c)) v = true -> runs_le p n (v ++ x) = runs_le p n x.
Proof.
  induction v as [|c v IH]; [done|]. simpl. intros H.
  apply andb_prop in H as [Hc H]. apply negb_true_iff in Hc. rewrite Hc. simpl.
  by apply IH.
Qed.

Lemma forallb_off_runs p s :
  forallb (fun c => negb (p c)) s = true -> runs_le p 0 s = true.
Proof.
  induction s as [|c s IH]; [done|]. simpl. intros H.
  apply andb_prop in H as [Hc H]. apply negb_true_iff in Hc. rewrite Hc. by apply IH.
Qed.

Section SubRunsProperties.

Variables (p : ascii -> bool) (lo : nat) (repl : str).
Hypothesis lo_pos : 0 < lo.

Local Abbreviation rsub := (re_sub (Rep p lo None) repl).

Lemma rsub_nil : rsub [] = [].
Proof using lo_pos. by apply sub_nil. Qed.

Lemma rsub_off c s : p c = false -> rsub (c :: s) = c :: rsub s.
Proof using lo_pos. by apply sub_off. Qed.

Lemma rsub_run w s :
  w <> [] -> forallb p w = true -> starts_off p s = true ->
  rsub (w ++ s) = (if lo <=? length w then repl else w) ++ rsub s.
Proof using lo_pos. by apply sub_run. Qed.

Lemma rsub_starts_off s : starts_off p s = true -> starts_off p (rsub s) = true.
Proof using lo_pos.
  destruct s as [|c s]; simpl; intros H.
  - by rewrite rsub_nil.
  - apply negb_true_iff in H. rewrite rsub_off by done. simpl. by rewrite H.
Qed.

(** A class that holds of the replacement is kept by the substitution. *)
Lemma rsub_forallb q s :
  forallb q repl = true -> forallb q s = true -> forallb q (rsub s) = true.
Proof using lo_pos.
  intros Hq. induction s as [| c s Hc IH | w s Hne Hw Hs IH] using (run_ind p).
  - by rewrite rsub_nil.
  - rewrite rsub_off by done. simpl. intros H. apply andb_prop in H as [-> H]. by apply IH.
  - rewrite rsub_run by done. rewrite !forallb_app. intros H.
    apply andb_prop in H as [H1 H2]. rewrite IH by done.
    destruct (lo <=? length w); by rewrite ?Hq, ?H1.
Qed.

(** When every run is replaced, so is every character of the class. *)
Lemma rsub_forallb_new q s :
  lo = 1 -> (forall c, p c = false -> q c = true) -> forallb q repl = true ->
  forallb q (rsub s) = true.
Proof using lo_pos.
  intros Hlo Hoff Hq. induction s as [| c s Hc IH | w s Hne Hw Hs IH] using (run_ind p).
  - by rewrite rsub_nil.
  - rewrite rsub_off by done. simpl. by rewrite Hoff, IH.
  - rewrite rsub_run by done. rewrite forallb_app, IH.
    destruct w as [|c w]; [done|]. rewrite Hlo. simpl. by rewrite Hq.
Qed.

(** The runs of the class after the substitution. *)
Lemma rsub_runs_le n s :
  forallb p repl = true -> length repl <= n -> lo - 1 <= n ->
  runs_le p n (rsub s) = true.
Proof using lo_pos.
  intros Hp Hl Hn. induction s as [| c s Hc IH | w s Hne Hw Hs IH] using (run_ind p).
  - by rewrite rsub_nil.
  - rewrite rsub_off by done. simpl. by rewrite Hc, IH.
  - rewrite rsub_run by done. destruct (lo <=? length w) eqn:E.
    + apply runs_le_app_run; try done. by apply rsub_starts_off.
    + apply Nat.leb_gt in E. apply runs_le_app_run; try done; [lia|].
      by apply rsub_starts_off.
Qed.

(** The runs of a class disjoint from [p]. *)
Lemma rsub_run_other p' s :
  (forall c, p c = true -> p' c = false) -> forallb p repl = true -> repl <> [] ->
  run p' (rsub s) = run p' s.
Proof using lo_pos.
  intros Hd Hp Hr. induction s as [| c s Hc IH | w s Hne Hw Hs IH] using (run_ind p).
  - by rewrite rsub_nil.
  - rewrite rsub_off by done. simpl. by rewrite IH.
  - rewrite rsub_run by done.
    assert (Hz : forall v x, v <> [] -> forallb p v = true -> run p' (v ++ x) = 0).
    { intros [|d v] x Hv Hpv; [done|]. simpl in *. apply andb_prop in Hpv as [Hd' _].
      by rewrite (Hd _ Hd'). }
    rewrite (Hz w s) by done. destruct (lo <=? length w); by apply Hz.
Qed.

Lemma rsub_runs_le_other p' n s :
  (forall c, p c = true -> p' c = false) -> forallb p repl = true -> repl <> [] ->
  runs_le p' n s = true -> runs_le p' n (rsub s) = true.
Proof using lo_pos.
  intros Hd Hp Hr. induction s as [| c s Hc IH | w s Hne Hw Hs IH] using (run_ind p).
  - by rewrite rsub_nil.
  - intros H. pose proof (rsub_run_other p' (c :: s) Hd Hp Hr) as E.
    rewrite rsub_off in * by done. cbn [runs_le] in *.
    apply andb_prop in H as [H1 H2]. rewrite E, H1. by apply IH.
  - rewrite rsub_run by done.
    assert (Hn : forall v, forallb p v = true -> forallb (fun c => negb (p' c)) v = true).
    { intros v Hv. apply forallb_forall. intros c Hc.
      rewrite forallb_forall in Hv. by rewrite (Hd _ (Hv _ Hc)). }
    rewrite !runs_le_app_off; [done| |by apply Hn].
    destruct (lo <=? length w); by apply Hn.
Qed.

(** A text without a run of [lo] characters is left as it is. *)
Lemma rsub_id s : runs_le p (lo - 1) s = true -> rsub s = s.
Proof using lo_pos.
  induction s as [| c s Hc IH | w s Hne Hw Hs IH] using (run_ind p).
  - by rewrite rsub_nil.
  - rewrite rsub_off by done. simpl. intros H. apply andb_prop in H as [_ H].
    f_equal. by apply IH.
  - intros H. rewrite rsub_run by done.
    rewrite IH by (by apply runs_le_suffix in H).
    destruct w as [|c w]; [done|].
    change ((c :: w) ++ s) with (c :: (w ++ s)) in H. cbn [runs_le] in H.
    apply andb_prop in H as [H _]. apply Nat.leb_le in H.
    change (c :: w ++ s) with ((c :: w) ++ s) in H.
    rewrite run_app_all in H by done.
    destruct (lo <=? length (c :: w)) eqn:E; [|done].
    apply Nat.leb_le in E. lia.
Qed.

End SubRunsProperties.

(** ** Stripping *)

Lemma lstrip_suffix s : exists u, s = u ++ lstrip s.
Proof.
  induction s as [|c s [u IH]]; [by exists []|]. simpl.
  destruct (is_space c); [|by exists []].
  exists (c :: u). simpl. by rewrite <- IH.
Qed.

Lemma rstrip_prefix s : exists u, s = rstrip s ++ u.
Proof.
  unfold rstrip. destruct (lstrip_suffix (rev s)) as [u E].
  exists (rev u). rewrite <- rev_app_distr, <- E. by rewrite rev_involutive.
Qed.

Lemma strip_infix s : exists u v, s = u ++ strip s ++ v.
Proof.
  unfold strip. destruct (lstrip_suffix s) as [u E].
  destruct (rstrip_prefix (lstrip s)) as [v E'].
  exists u, v. by rewrite <- E', <- E.
Qed.

Lemma lstrip_starts_off s : starts_off is_space (lstrip s) = true.
Proof.
  induction s as [|c s IH]; [done|]. simpl.
  destruct (is_space c) eqn:E; [done|]. simpl. by rewrite E.
Qed.

Lemma lstrip_id s : starts_off is_space s = true -> lstrip s = s.
Proof. destruct s as [|c s]; [done|]. simpl. by intros ->%negb_true_iff. Qed.

Lemma rstrip_idem s : rstrip (rstrip s) = rstrip s.
Proof.
  unfold rstrip. rewrite rev_involutive.
  by rewrite (lstrip_id (lstrip _)) by apply lstrip_starts_off.
Qed.

Lemma rstrip_starts_off s :
  starts_off is_space s = true -> starts_off is_space (rstrip s) = true.
Proof.
  destruct (rstrip_prefix s) as [u E]. intros H. rewrite E in H.
  by destruct (rstrip s).
Qed.

Lemma strip_idem s : strip (strip s) = strip s.
Proof.
  unfold strip.
  rewrite (lstrip_id (rstrip _)) by (apply rstrip_starts_off, lstrip_starts_off).
  apply rstrip_idem.
Qed.

Lemma strip_forallb q s : forallb q s = true -> forallb q (strip s) = true.
Proof.
  destruct (strip_infix s) as (u & v & E). intros H. rewrite E in H.
  rewrite !forallb_app in H. apply andb_prop in H as [_ H].
  by apply andb_prop in H as [H _].
Qed.

Lemma strip_runs_le p n s : runs_le p n s = true -> runs_le p n (strip s) = true.
Proof.
  destruct (strip_infix s) as (u & v & E). intros H. rewrite E in H.
  apply runs_le_suffix in H. by apply runs_le_prefix in H.
Qed.

(** ** The normalizer (claim C1) *)

Lemma is_char_eq a c : is_char a c = true -> c = a.
Proof. unfold is_char. by intros ->%Ascii.eqb_eq. Qed.

Lemma replace_char_id a b s :
  forallb (fun c => negb (is_char a c)) s = true -> replace_char a b s = s.
Proof.
  induction s as [|c s IH]; [done|]. simpl. intros H.
  apply andb_prop in H as [Hc H]. apply negb_true_iff in Hc. rewrite Hc.
  f_equal. by apply IH.
Qed.

Lemma replace_cr_not_cr s : forallb not_cr (replace_char CR LF s) = true.
Proof.
  induction s as [|c s IH]; [done|]. simpl. rewrite IH.
  unfold not_cr at 1. destruct (is_char CR c) eqn:E; [reflexivity|]. by rewrite E.
Qed.

Lemma replace_cr_not_ctrl s :
  forallb not_ctrl s = true -> forallb not_ctrl (replace_char CR LF s) = true.
Proof.
  induction s as [|c s IH]; [done|]. simpl. intros H.
  apply andb_prop in H as [Hc H]. rewrite IH by done.
  destruct (is_char CR c); [reflexivity|]. by rewrite Hc.
Qed.

Lemma blank_sub_id s :
  forallb not_tab s = true -> runs_le is_blank 1 s = true ->
  re_sub (Rep is_blank 1 None) [SP] s = s.
Proof.
  assert (Hpos : 0 < 1) by lia.
  induction s as [| c s Hc IH | w s Hne Hw Hs IH] using (run_ind is_blank); intros Ht Hr.
  - by apply rsub_nil.
  - rewrite rsub_off by done. simpl in Ht, Hr.
    apply andb_prop in Ht as [_ Ht]. apply andb_prop in Hr as [_ Hr].
    f_equal. by apply IH.
  - rewrite rsub_run by done.
    rewrite forallb_app in Ht. apply andb_prop in Ht as [Htw Hts].
    rewrite IH by (by apply runs_le_suffix in Hr).
    destruct w as [|c w]; [done|].
    change ((c :: w) ++ s) with (c :: (w ++ s)) in Hr. cbn [runs_le] in Hr.
    apply andb_prop in Hr as [Hr _]. apply Nat.leb_le in Hr.
    change (c :: w ++ s) with ((c :: w) ++ s) in Hr.
    rewrite run_app_all in Hr by done.
    destruct w as [|d w]; [|simpl in Hr; lia].
    simpl in *. rewrite andb_true_r in Hw, Htw.
    unfold is_blank in Hw. unfold not_tab in Htw. apply negb_true_iff in Htw.
    rewrite Htw, orb_false_r in Hw. by rewrite (is_char_eq _ _ Hw).
Qed.

Lemma lf_not_blank c : is_char LF c = true -> is_blank c = false.
Proof. by intros ->%is_char_eq. Qed.

(** On a text without the removed control characters, the result of
    [clean_text] is normal. *)
Lemma clean_text_normal x : forallb not_ctrl x = true -> normal (clean_text x).
Proof.
  intros Hx. unfold clean_text.
  set (s1 := replace_char CR LF x).
  set (s2 := re_sub (Rep is_blank 1 None) [SP] s1).
  set (s3 := re_sub (Rep (is_char LF) 3 None) [LF; LF] s2).
  assert (H1 : 0 < 1) by lia. assert (H3 : 0 < 3) by lia.
  assert (D3 : forallb not_ctrl s3 = true).
  { apply rsub_forallb; [done..|]. apply rsub_forallb; [done..|].
    by apply replace_cr_not_ctrl. }
  rewrite (rsub_id is_ctrl 1 [] H1 s3) by (by apply forallb_off_runs).
  split.
  - apply strip_forallb. apply rsub_forallb; [done..|]. apply rsub_forallb; [done..|].
    apply replace_cr_not_cr.
  - apply strip_forallb. apply rsub_forallb; [done..|].
    apply rsub_forallb_new; try done.
    intros c Hc. unfold is_blank in Hc. apply orb_false_elim in Hc as [_ Hc].
    unfold not_tab. by rewrite Hc.
  - apply strip_runs_le. apply rsub_runs_le_other; try done; [apply lf_not_blank|].
    apply rsub_runs_le; [done|reflexivity|simpl; lia..].
  - apply strip_runs_le. apply rsub_runs_le; [done|reflexivity|simpl; lia..].
  - by apply strip_forallb.
  - apply strip_idem.
Qed.

(** A normal text is a fixed point of [clean_text]. *)
Lemma clean_text_fixed s : normal s -> clean_text s = s.
Proof.
  intros [Hcr Htab Hblank Hlf Hctrl Hstrip]. unfold clean_text.
  rewrite replace_char_id by done.
  rewrite blank_sub_id by done.
  rewrite (rsub_id (is_char LF) 3 [LF; LF]) by (done || lia).
  rewrite (rsub_id is_ctrl 1 []); [done|lia|]. by apply forallb_off_runs.
Qed.

(** The result of [clean_text] holds none of the removed control
    characters, so a second application always reaches a fixed point. *)
Lemma clean_text_not_ctrl x : forallb not_ctrl (clean_text x) = true.
Proof.
  unfold clean_text. apply strip_forallb.
  apply rsub_forallb_new; try done; [lia|].
  intros c Hc. unfold not_ctrl. by rewrite Hc.
Qed.

Lemma clean_text_stable x :
  clean_text (clean_text (clean_text x)) = clean_text (clean_text x).
Proof. apply clean_text_fixed, clean_text_normal, clean_text_not_ctrl. Qed.

(** C1, as amended: on every text that holds none of the control characters
    which the normalizer removes (0x00-0x08, 0x0B-0x0C, 0x0E-0x1F), applying
    [clean_text] twice gives the same result as applying it once. *)
Theorem clean_text_idempotent_without_ctrl (x : str) :
  forallb not_ctrl x = true -> clean_text (clean_text x) = clean_text x.
Proof. intros Hx. by apply clean_text_fixed, clean_text_normal. Qed.

Lemma clean_text_idempotent_without_ctrl_witness :
  let x := L "  Jane	 Doe  " ++ [CR; LF; LF; LF; LF] ++ L "Skills " in
  forallb not_ctrl x = true /\ clean_text (clean_text x) = clean_text x.
Proof.
  split; [reflexivity|].
  apply (clean_text_idempotent_without_ctrl _). reflexivity.
Defined.

(** C1, as stated, fails: removing a control character (step d) can bring
    two spaces together after the runs of spaces were collapsed (step b). *)
Lemma clean_text_not_idempotent :
  let x := L "a " ++ ["001"%char] ++ L " b" in
  clean_text x = L "a  b" /\ clean_text (clean_text x) = L "a b" /\
  clean_text (clean_text x) <> clean_text x.
Proof. vm_compute. repeat split; [reflexivity..|discriminate]. Qed.

(** ** Dicts *)

Lemma str_eqb_eq a b : str_eqb a b = true <-> a = b.
Proof. unfold str_eqb. apply bool_decide_eq_true. Qed.

Lemma str_eqb_refl a : str_eqb a a = true.
Proof. by apply str_eqb_eq. Qed.

Lemma str_eqb_neq a b : a <> b -> str_eqb a b = false.
Proof. intros H. unfold str_eqb. by apply bool_decide_eq_false. Qed.

Section Dicts.

Context {V : Type}.
Implicit Types (d : dict V) (k : str) (v : V).

Lemma elem_of_keys k v d : (k, v) ∈ d -> k ∈ keys d.
Proof.
  induction d as [|[k0 v0] d IH]; simpl; intros H.
  - by apply elem_of_nil in H.
  - apply elem_of_cons in H as [[= -> ->]|H]; [by left|]. right. by apply IH.
Qed.

Lemma dict_get_set k k' v d :
  dict_get k (dict_set k' v d) = if str_eqb k k' then Some v else dict_get k d.
Proof.
  induction d as [|[k0 v0] d IH]; simpl.
  - done.
  - destruct (str_eqb k' k0) eqn:E; simpl.
    + apply str_eqb_eq in E as ->. by destruct (str_eqb k k0).
    + rewrite IH. destruct (str_eqb k k0) eqn:E0; [|done].
      apply str_eqb_eq in E0 as ->. destruct (str_eqb k0 k') eqn:E1; [|done].
      apply str_eqb_eq in E1 as ->. by rewrite str_eqb_refl in E.
Qed.

Lemma dict_get_None k d : dict_get k d = None <-> k ∉ keys d.
Proof.
  induction d as [|[k0 v0] d IH]; simpl.
  - split; [intros _; apply not_elem_of_nil|done].
  - rewrite not_elem_of_cons. destruct (str_eqb k k0) eqn:E.
    + apply str_eqb_eq in E. split; [done|]. by intros [? _].
    + rewrite IH. split; [|by intros [_ ?]]. intros H. split; [|done].
      intros ->. by rewrite str_eqb_refl in E.
Qed.

Lemma dict_get_Some_keys k v d : dict_get k d = Some v -> k ∈ keys d.
Proof.
  intros H. destruct (decide (k ∈ keys d)) as [|Hn]; [done|].
  apply dict_get_None in Hn. congruence.
Qed.

Lemma keys_dict_set k k' v d : k ∈ keys (dict_set k' v d) <-> k = k' \/ k ∈ keys d.
Proof.
  induction d as [|[k0 v0] d IH]; simpl.
  - rewrite list_elem_of_singleton. split; [by left|]. intros [?|H]; [done|].
    by apply elem_of_nil in H.
  - destruct (str_eqb k' k0) eqn:E; simpl; rewrite !elem_of_cons.
    + apply str_eqb_eq in E as ->. tauto.
    + rewrite IH. tauto.
Qed.

Lemma NoDup_dict_set k v d : NoDup (keys d) -> NoDup (keys (dict_set k v d)).
Proof.
  induction d as [|[k0 v0] d IH]; simpl; intros H.
  - apply NoDup_singleton.
  - apply NoDup_cons in H as [H1 H2]. destruct (str_eqb k k0) eqn:E; simpl.
    + apply str_eqb_eq in E as ->. by apply NoDup_cons.
    + apply NoDup_cons. split; [|by apply IH].
      rewrite keys_dict_set. intros [->|?]; [|done]. by rewrite str_eqb_refl in E.
Qed.

Lemma elem_of_dict k v d : NoDup (keys d) -> (k, v) ∈ d <-> dict_get k d = Some v.
Proof.
  induction d as [|[k0 v0] d IH]; simpl; intros H.
  - split; [intros H0; by apply elem_of_nil in H0|done].
  - apply NoDup_cons in H as [H1 H2]. rewrite elem_of_cons.
    destruct (str_eqb k k0) eqn:E.
    + apply str_eqb_eq in E as ->. split.
      * intros [[= ->]|Hin]; [done|]. exfalso. apply H1.
        by apply elem_of_keys in Hin.
      * intros [= ->]. by left.
    + rewrite <- (IH H2). split; [|by right].
      intros [[= -> ->]|?]; [|done]. by rewrite str_eqb_refl in E.
Qed.

Lemma dict_get_fold k items d :
  dict_get k (fold_left ins items d)
  = match lookup_last k items with Some v => Some v | None => dict_get k d end.
Proof.
  revert d. induction items as [|[k0 v0] items IH]; intros d; simpl; [done|].
  rewrite IH. destruct (lookup_last k items); [done|].
  unfold ins. simpl. rewrite dict_get_set. by destruct (str_eqb k k0).
Qed.

Lemma NoDup_fold items d : NoDup (keys d) -> NoDup (keys (fold_left ins items d)).
Proof.
  revert d. induction items as [|kv items IH]; intros d H; simpl; [done|].
  apply IH. by apply NoDup_dict_set.
Qed.

Lemma keys_fold k items d :
  k ∈ keys (fold_left ins items d) <-> k ∈ keys items \/ k ∈ keys d.
Proof.
  revert d. induction items as [|[k0 v0] items IH]; intros d; simpl.
  - split; [by right|]. intros [H|?]; [|done]. by apply elem_of_nil in H.
  - rewrite IH. unfold ins. simpl. rewrite keys_dict_set, elem_of_cons. tauto.
Qed.

Lemma lookup_last_None k (items : list (str * V)) :
  lookup_last k items = None <-> k ∉ keys items.
Proof.
  induction items as [|[k0 v0] items IH]; simpl.
  - split; [intros _; apply not_elem_of_nil|done].
  - rewrite not_elem_of_cons. destruct (lookup_last k items) eqn:E.
    + split; [done|]. intros [_ H]. apply IH in H. done.
    + destruct (str_eqb k k0) eqn:E0.
      * apply str_eqb_eq in E0. split; [done|]. by intros [? _].
      * split; [|done]. intros _. split; [|by apply IH].
        intros ->. by rewrite str_eqb_refl in E0.
Qed.

Lemma keys_survivors k (items : list (str * V)) : k ∈ keys (survivors items) <-> k ∈ keys items.
Proof.
  induction items as [|[k0 v0] items IH]; simpl; [done|].
  case_bool_decide as E; simpl; rewrite ?elem_of_cons, IH; [|done].
  split; [by right|]. by intros [->|?].
Qed.

Lemma NoDup_survivors (items : list (str * V)) : NoDup (keys (survivors items)).
Proof.
  induction items as [|[k0 v0] items IH]; simpl; [apply NoDup_nil_2|].
  case_bool_decide as E; [done|]. simpl. apply NoDup_cons. split; [|done].
  by rewrite keys_survivors.
Qed.

Lemma elem_of_survivors k v (items : list (str * V)) :
  (k, v) ∈ survivors items <-> lookup_last k items = Some v.
Proof.
  induction items as [|[k0 v0] items IH]; simpl.
  - split; [intros H; by apply elem_of_nil in H|done].
  - case_bool_decide as E.
    + rewrite IH. destruct (lookup_last k items) eqn:E0; [done|].
      split; [done|]. apply lookup_last_None in E0.
      destruct (str_eqb k k0) eqn:E1; [|done]. apply str_eqb_eq in E1 as ->. done.
    + rewrite elem_of_cons, IH. destruct (lookup_last k items) eqn:E0.
      * split; [|by right]. intros [[= -> ->]|?]; [|done].
        apply lookup_last_None in E. congruence.
      * destruct (str_eqb k k0) eqn:E1.
        -- apply str_eqb_eq in E1 as ->. split; [|intros [= ->]; by left].
           by intros [[= ->]|?].
        -- split; [|done]. intros [[= -> ->]|?]; [|done]. by rewrite str_eqb_refl in E1.
Qed.

(** What a dict holds after a sequence of insertions. *)
Lemma elem_of_dict_of_items k v (items : list (str * V)) :
  (k, v) ∈ fold_left ins items [] <-> (k, v) ∈ survivors items.
Proof.
  rewrite elem_of_dict by (apply NoDup_fold, NoDup_nil_2).
  rewrite dict_get_fold, elem_of_survivors. simpl.
  by destruct (lookup_last k items).
Qed.

End Dicts.

(** ** The section segmenter *)

Lemma first_header_index j ls :
  match header_scan j ls with [] => j + length ls | (j', _) :: _ => j' end
  = j + length (before_header ls).
Proof.
  revert j. induction ls as [|l ls IH]; intros j; simpl; [done|].
  unfold is_header_line. destruct (is_header (lower (strip l))); simpl; [lia|].
  rewrite <- !Nat.add_succ_comm, <- IH. by destruct (header_scan (S j) ls).
Qed.

Lemma segments_header_scan i ls :
  segments (i + length ls) (header_scan i ls) = header_segments i ls.
Proof.
  revert i. induction ls as [|l ls IH]; intros i; simpl; [done|].
  unfold is_header_line. rewrite <- Nat.add_succ_comm.
  destruct (is_header (lower (strip l))); [|apply IH].
  cbn [segments]. rewrite IH. f_equal. f_equal. f_equal; [lia|].
  apply (first_header_index (S i)).
Qed.

Lemma header_scan_lookup i ls :
  Forall (fun h => exists l, ls !! (h.1 - i) = Some l /\ i <= h.1 /\ h.2 = lower (strip l))
    (header_scan i ls).
Proof.
  revert i. induction ls as [|l ls IH]; intros i; simpl; [done|].
  assert (Forall (fun h => exists l0, (l :: ls) !! (h.1 - i) = Some l0 /\ i <= h.1
                                     /\ h.2 = lower (strip l0)) (header_scan (S i) ls)).
  { eapply Forall_impl; [apply IH|]. intros [j n] (l0 & H1 & H2 & H3). simpl in *.
    exists l0. replace (j - i) with (S (j - S i)) by lia. split; [done|]. split; [lia|done]. }
  destruct (is_header (lower (strip l))); [|done].
  apply Forall_cons. split; [|done]. exists l. simpl. rewrite Nat.sub_diag. done.
Qed.

Lemma header_scan_nil i ls : header_scan i ls = [] <-> existsb is_header_line ls = false.
Proof.
  revert i. induction ls as [|l ls IH]; intros i; simpl; [done|].
  unfold is_header_line at 1. destruct (is_header (lower (strip l))); simpl; [done|].
  apply IH.
Qed.

Lemma before_header_prefix ls : exists tl, ls = before_header ls ++ tl.
Proof.
  induction ls as [|l ls [tl IH]]; simpl; [by exists []|].
  destruct (is_header_line l); [by exists (l :: ls)|].
  exists tl. simpl. by rewrite <- IH.
Qed.

Lemma before_header_free ls : Forall (fun l => is_header_line l = false) (before_header ls).
Proof.
  induction ls as [|l ls IH]; simpl; [done|].
  destruct (is_header_line l) eqn:E; [done|]. by apply Forall_cons.
Qed.

Lemma before_header_lookup ls x l :
  x < length (before_header ls) -> ls !! x = Some l -> is_header_line l = false.
Proof.
  intros Hx Hl. destruct (before_header_prefix ls) as [tl E]. rewrite E in Hl.
  rewrite lookup_app_l in Hl by done.
  pose proof (before_header_free ls) as HF. rewrite Forall_forall in HF.
  apply HF. by apply list_elem_of_lookup_2 in Hl.
Qed.

Lemma take_before_header ls : take (length (before_header ls)) ls = before_header ls.
Proof.
  destruct (before_header_prefix ls) as [tl E]. rewrite E at 2.
  by rewrite take_app_length.
Qed.

Lemma fill_sections_ok lines hs pre todo d :
  hs = pre ++ todo ->
  Forall (fun h => exists l, lines !! h.1 = Some l /\ h.2 = lower (strip l)) todo ->
  fill_sections lines hs (length pre) todo d
  = Ok (fold_left ins (map (with_body lines) (segments (length lines) todo)) d).
Proof.
  revert pre d. induction todo as [|[i n] todo IH]; intros pre d -> HF; simpl; [done|].
  apply Forall_cons in HF as [(l & Hl & Hn) HF]. simpl in Hl, Hn.
  assert (E : (if length pre + 1 <? length (pre ++ (i, n) :: todo)
               then bind (index (pre ++ (i, n) :: todo) (length pre + 1))
                         (fun nxt => Ok nxt.1)
               else Ok (length lines))
              = Ok (match todo with [] => length lines | (j, _) :: _ => j end)).
  { rewrite length_app. simpl. destruct todo as [|[j m] todo].
    - simpl. rewrite (proj2 (Nat.ltb_ge _ _)) by lia. done.
    - simpl. rewrite (proj2 (Nat.ltb_lt _ _)) by lia.
      unfold index. rewrite lookup_app_r by lia.
      replace (length pre + 1 - length pre) with 1 by lia. done. }
  rewrite E. simpl. unfold index. rewrite Hl. simpl.
  replace (S (length pre)) with (length (pre ++ [(i, n)])) by (rewrite length_app; simpl; lia).
  rewrite (IH (pre ++ [(i, n)])); [|by rewrite <- app_assoc|done].
  do 2 f_equal. unfold ins, with_body, body. simpl. by rewrite Hn.
Qed.

(** What [split_sections] returns, in terms of the lines of the text. *)
Lemma split_sections_ok text :
  let lines := splitlines text in
  split_sections text
  = Ok (if existsb is_header_line lines
        then fold_left ins (map (with_body lines) (header_segments 0 lines ++ top_segment lines)) []
        else [(L "main", text)]).
Proof.
  intros lines. unfold split_sections. fold lines.
  destruct (header_scan 0 lines) as [|[j n] hs] eqn:E.
  - apply header_scan_nil in E. by rewrite E.
  - assert (Hex : existsb is_header_line lines = true).
    { destruct (existsb is_header_line lines) eqn:E'; [done|].
      apply (header_scan_nil 0) in E'. congruence. }
    rewrite Hex. rewrite <- E.
    rewrite (fill_sections_ok lines _ [] (header_scan 0 lines) []); [|done|].
    2:{ eapply Forall_impl; [apply header_scan_lookup|]. intros [j' n'] (l & H1 & _ & H2).
        simpl in *. rewrite Nat.sub_0_r in H1. by exists l. }
    pose proof (segments_header_scan 0 lines) as Hseg. simpl in Hseg. rewrite Hseg.
    cbn [bind].
    pose proof (first_header_index 0 lines) as Hj. rewrite E in Hj. simpl in Hj.
    rewrite E. cbn [index lookup list_lookup bind fst].
    rewrite map_app, fold_left_app. unfold top_segment, body. cbn [fst snd].
    rewrite <- Hj.
    by destruct (nonempty (strip (join [LF] (slice lines 0 j)))).
Qed.

Lemma keys_with_body lines items : keys (map (with_body lines) items) = keys items.
Proof. induction items as [|[k r] items IH]; simpl; [done|]. by rewrite IH. Qed.

Lemma keys_app {V : Type} (a b : dict V) : keys (a ++ b) = keys a ++ keys b.
Proof. apply map_app. Qed.

Lemma keys_header_segments i ls k :
  k ∈ keys (header_segments i ls)
  <-> exists l, l ∈ ls /\ is_header_line l = true /\ k = lower (strip l).
Proof.
  revert i. induction ls as [|l ls IH]; intros i; simpl.
  - split; [intros H; by apply elem_of_nil in H|]. intros (l & H & _). by apply elem_of_nil in H.
  - destruct (is_header_line l) eqn:E; simpl; rewrite ?elem_of_cons, IH.
    + split.
      * intros [->|(l0 & H1 & H2 & H3)]; [exists l|exists l0]; rewrite elem_of_cons; auto.
      * intros (l0 & [->|H1]%elem_of_cons & H2 & H3); [by left|right; by exists l0].
    + split.
      * intros (l0 & H1 & H2 & H3). exists l0. rewrite elem_of_cons. auto.
      * intros (l0 & [->|H1]%elem_of_cons & H2 & H3); [congruence|by exists l0].
Qed.

Lemma top_not_header_key i ls : L "top" ∉ keys (header_segments i ls).
Proof.
  rewrite keys_header_segments. intros (l & _ & H & E).
  unfold is_header_line in H. rewrite <- E in H. vm_compute in H. done.
Qed.

Lemma keys_top_segment lines k :
  k ∈ keys (top_segment lines)
  <-> k = L "top" /\ strip (join [LF] (before_header lines)) <> [].
Proof.
  unfold top_segment, body, slice. simpl. rewrite drop_0, Nat.sub_0_r, take_before_header.
  destruct (strip (join [LF] (before_header lines))); simpl.
  - split; [intros H; by apply elem_of_nil in H|]. by intros [_ ?].
  - rewrite list_elem_of_singleton. split; [by intros ->|by intros [-> _]].
Qed.

Lemma top_segment_body lines :
  strip (join [LF] (before_header lines)) <> [] ->
  map (with_body lines) (top_segment lines)
  = [(L "top", strip (join [LF] (before_header lines)))].
Proof.
  unfold top_segment, with_body, body, slice. simpl.
  rewrite drop_0, Nat.sub_0_r, take_before_header.
  destruct (strip (join [LF] (before_header lines))) eqn:E; [done|]. intros _. simpl.
  by rewrite drop_0, Nat.sub_0_r, take_before_header, E.
Qed.

(** C2, as amended: the section segmenter returns either, when some line
    matches a heading pattern, a mapping whose keys are exactly the
    lower-cased, trimmed header lines, plus the key ["top"] when the text
    before the first header is not empty after trimming, and ["top"] then
    holds that text trimmed (the lines before the first header joined by line
    feeds, without its leading and trailing white space); or, when no line
    matches, the mapping with the single entry ["main"] for the entire input
    text, untrimmed. *)
Theorem split_sections_invariant (text : str) :
  let lines := splitlines text in
  let top_text := strip (join [LF] (before_header lines)) in
  (existsb is_header_line lines = false /\ split_sections text = Ok [(L "main", text)])
  \/ (existsb is_header_line lines = true /\
      exists m, split_sections text = Ok m /\ NoDup (keys m) /\
        (forall k, k ∈ keys m <->
           (exists l, l ∈ lines /\ is_header_line l = true /\ k = lower (strip l))
           \/ (k = L "top" /\ top_text <> [])) /\
        (top_text <> [] -> dict_get (L "top") m = Some top_text)).
Proof.
  intros lines top_text. pose proof (split_sections_ok text) as H.
  cbv zeta in H. fold lines in H.
  destruct (existsb is_header_line lines) eqn:E; [right|left; done].
  split; [done|]. eexists. split; [exact H|]. split; [|split].
  - apply NoDup_fold, NoDup_nil_2.
  - intros k. rewrite keys_fold, keys_with_body, keys_app, elem_of_app.
    rewrite keys_header_segments, keys_top_segment. fold top_text.
    split; [intros [[?|?]|H0]; [by left|by right|by apply elem_of_nil in H0]|].
    intros [?|?]; left; [by left|by right].
  - intros Ht. rewrite map_app, fold_left_app, (top_segment_body _ Ht). simpl.
    unfold ins. simpl. by rewrite dict_get_set, str_eqb_refl.
Qed.

(** A text with a line before its only header. *)
Lemma split_sections_invariant_witness :
  let text := join [LF] [L "Jane Doe"; L "Skills"; L "python"] in
  exists m, split_sections text = Ok m /\ dict_get (L "top") m = Some (L "Jane Doe").
Proof.
  intros text.
  destruct (split_sections_invariant text) as [[H _]|(_ & m & Hm & _ & _ & Htop)].
  - vm_compute in H. discriminate H.
  - exists m. split; [exact Hm|]. apply Htop. vm_compute. discriminate.
Defined.

(** C2, as stated, fails: the key ["top"] does not hold the text before the
    first header, but that text without its leading and trailing white
    space. *)
Lemma split_sections_top_is_trimmed :
  let text := L " Jane " ++ [LF; LF] ++ L "Skills" ++ [LF] ++ L "python" in
  let pre_header_text := join [LF] (before_header (splitlines text)) in
  splitlines text = [L " Jane "; []; L "Skills"; L "python"] /\
  pre_header_text = L " Jane " ++ [LF] /\
  strip pre_header_text <> [] /\
  split_sections text = Ok [(L "skills", L "python"); (L "top", L "Jane")] /\
  dict_get (L "top") [(L "skills", L "python"); (L "top", L "Jane")] <> Some pre_header_text.
Proof. vm_compute. repeat split; discriminate. Qed.

(** ** The blocks of the returned segments (claim C5) *)

Lemma lookup_last_app {V : Type} k (a b : list (str * V)) :
  lookup_last k (a ++ b)
  = match lookup_last k b with Some v => Some v | None => lookup_last k a end.
Proof.
  induction a as [|[k0 v0] a IH]; simpl; [by destruct (lookup_last k b)|].
  rewrite IH. by destruct (lookup_last k b).
Qed.

Lemma lookup_last_comm {V : Type} k (a b : list (str * V)) :
  (forall k', k' ∈ keys a -> k' ∉ keys b) ->
  lookup_last k (a ++ b) = lookup_last k (b ++ a).
Proof.
  intros Hd. rewrite !lookup_last_app.
  destruct (lookup_last k a) eqn:Ea, (lookup_last k b) eqn:Eb; try done.
  exfalso. apply (Hd k).
  - destruct (decide (k ∈ keys a)) as [|Hn]; [done|]. apply lookup_last_None in Hn. congruence.
  - destruct (decide (k ∈ keys b)) as [|Hn]; [done|]. apply lookup_last_None in Hn. congruence.
Qed.

Lemma lookup_last_with_body lines k items :
  lookup_last k (map (with_body lines) items) = body lines <$> lookup_last k items.
Proof.
  induction items as [|[k0 r0] items IH]; simpl; [done|].
  rewrite IH. destruct (lookup_last k items); simpl; [done|].
  by destruct (str_eqb k k0).
Qed.

Lemma survivors_sublist {V : Type} (items : list (str * V)) :
  sublist (map snd (survivors items)) (map snd items).
Proof.
  induction items as [|[k v] items IH]; simpl; [constructor|].
  case_bool_decide; simpl; by constructor.
Qed.

Lemma survivors_elem_of {V : Type} (items : list (str * V)) kv :
  kv ∈ survivors items -> kv ∈ items.
Proof.
  induction items as [|[k v] items IH]; simpl; [done|].
  case_bool_decide; rewrite ?elem_of_cons; [by right; apply IH|].
  intros [->|?]; [by left|right; by apply IH].
Qed.

Lemma ordered_mono off off' rs :
  off' <= off -> ordered_from off rs = true -> ordered_from off' rs = true.
Proof.
  destruct rs as [|[a b] rs]; simpl; [done|]. intros Hle H.
  apply andb_prop in H as [H H3]. apply andb_prop in H as [H1 H2].
  apply Nat.leb_le in H1. rewrite H2, H3, (proj2 (Nat.leb_le off' a)); [done|lia].
Qed.

Lemma ordered_sublist rs' rs off :
  sublist rs' rs -> ordered_from off rs = true -> ordered_from off rs' = true.
Proof.
  intros Hs. revert off. induction Hs as [|[a b] l1 l2 Hs IH|[a b] l1 l2 Hs IH]; intros off; simpl.
  - done.
  - intros H. apply andb_prop in H as [H H3]. rewrite H. by apply IH.
  - intros H. apply andb_prop in H as [H H3]. apply andb_prop in H as [H1 H2].
    apply Nat.leb_le in H1, H2. apply IH. apply (ordered_mono b); [lia|done].
Qed.

Lemma ordered_header_segments i ls :
  ordered_from (i + length (before_header ls)) (map snd (header_segments i ls)) = true.
Proof.
  revert i. induction ls as [|l ls IH]; intros i; simpl; [done|].
  destruct (is_header_line l); simpl.
  - pose proof (IH (S i)) as H. simpl in H. rewrite H.
    rewrite (proj2 (Nat.leb_le _ _)) by lia. rewrite (proj2 (Nat.leb_le _ _)) by lia. done.
  - rewrite <- Nat.add_succ_comm. apply IH.
Qed.

Lemma header_segments_free i ls k r idx l :
  (k, r) ∈ header_segments i ls -> r.1 <= idx < r.2 -> ls !! (idx - i) = Some l ->
  is_header_line l = false.
Proof.
  revert i. induction ls as [|l0 ls IH]; intros i; simpl.
  - intros H. by apply elem_of_nil in H.
  - assert (Htl : (k, r) ∈ header_segments (S i) ls -> r.1 <= idx < r.2 ->
              (l0 :: ls) !! (idx - i) = Some l -> is_header_line l = false).
    { intros Hin Hr Hl. apply (IH (S i)); try done.
      assert (S i <= r.1).
      { clear -Hin. revert i Hin. induction ls as [|l1 ls IH]; intros i; simpl.
        - intros H. by apply elem_of_nil in H.
        - destruct (is_header_line l1); rewrite ?elem_of_cons.
          + intros [[= _ ->]|H]; [simpl; lia|]. apply IH in H. lia.
          + intros H. apply IH in H. lia. }
      replace (idx - i) with (S (idx - S i)) in Hl by lia. done. }
    destruct (is_header_line l0); [|done].
    rewrite elem_of_cons. intros [[= -> ->]|Hin]; [|by apply Htl].
    simpl. intros Hr Hl. replace (idx - i) with (S (idx - S i)) in Hl by lia.
    simpl in Hl. apply (before_header_lookup ls (idx - S i)); [lia|done].
Qed.

Lemma ordered_concat_sublist {V : Type} (lines : list V) (rs : list (str * block)) off :
  ordered_from off (map snd rs) = true ->
  sublist (concat (map (fun kr => slice lines kr.2.1 kr.2.2) rs)) (drop off lines).
Proof.
  revert off. induction rs as [|[k [a b]] rs IH]; intros off; simpl.
  - intros _. apply sublist_nil_l.
  - intros H. apply andb_prop in H as [H H3]. apply andb_prop in H as [H1 H2].
    apply Nat.leb_le in H1, H2. specialize (IH b H3).
    rewrite <- (take_drop (a - off) (drop off lines)). rewrite drop_drop.
    replace (off + (a - off)) with a by lia. apply sublist_inserts_l.
    unfold slice. rewrite <- (take_drop (b - a) (drop a lines)) at 2. rewrite drop_drop.
    replace (a + (b - a)) with b by lia. by apply sublist_app.
Qed.

(** C5, as stated, fails: a body is trimmed, so its first line can differ
    from the input line it comes from. *)
Lemma split_sections_lines_not_subsequence :
  let text := join [LF] [L "Skills"; L " python"] in
  exists m, split_sections text = Ok m /\
    m = [(L "skills", L "python")] /\
    splitlines text = [L "Skills"; L " python"] /\
    ~ sublist (concat (map (fun kv => splitlines kv.2) m)) (splitlines text).
Proof.
  eexists. split; [by vm_compute|]. split; [done|]. split; [reflexivity|].
  intros H. apply sublist_subseteq in H.
  assert (Hin : L "python" ∈ splitlines (join [LF] [L "Skills"; L " python"])).
  { apply H. vm_compute. by left. }
  vm_compute in Hin. apply elem_of_cons in Hin as [?|Hin]; [done|].
  apply elem_of_cons in Hin as [?|Hin]; [done|]. by apply elem_of_nil in Hin.
Qed.

(** C5, as amended: when some line is a header, every returned segment body
    is the trimmed join of a block of consecutive input lines; the blocks,
    in document order, do not overlap (no input line is in two of them), hold
    no header line, and together select a subsequence of the input's lines.
    When no line is a header the single body is the entire text. *)
Theorem split_sections_blocks (text : str) :
  let lines := splitlines text in
  (existsb is_header_line lines = false /\ split_sections text = Ok [(L "main", text)])
  \/ exists (m : dict str) (blocks : list (str * block)),
       split_sections text = Ok m /\ NoDup (keys m) /\ NoDup (keys blocks) /\
       (forall k b, (k, b) ∈ m <-> exists r, (k, r) ∈ blocks /\ b = body lines r) /\
       ordered_from 0 (map snd blocks) = true /\
       (forall k r i l, (k, r) ∈ blocks -> r.1 <= i < r.2 -> lines !! i = Some l ->
                        is_header_line l = false) /\
       sublist (concat (map (fun kr => slice lines kr.2.1 kr.2.2) blocks)) lines.
Proof.
  intros lines. pose proof (split_sections_ok text) as H. cbv zeta in H. fold lines in H.
  destruct (existsb is_header_line lines) eqn:E; [right|left; done].
  set (all := top_segment lines ++ header_segments 0 lines).
  assert (Hord : ordered_from 0 (map snd all) = true).
  { unfold all, top_segment. pose proof (ordered_header_segments 0 lines) as Ho.
    destruct (nonempty _); simpl; [done|]. by apply (ordered_mono _ 0) in Ho; [|lia]. }
  assert (Hordb : ordered_from 0 (map snd (survivors all)) = true).
  { eapply ordered_sublist; [apply survivors_sublist|done]. }
  eexists. exists (survivors all). split; [exact H|].
  split; [apply NoDup_fold, NoDup_nil_2|]. split; [apply NoDup_survivors|].
  split; [|split; [done|split]].
  - intros k b. rewrite elem_of_dict_of_items, elem_of_survivors, lookup_last_with_body.
    rewrite lookup_last_comm.
    2:{ intros k' Hk' Ht. apply keys_top_segment in Ht as [-> _].
        by apply top_not_header_key in Hk'. }
    fold all. split.
    + destruct (lookup_last k all) as [r|] eqn:El; [|done]. intros [= <-].
      exists r. by rewrite elem_of_survivors.
    + intros (r & Hr & ->). apply elem_of_survivors in Hr. by rewrite Hr.
  - intros k r i l Hin Hr Hl. apply survivors_elem_of in Hin.
    apply elem_of_app in Hin as [Hin|Hin].
    + unfold top_segment in Hin. destruct (nonempty _); [|by apply elem_of_nil in Hin].
      apply list_elem_of_singleton in Hin as [= -> ->]. simpl in Hr.
      apply (before_header_lookup lines i); [lia|done].
    + apply (header_segments_free 0 lines k r i); try done. by rewrite Nat.sub_0_r.
  - apply (ordered_concat_sublist lines) in Hordb. by rewrite drop_0 in Hordb.
Qed.

(** ** The experience extractor on the boundary example (claim C6) *)

(** C6: on the text ["Engineer, Acme (2020-Present)\n- did X\nIntern, Beta
    (2018-2019)\n- did Y"] the experience extractor returns exactly two
    entries, the first with title_company ["Engineer, Acme (2020-Present)"]
    and details [["- did X"]], the second with title_company ["Intern, Beta
    (2018-2019)"] and details [["- did Y"]]. *)
Theorem parse_experience_boundary :
  exists e1 e2,
    parse_experience boundary_text = [e1; e2] /\
    title_company e1 = L "Engineer, Acme (2020-Present)" /\
    details e1 = [L "- did X"] /\
    title_company e2 = L "Intern, Beta (2018-2019)" /\
    details e2 = [L "- did Y"].
Proof. do 2 eexists. split; [by vm_compute|]. done. Qed.

(** The dates of the two entries. *)
Lemma parse_experience_boundary_tokens :
  map date_tokens (parse_experience boundary_text) = [[L "2020"]; [L "2018"; L "2019"]].
Proof. by vm_compute. Qed.

(** ** The orchestrator never raises (claims C4 and C9) *)

Lemma first_key_elem test ks k : first_key test ks = Some k -> k ∈ ks /\ test k = true.
Proof.
  induction ks as [|k0 ks IH]; simpl; [done|].
  destruct (test k0) eqn:E.
  - intros [= ->]. split; [by left|done].
  - intros H. apply IH in H as [H1 H2]. split; [by right|done].
Qed.

Lemma first_key_None test ks : first_key test ks = None <-> forall k, k ∈ ks -> test k = false.
Proof.
  induction ks as [|k0 ks IH]; simpl.
  - split; [|done]. intros _ k H. by apply elem_of_nil in H.
  - destruct (test k0) eqn:E.
    + split; [done|]. intros H. rewrite H in E; [done|by left].
    + rewrite IH. split.
      * intros H k [->|Hk]%elem_of_cons; [done|by apply H].
      * intros H k Hk. apply H. by right.
Qed.

Lemma section_for_ok test sections : section_for test sections = Ok (selected test sections).
Proof.
  unfold section_for, selected. destruct (first_key test (keys sections)) as [k|] eqn:E; [|done].
  apply first_key_elem in E as [E _]. unfold dict_item.
  destruct (dict_get k sections) eqn:G; [done|]. by apply dict_get_None in G.
Qed.

Lemma split_sections_total text : exists m, split_sections text = Ok m /\ NoDup (keys m).
Proof.
  rewrite split_sections_ok. eexists. split; [done|].
  destruct (existsb _ _); [apply NoDup_fold, NoDup_nil_2|]. apply NoDup_singleton.
Qed.

Lemma education_line_total line : exists es, education_line line = Ok es.
Proof.
  unfold education_line. destruct (existsb _ EDU_KEYWORDS); [|by eexists].
  destruct (re_search YEAR_RE line) as [m|]; simpl.
  - destruct (map strip _) as [|a [|b parts]]; simpl; by eexists.
  - destruct (map strip _) as [|a [|b parts]]; simpl; by eexists.
Qed.

Lemma education_loop_total lines results : exists es, education_loop lines results = Ok es.
Proof.
  revert results. induction lines as [|l lines IH]; intros results; simpl; [by eexists|].
  destruct (education_line_total l) as [es ->]. simpl. apply IH.
Qed.

Lemma extract_education_total section_text : exists es, extract_education section_text = Ok es.
Proof. apply education_loop_total. Qed.

(** What the orchestrator returns, field by field. *)
Lemma parse_resume_from_text_ok nlp text :
  exists r sections,
    parse_resume_from_text nlp text = Ok r /\
    split_sections (clean_text text) = Ok sections /\
    NoDup (keys sections) /\
    raw_sections r = sections /\
    contact r = extract_contact (clean_text text) /\
    skills r = extract_skills nlp
                 (if nonempty (selected (contains (L "skill")) sections)
                  then selected (contains (L "skill")) sections else clean_text text) None /\
    (if nonempty (selected (contains (L "educat")) sections)
     then extract_education (selected (contains (L "educat")) sections) = Ok (education r)
     else education r = []) /\
    experience r = (if nonempty (selected (contains (L "experi")) sections)
                    then parse_experience (selected (contains (L "experi")) sections) else []) /\
    let s := selected (fun k => contains (L "summary") k || contains (L "objective") k) sections in
    summary r = if negb (nonempty s) && dict_has (L "top") sections
                then join [LF] (slice (splitlines (default [] (dict_get (L "top") sections))) 0 3)
                else s.
Proof.
  unfold parse_resume_from_text, select_skills_text.
  destruct (split_sections_total (clean_text text)) as (m & Hm & Hnd).
  rewrite Hm. cbn [bind]. rewrite !section_for_ok. cbn [bind].
  set (edu := selected (contains (L "educat")) m).
  set (s := selected (fun k => contains (L "summary") k || contains (L "objective") k) m).
  assert (Hedu : exists es, (if nonempty edu then extract_education edu else Ok []) = Ok es
                            /\ if nonempty edu then extract_education edu = Ok es else es = []).
  { destruct (nonempty edu); [|by eexists].
    destruct (extract_education_total edu) as [es He]. by exists es. }
  destruct Hedu as (es & -> & Hes). cbn [bind].
  assert (Hsum : exists t,
            (if negb (nonempty s) && dict_has (L "top") m
             then bind (dict_item m (L "top"))
                       (fun top => Ok (join [LF] (slice (splitlines top) 0 3)))
             else Ok s) = Ok t
            /\ t = if negb (nonempty s) && dict_has (L "top") m
                   then join [LF] (slice (splitlines (default [] (dict_get (L "top") m))) 0 3)
                   else s).
  { unfold dict_has, dict_item. destruct (dict_get (L "top") m); simpl.
    - destruct (negb (nonempty s)); simpl; by eexists.
    - rewrite andb_false_r. by eexists. }
  destruct Hsum as (t & -> & Ht). cbn [bind].
  eexists. exists m. split; [done|]. simpl. repeat split; try done.
Qed.

(** C9: for every input text, parse-from-text returns a ParsedResume and
    does not raise; a section that is missing or empty gives the empty
    sequence (education, experience) or the empty text (summary). *)
Theorem parse_resume_from_text_total
    (nlp : option (list str -> str -> list str)) (text : str) :
  exists r,
    parse_resume_from_text nlp text = Ok r /\
    (first_key (contains (L "educat")) (keys (raw_sections r)) = None -> education r = []) /\
    (first_key (contains (L "experi")) (keys (raw_sections r)) = None -> experience r = []) /\
    (selected (contains (L "educat")) (raw_sections r) = [] -> education r = []) /\
    (selected (contains (L "experi")) (raw_sections r) = [] -> experience r = []) /\
    (first_key (fun k => contains (L "summary") k || contains (L "objective") k)
       (keys (raw_sections r)) = None ->
     dict_has (L "top") (raw_sections r) = false -> summary r = []).
Proof.
  destruct (parse_resume_from_text_ok nlp text)
    as (r & m & Hr & _ & _ & Hm & _ & _ & Hedu & Hexp & Hsum).
  exists r. split; [done|]. rewrite Hm.
  assert (E1 : selected (contains (L "educat")) m = [] -> education r = []).
  { intros E. by rewrite E in Hedu. }
  assert (E2 : selected (contains (L "experi")) m = [] -> experience r = []).
  { intros E. by rewrite E in Hexp. }
  repeat split; try done.
  - intros E. apply E1. unfold selected. by rewrite E.
  - intros E. apply E2. unfold selected. by rewrite E.
  - intros E Htop. cbv zeta in Hsum. rewrite Hsum, Htop, andb_false_r.
    unfold selected. by rewrite E.
Qed.

(** A text without any header. *)
Lemma parse_resume_from_text_total_witness :
  exists r, parse_resume_from_text None (L "hello world") = Ok r /\
            education r = [] /\ experience r = [] /\ summary r = [].
Proof.
  destruct (parse_resume_from_text_total None (L "hello world"))
    as (r & Hr & Hedu & Hexp & _ & _ & Hsum).
  exists r. split; [exact Hr|].
  assert (E : raw_sections r = [(L "main", L "hello world")]).
  { vm_compute in Hr. by injection Hr as <-. }
  rewrite E in Hedu, Hexp, Hsum.
  split; [by apply Hedu|]. split; [by apply Hexp|]. by apply Hsum.
Defined.

(** C4, as stated, fails: a skills section with an empty body makes the
    orchestrator fall back on the whole text although a key contains
    ["skill"]. *)
Lemma skills_text_empty_section_falls_back :
  let text := join [LF] [L "Skills"; L "Education"; L "python"] in
  let sections := [(L "skills", []); (L "education", L "python")] in
  clean_text text = text /\
  split_sections text = Ok sections /\
  first_key (contains (L "skill")) (keys sections) = Some (L "skills") /\
  dict_get (L "skills") sections = Some [] /\
  select_skills_text sections text = Ok text /\
  text <> [] /\
  (skills <$> (match parse_resume_from_text None text with Ok r => Some r | Raise _ => None end))
    = Some [L "python"] /\
  extract_skills None [] None = [].
Proof. vm_compute. repeat split; done. Qed.

(** C4, as amended: the skill extractor is given the text of the first
    inserted section whose key contains ["skill"] when that text is not
    empty, and the whole normalized text when no key contains ["skill"] or
    when the text of that first section is empty. *)
Theorem skills_text_selection
    (nlp : option (list str -> str -> list str)) (text : str) :
  exists r sections,
    parse_resume_from_text nlp text = Ok r /\
    split_sections (clean_text text) = Ok sections /\
    skills r =
      extract_skills nlp
        (match first_key (contains (L "skill")) (keys sections) with
         | Some k =>
             match dict_get k sections with
             | Some section_text =>
                 if nonempty section_text then section_text else clean_text text
             | None => clean_text text
             end
         | None => clean_text text
         end) None /\
    (forall k, first_key (contains (L "skill")) (keys sections) = Some k ->
               exists section_text, dict_get k sections = Some section_text).
Proof.
  destruct (parse_resume_from_text_ok nlp text)
    as (r & m & Hr & Hs & _ & _ & _ & Hsk & _).
  exists r, m. split; [done|]. split; [done|]. split.
  - rewrite Hsk. unfold selected.
    destruct (first_key (contains (L "skill")) (keys m)) as [k|]; [|done].
    by destruct (dict_get k m).
  - intros k Hk. apply first_key_elem in Hk as [Hk _].
    destruct (dict_get k m) eqn:G; [by eexists|]. by apply dict_get_None in G.
Qed.

(** ** JSON export and re-parsing (claim C3) *)

(** Induction on Python values. *)
Lemma pyval_ind' (P : pyval -> Prop) :
  (forall s, P (PStr s)) ->
  (forall l, Forall P l -> P (PList l)) ->
  (forall l, Forall P l -> P (PTuple l)) ->
  (forall d, Forall (fun kv => P kv.2) d -> P (PDict d)) ->
  forall v, P v.
Proof.
  intros HS HL HT HD. fix IH 1. intros [s|l|l|d].
  - apply HS.
  - apply HL. induction l as [|x l IHl]; constructor; [apply IH|apply IHl].
  - apply HT. induction l as [|x l IHl]; constructor; [apply IH|apply IHl].
  - apply HD. induction d as [|[k x] d IHd]; constructor; [apply IH|apply IHd].
Qed.

Lemma dict_set_fresh {V : Type} k (v : V) d : k ∉ keys d -> dict_set k v d = d ++ [(k, v)].
Proof.
  induction d as [|[k0 v0] d IH]; simpl; [done|].
  rewrite not_elem_of_cons. intros [H1 H2]. rewrite str_eqb_neq by done.
  by rewrite IH.
Qed.

Lemma fold_ins_NoDup {V : Type} (items d : list (str * V)) :
  NoDup (keys (d ++ items)) -> fold_left ins items d = d ++ items.
Proof.
  revert d. induction items as [|[k v] items IH]; intros d H; simpl.
  - by rewrite app_nil_r.
  - unfold ins at 2. simpl. rewrite dict_set_fresh.
    + rewrite IH; rewrite <- app_assoc; done.
    + rewrite keys_app in H. simpl in H. apply NoDup_app in H as (_ & H & _).
      intros Hk. apply (H k Hk). by left.
Qed.

Lemma dict_of_items_NoDup {V : Type} (items : list (str * V)) :
  NoDup (keys items) -> dict_of_items items = items.
Proof. intros H. by apply (fold_ins_NoDup items []). Qed.

Lemma keys_map_values {V W : Type} (f : V -> W) (d : list (str * V)) :
  keys (map (fun '(k, x) => (k, f x)) d) = keys d.
Proof. induction d as [|[k x] d IH]; simpl; [done|]. by rewrite IH. Qed.

(** Re-parsing the exported document gives the value back with its tuples
    turned into lists. *)
Lemma json_loads_dumps v : py_wf v -> json_loads (json_dumps v) = tuples_to_lists v.
Proof.
  induction v as [s|l IH|l IH|d IH] using pyval_ind'; intros Hwf; simpl.
  - done.
  - inversion Hwf as [|l' Hl| |]; subst. f_equal. rewrite map_map.
    induction l as [|x l IHl]; simpl; [done|].
    apply Forall_cons in IH as [IHx IH]. apply Forall_cons in Hl as [Hx Hl].
    rewrite IHx by done. f_equal. apply IHl; [done|by constructor|done].
  - inversion Hwf as [| |l' Hl|]; subst. f_equal. rewrite map_map.
    induction l as [|x l IHl]; simpl; [done|].
    apply Forall_cons in IH as [IHx IH]. apply Forall_cons in Hl as [Hx Hl].
    rewrite IHx by done. f_equal. apply IHl; [done|by constructor|done].
  - inversion Hwf as [| | |d' Hnd Hd]; subst. f_equal.
    assert (E : map (fun '(k, x) => (k, json_loads x)) (map (fun '(k, x) => (k, json_dumps x)) d)
                = map (fun '(k, x) => (k, tuples_to_lists x)) d).
    { clear Hnd Hwf. induction d as [|[k x] d IHd]; simpl; [done|].
      apply Forall_cons in IH as [IHx IH]. apply Forall_cons in Hd as [Hx Hd].
      simpl in IHx, Hx. rewrite IHx by done. f_equal. by apply IHd. }
    rewrite E. apply dict_of_items_NoDup. by rewrite keys_map_values.
Qed.

Lemma py_strs_wf l : py_wf (py_strs l).
Proof. constructor. induction l; constructor; [constructor|done]. Qed.

Lemma py_parsed_wf r : NoDup (keys (raw_sections r)) -> py_wf (py_parsed r).
Proof.
  intros Hnd.
  assert (Hk : forall ks : list str, bool_decide (NoDup ks) = true -> NoDup ks).
  { intros ks. apply bool_decide_eq_true_1. }
  constructor; [by apply Hk; vm_compute|].
  repeat (apply Forall_cons; split); simpl; try apply Forall_nil_2.
  - constructor; [by apply Hk; vm_compute|].
    repeat (apply Forall_cons; split); simpl; try apply Forall_nil_2; apply py_strs_wf.
  - constructor.
  - apply py_strs_wf.
  - constructor. induction (education r) as [|e es IH]; simpl; constructor; [|done].
    constructor; [by apply Hk; vm_compute|].
    repeat (apply Forall_cons; split); simpl; try apply Forall_nil_2; constructor.
  - constructor. induction (experience r) as [|e es IH]; simpl; constructor; [|done].
    constructor; [by apply Hk; vm_compute|].
    repeat (apply Forall_cons; split); simpl; try apply Forall_nil_2; try apply py_strs_wf.
    + constructor.
    + constructor. induction (dates e) as [|t ts IHt]; simpl; constructor; [|done].
      constructor. induction t; constructor; [constructor|done].
  - constructor.
    + unfold py_sections. clear -Hnd. induction (raw_sections r) as [|[k x] d IH]; [done|].
      simpl in *. apply NoDup_cons in Hnd as [H1 H2]. apply NoDup_cons. split; [|by apply IH].
      clear -H1. induction d as [|[k' x'] d IH]; simpl in *; [done|].
      rewrite not_elem_of_cons in *. destruct H1. split; [done|by apply IH].
    + unfold py_sections. clear Hnd.
      induction (raw_sections r) as [|[k x] d IH]; simpl; [constructor|].
      constructor; [constructor|done].
Qed.

Lemma tuples_to_lists_strs l : tuples_to_lists (py_strs l) = py_strs l.
Proof. unfold py_strs. simpl. f_equal. rewrite map_map. by apply map_ext. Qed.

Lemma tuples_to_lists_parsed r : tuples_to_lists (py_parsed r) = py_parsed_reloaded r.
Proof.
  unfold py_parsed, py_parsed_reloaded. cbn [tuples_to_lists map].
  change (tuples_to_lists (py_contact (contact r)))
    with (PDict [ (L "emails", tuples_to_lists (py_strs (emails (contact r))));
                  (L "phones", tuples_to_lists (py_strs (phones (contact r))));
                  (L "linkedin", tuples_to_lists (py_strs (linkedin (contact r)))) ]).
  rewrite !tuples_to_lists_strs. do 5 f_equal.
  - f_equal. f_equal. rewrite map_map. apply map_ext. intros e. simpl. done.
  - f_equal.
    + f_equal. f_equal. rewrite map_map. apply map_ext. intros e.
      unfold py_experience, py_experience_reloaded. cbn [tuples_to_lists map].
      rewrite !tuples_to_lists_strs. do 3 f_equal. f_equal.
      unfold py_dates, py_dates_reloaded. cbn [tuples_to_lists]. f_equal.
      rewrite map_map. apply map_ext. intros t. cbn [tuples_to_lists]. f_equal.
      rewrite map_map. by apply map_ext.
    + f_equal. f_equal. unfold py_sections. cbn [tuples_to_lists]. f_equal.
      rewrite map_map. apply map_ext. by intros [k x].
Qed.

Lemma py_experience_reloaded_same e :
  py_experience_reloaded e = py_experience e <-> dates e = [].
Proof.
  unfold py_experience_reloaded, py_experience, py_dates_reloaded, py_dates. split.
  - intros [= H]. by destruct (dates e).
  - by intros ->.
Qed.

(** C3, as stated, fails: [findall] puts tuples into [dates], the export
    writes them as arrays, and re-parsing gives lists, which are not equal to
    tuples. *)
Lemma json_round_trip_changes_dates :
  let text := join [LF] [L "Experience"; L "Engineer, Acme (2020)"] in
  exists r,
    parse_resume_from_text None text = Ok r /\
    map dates (experience r)
      = [[ [[]; []; []; []; []; []; []; []; []; []; []; []; []; L "2020"; L "20"] ]] /\
    json_loads (to_json (py_parsed r)) <> py_parsed r /\
    py_eqb (json_loads (to_json (py_parsed r))) (py_parsed r) = false.
Proof.
  eexists. split; [by vm_compute|]. split; [by vm_compute|]. split.
  - intros H. vm_compute in H. discriminate H.
  - by vm_compute.
Qed.

(** C3, as amended: for every ParsedResume that parse-from-text produces,
    exporting it to JSON and parsing the document back gives a structure
    equal to the original field for field, except that each element of an
    experience entry's [dates], a tuple in the original, comes back as the
    list of the same texts; the two structures are equal exactly when every
    experience entry has empty [dates]. *)
Theorem json_round_trip (nlp : option (list str -> str -> list str)) (text : str) :
  exists r,
    parse_resume_from_text nlp text = Ok r /\
    json_loads (to_json (py_parsed r)) = py_parsed_reloaded r /\
    (json_loads (to_json (py_parsed r)) = py_parsed r
     <-> Forall (fun e => dates e = []) (experience r)).
Proof.
  destruct (parse_resume_from_text_ok nlp text) as (r & m & Hr & _ & Hnd & Hm & _).
  exists r. split; [done|].
  assert (E : json_loads (to_json (py_parsed r)) = py_parsed_reloaded r).
  { unfold to_json. rewrite json_loads_dumps by (apply py_parsed_wf; by rewrite Hm).
    apply tuples_to_lists_parsed. }
  split; [done|]. rewrite E. unfold py_parsed_reloaded, py_parsed. split.
  - intros [= H]. induction (experience r) as [|e es IH]; [done|].
    simpl in H. injection H as He H. constructor; [|by apply IH].
    by destruct (dates e).
  - intros H.
    assert (Hmap : map py_experience_reloaded (experience r) = map py_experience (experience r)).
    { induction H as [|e es He H IH]; [done|].
      simpl. rewrite IH. f_equal. by apply py_experience_reloaded_same. }
    by rewrite Hmap.
Qed.

(** A text without an experience section comes back as it was. *)
Lemma json_round_trip_witness :
  let text := join [LF] [L "Skills"; L "python"] in
  exists r, parse_resume_from_text None text = Ok r /\
            json_loads (to_json (py_parsed r)) = py_parsed r.
Proof.
  intros text. destruct (json_round_trip None text) as (r & Hr & _ & Hiff).
  exists r. split; [exact Hr|]. apply Hiff.
  vm_compute in Hr. injection Hr as <-. constructor.
Defined.

(** ** Literal patterns *)

Lemma starts_with_length k s : starts_with k s = true -> length k <= length s.
Proof.
  revert s. induction k as [|a k IH]; intros [|c s]; simpl; try done; [lia|].
  intros [_ H]%andb_prop. apply IH in H. lia.
Qed.

Lemma rmatch_lit k prev s caps kont :
  (forall p p' t c, kont p t c = kont p' t c) ->
  rmatch (lit k) prev s caps kont
  = if starts_with k s then kont None (drop (length k) s) caps else None.
Proof.
  intros Hk. revert prev s. induction k as [|a k IH]; intros prev s.
  - simpl. apply Hk.
  - assert (E : rmatch (lit (a :: k)) prev s caps kont
              = rmatch (Seq (Chr (is_char a)) (lit k)) prev s caps kont).
    { destruct k; [|done]. simpl. destruct s as [|c s]; [done|].
      by destruct (is_char a c). }
    rewrite E. cbn [rmatch]. destruct s as [|c s]; [done|].
    cbn [starts_with]. unfold is_char. destruct (Ascii.eqb a c); [|done].
    simpl. apply IH.
Qed.

Lemma match_at_lit k prev s :
  match_at (lit k) prev s
  = if starts_with k s then Some {| m_text := take (length k) s; m_caps := [] |} else None.
Proof.
  unfold match_at. rewrite rmatch_lit by done.
  destruct (starts_with k s) eqn:E; [|done]. apply starts_with_length in E.
  rewrite length_drop. do 2 f_equal. f_equal. lia.
Qed.

Lemma search_lit k s : found (re_search (lit k) s) = contains k s.
Proof.
  unfold re_search. generalize (@None ascii) as prev.
  induction s as [|c s IH]; intros prev; simpl; rewrite match_at_lit.
  - destruct (starts_with k []); [done|]. done.
  - destruct (starts_with k (c :: s)); [done|]. simpl. apply IH.
Qed.

(** ** The year pattern and the split at commas and hyphens *)

Lemma rep_prev p lo hi prev prev' s k :
  (forall q q' t, k q t = k q' t) -> rep p lo hi prev s k = rep p lo hi prev' s k.
Proof.
  intros Hk. revert lo hi prev prev'. induction s as [|c s IH]; intros lo hi prev prev'; simpl.
  - destruct lo; [apply Hk|done].
  - destruct (p c && negb (bool_decide (hi = Some 0))).
    + destruct (rep p (pred lo) (pred <$> hi) (Some c) s k); [done|].
      destruct lo; [apply Hk|done].
    + destruct lo; [apply Hk|done].
Qed.

Lemma rep_zero {p prev s k} : rep p 0 (Some 0) prev s k = k prev s.
Proof. destruct s as [|c s]; simpl; [done|]. by rewrite andb_false_r. Qed.

Lemma match_at_year prev s : m_text <$> match_at YEAR_RE prev s = year_at s.
Proof.
  unfold match_at, YEAR_RE, year_at, times. cbn [rmatch].
  rewrite !rmatch_lit by (intros; by apply rep_prev).
  destruct s as [|a [|b [|c [|d s]]]].
  - done.
  - by destruct (starts_with (L "19") [a]), (starts_with (L "20") [a]).
  - by destruct (starts_with (L "19") [a; b]), (starts_with (L "20") [a; b]).
  - destruct (starts_with (L "19") [a; b; c]), (starts_with (L "20") [a; b; c]);
      simpl; rewrite ?andb_false_r; try done; by destruct (is_digit c).
  - assert (E : S (S (S (S (length s)))) - length s = 4) by lia.
    destruct (starts_with (L "19") (a :: b :: c :: d :: s)),
             (starts_with (L "20") (a :: b :: c :: d :: s));
      simpl; destruct (is_digit c), (is_digit d); simpl; rewrite ?rep_zero, ?E; done.
Qed.

Lemma search_year prev s :
  default [] (m_text <$> search_from YEAR_RE prev s) = first_year s
  /\ (found (search_from YEAR_RE prev s) = false -> first_year s = []).
Proof.
  revert prev. induction s as [|c s IH]; intros prev.
  - by vm_compute.
  - cbn [search_from first_year]. pose proof (match_at_year prev (c :: s)) as E.
    destruct (match_at YEAR_RE prev (c :: s)) as [m|]; simpl in E; rewrite <- E.
    + done.
    + apply IH.
Qed.

Lemma split_comma_hyphen prev s :
  split_scan COMMA_HYPHEN_RE prev 0 s = split_on is_comma_or_hyphen s.
Proof.
  revert prev. induction s as [|c s IH]; intros prev; [done|].
  cbn [split_scan split_on]. unfold match_at, COMMA_HYPHEN_RE, is_comma_or_hyphen.
  cbn [rmatch]. fold COMMA_HYPHEN_RE. fold is_comma_or_hyphen.
  assert (E : length (c :: s) - length s = 1) by (simpl; lia).
  destruct (ch "," c); cbn [orb m_text]; [rewrite E; simpl; by rewrite IH|].
  destruct (ch "-" c); cbn [orb m_text]; [rewrite E; simpl|]; by rewrite IH.
Qed.

(** ** The education extractor (claim C8) *)

Lemma degree_keyword_search line :
  existsb (fun k => found (re_search k (lower line))) EDU_KEYWORDS = has_degree_keyword line.
Proof.
  unfold has_degree_keyword.
  change EDU_KEYWORDS with (map lit DEGREE_KEYWORDS).
  induction DEGREE_KEYWORDS as [|k ks IH]; [done|].
  simpl. by rewrite search_lit, IH.
Qed.

Lemma year_of_search line :
  (if found (re_search YEAR_RE line) then group0 (re_search YEAR_RE line) else Ok [])
  = Ok (first_year line).
Proof.
  unfold re_search. destruct (search_year None line) as [H1 H2].
  destruct (search_from YEAR_RE None line) as [m|]; simpl in *.
  - by rewrite H1.
  - by rewrite H2.
Qed.

Lemma nonempty_true {A : Type} (l : list A) : nonempty l = true <-> l <> [].
Proof. by destruct l. Qed.

Lemma parts_of_split line :
  map strip (filter (fun p => nonempty (strip p) = true) (re_split COMMA_HYPHEN_RE line))
  = parts_of line.
Proof.
  unfold parts_of, re_split. rewrite split_comma_hyphen.
  induction (split_on is_comma_or_hyphen line) as [|p ps IH]; [done|].
  simpl. destruct (strip p) eqn:E.
  - rewrite filter_cons_False by (rewrite E; simpl; done).
    rewrite filter_cons_False by (intros H; by apply H). apply IH.
  - rewrite filter_cons_True by (by rewrite E).
    rewrite filter_cons_True by done. simpl. by rewrite E, IH.
Qed.

Lemma solid_lower c : solid (lower_char c) = true -> solid c = true.
Proof.
  destruct c as [b0 b1 b2 b3 b4 b5 b6 b7].
  destruct b0, b1, b2, b3, b4, b5, b6, b7; vm_compute; exact (fun H => H).
Qed.

Lemma contains_head a k s : contains (a :: k) s = true -> a ∈ s.
Proof.
  induction s as [|c s IH]; simpl; [done|].
  intros [H|H]%orb_prop.
  - apply andb_prop in H as [H _]. apply Ascii.eqb_eq in H as ->. by left.
  - right. by apply IH.
Qed.

Lemma split_on_piece p c s :
  c ∈ s -> p c = false -> exists piece, piece ∈ split_on p s /\ c ∈ piece.
Proof.
  intros Hin Hc. induction s as [|x s IH]; [by apply elem_of_nil in Hin|].
  simpl. apply elem_of_cons in Hin as [->|Hin].
  - rewrite Hc. destruct (split_on p s) as [|q qs]; simpl.
    + exists [x]. split; by left.
    + exists (x :: q). split; by left.
  - destruct (IH Hin) as (piece & H1 & H2). destruct (p x).
    + exists piece. split; [by right|done].
    + destruct (split_on p s) as [|q qs]; [by apply elem_of_nil in H1|]. simpl.
      apply elem_of_cons in H1 as [->|H1].
      * exists (x :: q). split; [by left|by right].
      * exists piece. split; [by right|done].
Qed.

Lemma lstrip_keeps c s : c ∈ s -> is_space c = false -> c ∈ lstrip s.
Proof.
  intros Hin Hc. induction s as [|x s IH]; [done|]. simpl.
  destruct (is_space x) eqn:E; [|done].
  apply elem_of_cons in Hin as [->|Hin]; [congruence|by apply IH].
Qed.

Lemma strip_keeps c s : c ∈ s -> is_space c = false -> c ∈ strip s.
Proof.
  intros Hin Hc. unfold strip, rstrip.
  rewrite list_elem_of_In, <- in_rev, <- list_elem_of_In. apply lstrip_keeps; [|done].
  rewrite list_elem_of_In, <- in_rev, <- list_elem_of_In. by apply lstrip_keeps.
Qed.

Lemma degree_keyword_parts line : has_degree_keyword line = true -> parts_of line <> [].
Proof.
  unfold has_degree_keyword. intros H. apply existsb_exists in H as (k & Hk & Hc).
  assert (Hs : forallb (fun k => match k with a :: _ => solid a | [] => false end)
                       DEGREE_KEYWORDS = true) by (by vm_compute).
  rewrite forallb_forall in Hs. specialize (Hs k Hk).
  destruct k as [|a k]; [done|]. apply contains_head in Hc.
  unfold lower in Hc. apply list_elem_of_In, in_map_iff in Hc as (c & <- & Hc).
  apply list_elem_of_In in Hc. apply solid_lower in Hs.
  unfold solid in Hs. apply andb_prop in Hs as [Hs1 Hs2].
  apply negb_true_iff in Hs1, Hs2.
  destruct (split_on_piece is_comma_or_hyphen c line Hc Hs1) as (piece & Hp & Hcp).
  assert (Hin : strip piece ∈ parts_of line).
  { unfold parts_of. apply list_elem_of_filter. split.
    - intros E. pose proof (strip_keeps c piece Hcp Hs2) as Hx. rewrite E in Hx.
      by apply elem_of_nil in Hx.
    - apply list_elem_of_In, in_map, list_elem_of_In. done. }
  intros E. rewrite E in Hin. by apply elem_of_nil in Hin.
Qed.

Lemma education_line_spec line :
  education_line line = Ok (if has_degree_keyword line then [education_entry line] else []).
Proof.
  unfold education_line. rewrite degree_keyword_search.
  destruct (has_degree_keyword line) eqn:E; [|done].
  rewrite year_of_search. cbn [bind]. rewrite parts_of_split.
  apply degree_keyword_parts in E. unfold education_entry.
  destruct (parts_of line) as [|a [|b ps]]; [done|done|done].
Qed.

Lemma education_loop_spec lines results :
  education_loop lines results
  = Ok (results ++ map education_entry (filter (fun line => has_degree_keyword line = true) lines)).
Proof.
  revert results. induction lines as [|l lines IH]; intros results; simpl.
  - by rewrite app_nil_r.
  - rewrite education_line_spec. cbn [bind]. rewrite IH.
    destruct (has_degree_keyword l) eqn:E.
    + rewrite filter_cons_True by done. simpl. by rewrite <- app_assoc.
    + rewrite filter_cons_False by (by rewrite E). by rewrite app_nil_r.
Qed.

(** C8: the education extractor returns one entry for every line with a
    degree keyword, in document order; its degree is the first trimmed
    non-empty comma- or hyphen-separated part of the line (there is one), its
    institution the second such part if there is one and the empty text
    otherwise, and its year the first four characters that read 19 or 20
    followed by two digits, if any.  On the line ["Bachelor of Science,
    University X, 2019"] that is degree ["Bachelor of Science"],
    institution ["University X"] and year ["2019"]. *)
Theorem extract_education_spec (section_text : str) :
  extract_education section_text = Ok (education_entries section_text) /\
  (forall line, has_degree_keyword line = true ->
     exists part rest, parts_of line = part :: rest /\
       degree (education_entry line) = part /\
       institution (education_entry line) = match rest with p :: _ => p | [] => [] end /\
       year (education_entry line) = first_year line) /\
  (let line := L "Bachelor of Science, University X, 2019" in
   extract_education line
   = Ok [ {| degree := L "Bachelor of Science"; institution := L "University X";
             year := L "2019"; raw := line |} ] /\
   (line ∈ splitlines section_text ->
    {| degree := L "Bachelor of Science"; institution := L "University X";
       year := L "2019"; raw := line |} ∈ education_entries section_text)).
Proof.
  split; [|split].
  - unfold extract_education. by rewrite education_loop_spec.
  - intros line H. apply degree_keyword_parts in H. unfold education_entry. simpl.
    destruct (parts_of line) as [|part rest]; [done|]. exists part, rest.
    by destruct rest.
  - split; [by vm_compute|]. intros H. unfold education_entries.
    apply list_elem_of_In, in_map_iff.
    exists (L "Bachelor of Science, University X, 2019"). split; [by vm_compute|].
    apply list_elem_of_In, list_elem_of_filter. split; [by vm_compute|done].
Qed.

(** A line cut at a hyphen and at a comma. *)
Lemma extract_education_spec_witness :
  let line := L "MBA - Harvard, 2001" in
  has_degree_keyword line = true /\
  degree (education_entry line) = L "MBA" /\
  institution (education_entry line) = L "Harvard" /\
  year (education_entry line) = L "2001".
Proof.
  intros line. split; [reflexivity|].
  destruct (proj1 (proj2 (extract_education_spec [])) line eq_refl)
    as (part & rest & Hp & Hd & Hi & Hy).
  vm_compute in Hp. injection Hp as <- <-. rewrite Hd, Hi, Hy. by vm_compute.
Defined.

(** ** Soundness of the matcher *)

Lemma rep_sound p lo hi prev s k res :
  rep p lo hi prev s k = Some res ->
  exists w s' prev',
    s = w ++ s' /\ forallb p w = true /\ lo <= length w /\
    (forall h, hi = Some h -> length w <= h) /\ k prev' s' = Some res.
Proof.
  revert lo hi prev. induction s as [|c s IH]; intros lo hi prev; simpl.
  - destruct lo; [|done]. intros H. exists [], [], prev. repeat split; try done.
    intros h _. simpl. lia.
  - assert (Hstop : match lo with 0 => k prev (c :: s) | S _ => None end = Some res ->
                    exists w s' prev', c :: s = w ++ s' /\ forallb p w = true /\ lo <= length w /\
                      (forall h, hi = Some h -> length w <= h) /\ k prev' s' = Some res).
    { destruct lo; [|done]. intros H. exists [], (c :: s), prev. repeat split; try done.
      intros h _. simpl. lia. }
    destruct (p c) eqn:Hc; simpl; [|done].
    case_bool_decide as Hhi; simpl; [done|].
    destruct (rep p (pred lo) (pred <$> hi) (Some c) s k) as [x|] eqn:E; [|done].
    intros [= ->]. apply IH in E as (w & s' & prev' & -> & Hw & Hlo & Hh & Hk).
    exists (c :: w), s', prev'. simpl. rewrite Hc, Hw. repeat split; try done; [lia|].
    intros h ->. simpl in Hh. specialize (Hh (pred h) eq_refl).
    destruct h; [done|]. simpl in Hh. lia.
Qed.

Lemma rmatch_sound r prev s caps k res :
  rmatch r prev s caps k = Some res ->
  exists w s' prev' caps', s = w ++ s' /\ lang r w /\ k prev' s' caps' = Some res.
Proof.
  revert prev s caps k. induction r as [|p|p lo hi|r1 IH1 r2 IH2|r1 IH1 r2 IH2|i r0 IH|];
    intros prev s caps k; simpl.
  - intros H. by exists [], s, prev, caps.
  - destruct s as [|c s]; [done|]. destruct (p c) eqn:Hc; [|done].
    intros H. exists [c], s, (Some c), caps. split; [done|]. split; [by exists c|done].
  - intros H. apply rep_sound in H as (w & s' & prev' & -> & Hw & Hlo & Hh & Hk).
    by exists w, s', prev', caps.
  - intros H. apply IH1 in H as (w1 & s1 & prev1 & caps1 & -> & H1 & H).
    apply IH2 in H as (w2 & s2 & prev2 & caps2 & -> & H2 & H).
    exists (w1 ++ w2), s2, prev2, caps2. rewrite <- app_assoc. split; [done|].
    split; [by exists w1, w2|done].
  - destruct (rmatch r1 prev s caps k) as [x|] eqn:E.
    + intros [= ->]. apply IH1 in E as (w & s' & prev' & caps' & -> & H1 & H).
      exists w, s', prev', caps'. split; [done|]. split; [by left|done].
    + intros H. apply IH2 in H as (w & s' & prev' & caps' & -> & H2 & H).
      exists w, s', prev', caps'. split; [done|]. split; [by right|done].
  - intros H. apply IH in H as (w & s' & prev' & caps' & -> & H0 & H).
    by eexists w, s', prev', _.
  - destruct (xorb _ _); [|done]. intros H. by exists [], s, prev, caps.
Qed.

Lemma match_at_sound r prev s m :
  match_at r prev s = Some m -> exists s', s = m_text m ++ s' /\ lang r (m_text m).
Proof.
  unfold match_at. destruct (rmatch r prev s [] _) as [[s' caps]|] eqn:E; [|done].
  intros [= <-]. apply rmatch_sound in E as (w & s1 & _ & _ & -> & Hw & [= -> ->]).
  simpl. exists s'. rewrite length_app.
  replace (length w + length s' - length s') with (length w) by lia.
  by rewrite take_app_length.
Qed.

Lemma search_sound r prev s m :
  search_from r prev s = Some m ->
  exists pre post, s = pre ++ m_text m ++ post /\ lang r (m_text m).
Proof.
  revert prev. induction s as [|c s IH]; intros prev; simpl.
  - destruct (match_at r prev []) as [m'|] eqn:E; [|done]. intros [= ->].
    apply match_at_sound in E as (s' & E & H). by exists [], s'.
  - destruct (match_at r prev (c :: s)) as [m'|] eqn:E.
    + intros [= ->]. apply match_at_sound in E as (s' & E & H). by exists [], s'.
    + intros H. apply IH in H as (pre & post & -> & H). by exists (c :: pre), post.
Qed.

(** ** The date tokens (claim C10) *)

Lemma lang_liti k w : lang (liti k) w -> lower w = lower k.
Proof.
  revert w. induction k as [|a k IH]; intros w.
  - simpl. by intros ->.
  - assert (E : lang (liti (a :: k)) w -> lang (Seq (Chr (is_char_i a)) (liti k)) w).
    { destruct k; [|done]. simpl. intros (c & -> & Hc). exists [c], []. split; [done|].
      split; [by exists c|done]. }
    intros H. apply E in H as (w1 & w2 & -> & (c & -> & Hc) & H2).
    apply IH in H2. simpl. rewrite H2. f_equal.
    unfold is_char_i in Hc. by apply Ascii.eqb_eq in Hc.
Qed.

Lemma lower_digit_inv c : is_digit (lower_char c) = true -> lower_char c = c.
Proof.
  destruct c as [b0 b1 b2 b3 b4 b5 b6 b7].
  destruct b0, b1, b2, b3, b4, b5, b6, b7; vm_compute; try reflexivity; discriminate.
Qed.

Lemma lower_digits_inv w k :
  forallb is_digit k = true -> lower w = k -> w = k.
Proof.
  revert k. induction w as [|c w IH]; intros [|a k]; simpl; try done.
  intros [Ha Hk]%andb_prop [= Hc Hw]. rewrite (IH k) by done.
  f_equal. rewrite <- Hc in Ha. apply lower_digit_inv in Ha. congruence.
Qed.

Lemma lang_date_token w : lang DATE_TOKEN_RE w -> is_year w \/ lower w = L "present".
Proof.
  unfold DATE_TOKEN_RE, times. cbn [lang].
  intros [(w1 & w2 & -> & H1 & Hd & Hlo & Hhi)|H];
    [left|right; apply lang_liti in H; exact H].
  specialize (Hhi 2 eq_refl).
  destruct w2 as [|c [|d [|? ?]]]; simpl in Hlo, Hhi; try lia.
  simpl in Hd. rewrite andb_true_r in Hd. apply andb_prop in Hd as [Hc Hd].
  exists c, d. split; [|done].
  destruct H1 as [H1|H1]; apply lang_liti in H1;
    apply lower_digits_inv in H1; try reflexivity; rewrite H1; [left|right]; reflexivity.
Qed.

Lemma date_token_sound tok :
  found (re_search DATE_TOKEN_RE tok) = true -> has_year tok \/ has_present tok.
Proof.
  unfold re_search. destruct (search_from DATE_TOKEN_RE None tok) as [m|] eqn:E; [|done].
  intros _. apply search_sound in E as (pre & post & -> & H).
  apply lang_date_token in H as [H|H]; [left|right]; by exists pre, (m_text m), post.
Qed.

Lemma lower_app a b : lower (a ++ b) = lower a ++ lower b.
Proof. apply map_app. Qed.

Lemma starts_with_app w s : starts_with w (w ++ s) = true.
Proof. induction w as [|c w IH]; [done|]. simpl. by rewrite Ascii.eqb_refl. Qed.

Lemma contains_starts w s : starts_with w s = true -> contains w s = true.
Proof. destruct s; simpl; by intros ->. Qed.

Lemma contains_app pre w post : contains w (pre ++ w ++ post) = true.
Proof.
  induction pre as [|c pre IH]; simpl.
  - apply contains_starts, starts_with_app.
  - rewrite IH. apply orb_true_r.
Qed.

(** No month name holds a year or the word "present". *)
Lemma month_name_no_token tok : has_year tok \/ has_present tok -> ~ is_month_name tok.
Proof.
  unfold is_month_name. intros H Hm.
  assert (Hd : forallb (fun n => forallb (fun c => negb (is_digit c)) n
                                 && negb (contains (L "present") n)) MONTH_NAMES = true)
    by (by vm_compute).
  rewrite forallb_forall in Hd. apply list_elem_of_In in Hm.
  specialize (Hd _ Hm). apply andb_prop in Hd as [Hd Hp].
  destruct H as [(pre & y & post & -> & c & d & Hy & Hc & _)|(pre & w & post & -> & Hw)].
  - rewrite forallb_forall in Hd.
    assert (Hin : exists a, is_digit a = true /\ In a (lower (pre ++ y ++ post))).
    { destruct Hy as [->| ->].
      - exists "1"%char. split; [done|]. rewrite !lower_app.
        apply in_or_app. right. apply in_or_app. left. by left.
      - exists "2"%char. split; [done|]. rewrite !lower_app.
        apply in_or_app. right. apply in_or_app. left. by left. }
    destruct Hin as (a & Ha & Hin). specialize (Hd a Hin). by rewrite Ha in Hd.
  - rewrite !lower_app, Hw, contains_app in Hp. done.
Qed.

Lemma date_tokens_found e tok :
  tok ∈ date_tokens (simplify_dates e) -> found (re_search DATE_TOKEN_RE tok) = true.
Proof.
  unfold simplify_dates. cbn [date_tokens].
  intros H. apply list_elem_of_In, in_concat in H as (l & Hl & Htok).
  apply in_map_iff in Hl as (t & <- & _).
  apply list_elem_of_In, list_elem_of_filter in Htok as [H _]. done.
Qed.

(** C10: every text in the date_tokens of every entry that the experience
    extractor returns contains a 4-digit year beginning with 19 or 20, or the
    word "present" in any case; in particular a bare month name is never an
    element of date_tokens. *)
Theorem date_tokens_hold_a_year_or_present (section_text : str) :
  Forall (fun e => Forall (fun tok => (has_year tok \/ has_present tok) /\ ~ is_month_name tok)
                          (date_tokens e))
         (parse_experience section_text).
Proof.
  unfold parse_experience. apply Forall_forall. intros e He.
  apply list_elem_of_In, in_map_iff in He as (o & <- & _).
  apply Forall_forall. intros tok Htok.
  apply date_tokens_found, date_token_sound in Htok.
  split; [done|by apply month_name_no_token].
Qed.

(** A month-and-year phrase is kept as a token and the month alone is not. *)
Lemma date_tokens_example :
  map dates (parse_experience (L "Engineer (Jan 2020 - Present)"))
    = [[ [L "Jan 2020"; L "Jan"; []; []; []; []; []; []; []; []; []; []; []; []; []];
         [[]; []; []; []; []; []; []; []; []; []; []; []; []; []; []] ]] /\
  map date_tokens (parse_experience (L "Engineer (Jan 2020 - Present)")) = [[L "Jan 2020"]].
Proof. by vm_compute. Qed.

(** ** Texts that the matcher cannot tell apart *)

Section Simulation.

Variables (E : ascii -> ascii -> Prop) (B : ascii -> Prop).
Variable Q : str * captures -> str * captures -> Prop.

Lemma agree_orelse (a b a' b' : mres) :
  agree Q a a' -> agree Q b b' ->
  agree Q (match a with Some x => Some x | None => b end)
          (match a' with Some x => Some x | None => b' end).
Proof. by destruct a, a'. Qed.

Lemma rep_stopped p lo hi prev s k :
  (forall x, B x -> p x = false) -> stopped B s ->
  rep p lo hi prev s k = match lo with 0 => k prev s | S _ => None end.
Proof.
  intros HB Hs. destruct s as [|x s]; [done|]. simpl in *. by rewrite (HB x Hs).
Qed.

Lemma rep_sim p lo hi s s' k k' prev prev' :
  (forall c c', E c c' -> p c = p c') ->
  (forall x, B x -> p x = false) ->
  sim E B s s' ->
  (forall q q' w w' t t', s = w ++ t -> s' = w' ++ t' -> length w = length w' ->
     sim E B t t' -> agree Q (k q t) (k' q' t')) ->
  agree Q (rep p lo hi prev s k) (rep p lo hi prev' s' k').
Proof.
  intros HE HB Hsim. revert lo hi prev prev' k k'.
  induction Hsim as [s s' Hs Hs'|c c' s s' Hc Hsim IH]; intros lo hi prev prev' k k' Hk.
  - rewrite !rep_stopped by done. destruct lo; [|done].
    apply (Hk prev prev' [] []); try done. by apply sim_stop.
  - assert (Hstop : agree Q (match lo with 0 => k prev (c :: s) | S _ => None end)
                            (match lo with 0 => k' prev' (c' :: s') | S _ => None end)).
    { destruct lo; [|done]. apply (Hk prev prev' [] []); try done. by apply sim_step. }
    simpl. rewrite <- (HE c c' Hc).
    destruct (p c && negb (bool_decide (hi = Some 0))); [|done].
    apply agree_orelse; [|done]. apply IH.
    intros q q' w w' t t' -> -> Hl Ht.
    apply (Hk q q' (c :: w) (c' :: w')); try done. simpl. by rewrite Hl.
Qed.

Lemma rmatch_sim r s s' caps caps' k k' prev prev' :
  (forall c c', E c c' -> same_class r c c' = true) ->
  (forall x, B x -> rejects r x = true) ->
  bnd_free r = true ->
  sim E B s s' ->
  (forall q q' w w' t t' c c', s = w ++ t -> s' = w' ++ t' -> length w = length w' ->
     sim E B t t' -> agree Q (k q t c) (k' q' t' c')) ->
  agree Q (rmatch r prev s caps k) (rmatch r prev' s' caps' k').
Proof.
  revert s s' caps caps' k k' prev prev'.
  induction r as [|p|p lo hi|r1 IH1 r2 IH2|r1 IH1 r2 IH2|i r0 IH|];
    intros s s' caps caps' k k' prev prev' HE HB Hbnd Hsim Hk; simpl in *.
  - apply (Hk prev prev' [] []); done.
  - destruct Hsim as [s s' Hs Hs'|c c' s s' Hc Hsim].
    + assert (Hn : forall t c (kk : option ascii -> str -> captures -> mres),
                stopped B t ->
                match t with x :: t0 => if p x then kk (Some x) t0 c else None | [] => None end
                = None).
      { intros [|x t] c kk Ht; [done|]. simpl in Ht. apply HB in Ht.
        apply negb_true_iff in Ht. by rewrite Ht. }
      rewrite !Hn by done. done.
    + apply HE in Hc as Hp. apply eqb_prop in Hp. rewrite <- Hp.
      destruct (p c); [|done]. apply (Hk (Some c) (Some c') [c] [c']); done.
  - apply rep_sim; try done.
    + intros c c' Hc. apply HE in Hc. by apply eqb_prop in Hc.
    + intros x Hx. apply HB in Hx. by apply negb_true_iff in Hx.
    + intros q q' w w' t t' -> -> Hl Ht. by apply (Hk q q' w w').
  - apply andb_prop in Hbnd as [Hb1 Hb2].
    apply IH1; try done.
    + intros c c' Hc. apply HE in Hc. by apply andb_prop in Hc as [? _].
    + intros x Hx. apply HB in Hx. by apply andb_prop in Hx as [? _].
    + intros q q' w w' t t' c c' -> -> Hl Ht. apply IH2; try done.
      * intros a a' Ha. apply HE in Ha. by apply andb_prop in Ha as [_ ?].
      * intros x Hx. apply HB in Hx. by apply andb_prop in Hx as [_ ?].
      * intros q2 q2' w2 w2' t2 t2' c2 c2' -> -> Hl2 Ht2.
        apply (Hk q2 q2' (w ++ w2) (w' ++ w2')); rewrite <- ?app_assoc; try done.
        rewrite !length_app. lia.
  - apply andb_prop in Hbnd as [Hb1 Hb2].
    apply agree_orelse.
    + apply IH1; try done.
      * intros c c' Hc. apply HE in Hc. by apply andb_prop in Hc as [? _].
      * intros x Hx. apply HB in Hx. by apply andb_prop in Hx as [? _].
    + apply IH2; try done.
      * intros c c' Hc. apply HE in Hc. by apply andb_prop in Hc as [_ ?].
      * intros x Hx. apply HB in Hx. by apply andb_prop in Hx as [_ ?].
  - apply IH; try done.
    intros q q' w w' t t' c c' -> -> Hl Ht. by apply (Hk q q' w w').
  - done.
Qed.

End Simulation.

Lemma match_at_sim E B r s s' prev prev' :
  (forall c c', E c c' -> same_class r c c' = true) ->
  (forall x, B x -> rejects r x = true) ->
  bnd_free r = true ->
  sim E B s s' ->
  agree (fun m m' => length (m_text m) = length (m_text m'))
        (match_at r prev s) (match_at r prev' s').
Proof.
  intros HE HB Hbnd Hsim. unfold match_at.
  pose proof (rmatch_sim E B
    (fun x x' => length s - length x.1 = length s' - length x'.1)
    r s s' [] [] (fun _ t c => Some (t, c)) (fun _ t c => Some (t, c)) prev prev'
    HE HB Hbnd Hsim) as H.
  destruct (rmatch r prev s [] _) as [[t c]|], (rmatch r prev' s' [] _) as [[t' c']|];
    simpl in *.
  - rewrite !length_take. assert (Hq : length s - length t = length s' - length t').
    { apply H. intros q q' w w' u u' d d' -> -> Hl _. simpl. rewrite !length_app. lia. }
    lia.
  - apply H. intros q q' w w' u u' d d' -> -> Hl _. simpl. rewrite !length_app. lia.
  - apply H. intros q q' w w' u u' d d' -> -> Hl _. simpl. rewrite !length_app. lia.
  - done.
Qed.

(** ** The phone filter (claim C7) *)

Lemma sub_chr_filter p prev s :
  sub_scan (Chr p) [] prev 0 s = filter (fun c => negb (p c) = true) s.
Proof.
  revert prev. induction s as [|c s IH]; intros prev; [done|].
  cbn [sub_scan]. unfold match_at. cbn [rmatch].
  destruct (p c) eqn:E; simpl.
  - rewrite filter_cons_False by (rewrite E; simpl; done).
    replace (S (length s) - length s) with 1 by lia. simpl. apply IH.
  - rewrite filter_cons_True by (by rewrite E). f_equal. apply IH.
Qed.

Lemma digits_of_candidate c : length (re_sub (Chr non_digit) [] c) = digit_count c.
Proof.
  unfold re_sub, digit_count. rewrite sub_chr_filter. f_equal.
  apply list_filter_iff. intros x. unfold non_digit. by rewrite negb_involutive.
Qed.

Lemma elem_of_phone_fold c ms acc :
  c ∈ fold_left phone_step ms acc
  <-> c ∈ acc \/ exists m, m ∈ ms /\ c = strip (m_text m) /\ 7 <= digit_count c <= 15.
Proof.
  revert acc. induction ms as [|m ms IH]; intros acc; simpl.
  - split; [by left|]. intros [?|(m & H & _)]; [done|]. by apply elem_of_nil in H.
  - rewrite IH. unfold phone_step. rewrite digits_of_candidate.
    destruct ((7 <=? digit_count (strip (m_text m)))
              && (digit_count (strip (m_text m)) <=? 15)) eqn:E.
    + apply andb_prop in E as [E1 E2]. apply Nat.leb_le in E1, E2.
      rewrite elem_of_union, elem_of_singleton. split.
      * intros [[?| ->]|(m' & H1 & H2)]; [by left| |].
        -- right. exists m. split; [by left|done].
        -- right. exists m'. split; [by right|done].
      * intros [?|(m' & [->|H1]%elem_of_cons & H2 & H3)]; [by left; left| |].
        -- left. by right.
        -- right. by exists m'.
    + split.
      * intros [?|(m' & H1 & H2)]; [by left|]. right. exists m'. split; [by right|done].
      * intros [?|(m' & [->|H1]%elem_of_cons & -> & H3)]; [by left| |].
        -- apply andb_false_iff in E as [E|E]; [apply Nat.leb_gt in E|apply Nat.leb_gt in E]; lia.
        -- right. by exists m'.
Qed.

Lemma digit_run_count n s : digit_run n s -> digit_count s = n.
Proof.
  intros [<- H]. unfold digit_count. f_equal.
  induction s as [|c s IH]; [done|]. simpl in H. apply andb_prop in H as [Hc H].
  rewrite filter_cons_True by done. f_equal. by apply IH.
Qed.

(** C7, as stated, fails in its last part: a run of exactly 7 digits need
    not yield a returned candidate, because the phone pattern can merge it
    with the digits around it into one candidate of more than 15 digits. *)
Lemma seven_digit_run_not_returned :
  let text := L "1234567 1234567 1234567" in
  splitlines text = [text] /\
  map m_text (re_finditer PHONE_RE text) = [text] /\
  digit_count text = 21 /\
  phones (extract_contact text) = [].
Proof. by vm_compute. Qed.

(** A run of seven digits between characters that the phone pattern cannot
    match is scanned as one candidate. *)

Lemma digit_same_class c c' : is_digit_for_zero c c' -> same_class PHONE_RE c c' = true.
Proof.
  intros [H ->]. revert H. destruct c as [b0 b1 b2 b3 b4 b5 b6 b7].
  destruct b0, b1, b2, b3, b4, b5, b6, b7; vm_compute; try reflexivity; discriminate.
Qed.

Lemma not_symbol_rejects x : not_phone_symbol x -> rejects PHONE_RE x = true.
Proof.
  unfold not_phone_symbol. destruct x as [b0 b1 b2 b3 b4 b5 b6 b7].
  destruct b0, b1, b2, b3, b4, b5, b6, b7; vm_compute; try reflexivity; discriminate.
Qed.

Lemma digit_not_space c : is_digit c = true -> is_space c = false.
Proof.
  destruct c as [b0 b1 b2 b3 b4 b5 b6 b7].
  destruct b0, b1, b2, b3, b4, b5, b6, b7; vm_compute; try reflexivity; discriminate.
Qed.

Lemma phone_no_match_stopped prev s :
  stopped not_phone_symbol s -> match_at PHONE_RE prev s = None.
Proof.
  intros Hs.
  pose proof (match_at_sim is_digit_for_zero not_phone_symbol PHONE_RE s [] prev None
                digit_same_class not_symbol_rejects eq_refl) as H.
  assert (E0 : match_at PHONE_RE None [] = None) by (by vm_compute).
  rewrite E0 in H. destruct (match_at PHONE_RE prev s); [|done].
  exfalso. apply H. by apply sim_stop.
Qed.

Lemma phone_match_run prev run post :
  digit_run 7 run -> stopped not_phone_symbol post ->
  exists m, match_at PHONE_RE prev (run ++ post) = Some m /\ m_text m = run.
Proof.
  intros [Hl Hd] Hpost.
  assert (Hsim : sim is_digit_for_zero not_phone_symbol (run ++ post) (L "0000000")).
  { destruct run as [|d1 [|d2 [|d3 [|d4 [|d5 [|d6 [|d7 [|? ?]]]]]]]]; try done.
    simpl in Hd. repeat (apply andb_prop in Hd as [? Hd]).
    repeat (apply sim_step; [done|]). by apply sim_stop. }
  pose proof (match_at_sim _ _ PHONE_RE _ _ prev None
                digit_same_class not_symbol_rejects eq_refl Hsim) as H.
  assert (E0 : exists m0, match_at PHONE_RE None (L "0000000") = Some m0
                          /\ length (m_text m0) = 7) by (eexists; by vm_compute).
  destruct E0 as (m0 & E0 & L0). rewrite E0 in H.
  destruct (match_at PHONE_RE prev (run ++ post)) as [m|] eqn:Em; [|done].
  simpl in H. exists m. split; [done|].
  apply match_at_sound in Em as (s' & Es & _).
  apply (f_equal (take 7)) in Es. rewrite <- Hl in Es at 1. rewrite take_app_length in Es.
  rewrite Es, <- L0, <- H. by rewrite take_app_length.
Qed.

Lemma phone_scan_prefix pre s prev :
  Forall not_phone_symbol pre ->
  exists prev', scan PHONE_RE prev 0 (pre ++ s) = scan PHONE_RE prev' 0 s.
Proof.
  intros H. revert prev. induction H as [|x pre Hx H IH]; intros prev; [by exists prev|].
  change ((x :: pre) ++ s) with (x :: (pre ++ s)). cbn [scan].
  rewrite phone_no_match_stopped by done. apply IH.
Qed.

Lemma scan_skip r prev w t :
  exists prev', scan r prev (length w) (w ++ t) = scan r prev' 0 t.
Proof.
  revert prev. induction w as [|c w IH]; intros prev; [by exists prev|]. simpl. apply IH.
Qed.

Lemma phone_scan_stopped post prev :
  Forall not_phone_symbol post -> scan PHONE_RE prev 0 post = [].
Proof.
  intros H. destruct (phone_scan_prefix post [] prev H) as [prev' E].
  rewrite app_nil_r in E. rewrite E. cbn [scan]. by rewrite phone_no_match_stopped.
Qed.

Lemma phone_scan_run pre run post :
  digit_run 7 run -> Forall not_phone_symbol pre -> Forall not_phone_symbol post ->
  exists m, re_finditer PHONE_RE (pre ++ run ++ post) = [m] /\ m_text m = run.
Proof.
  intros Hrun Hpre Hpost. unfold re_finditer.
  destruct (phone_scan_prefix pre (run ++ post) None Hpre) as [prev' ->].
  assert (Hs : stopped not_phone_symbol post) by (by destruct Hpost).
  destruct (phone_match_run prev' run post Hrun Hs) as (m & Em & Et).
  exists m. split; [|done]. destruct Hrun as [Hl _].
  destruct run as [|d run]; [done|].
  change ((d :: run) ++ post) with (d :: (run ++ post)) in *.
  cbn [scan]. rewrite Em, Et. simpl in Hl. simpl length. simpl pred.
  destruct (scan_skip PHONE_RE (Some d) run post) as [prev'' E].
  rewrite E. by rewrite phone_scan_stopped.
Qed.

Lemma strip_digits run : forallb is_digit run = true -> strip run = run.
Proof.
  intros H. assert (Hoff : forall s, forallb is_digit s = true -> starts_off is_space s = true).
  { intros [|c s]; [done|]. simpl. intros [Hc _]%andb_prop. by rewrite digit_not_space. }
  unfold strip. rewrite (lstrip_id run) by (by apply Hoff).
  unfold rstrip. rewrite lstrip_id; [apply rev_involutive|].
  apply Hoff. apply forallb_forall. intros c Hc. apply in_rev in Hc.
  rewrite forallb_forall in H. by apply H.
Qed.

(** C7, as amended: a scanned phone candidate is kept if and only if it
    holds between 7 and 15 digits; so a run of exactly 6 digits is never in
    the phones output, and a run of exactly 7 digits is in it whenever the
    scan yields that run as a candidate, as it does when the run stands
    between characters that the phone pattern cannot match (or the ends of
    the text) and the text holds no other such character. *)
Theorem phone_filter (text : str) :
  (forall c, c ∈ phones (extract_contact text)
             <-> phone_candidate text c /\ 7 <= digit_count c <= 15) /\
  NoDup (phones (extract_contact text)) /\
  (forall run, digit_run 6 run -> run ∉ phones (extract_contact text)) /\
  (forall run, digit_run 7 run -> phone_candidate text run ->
               run ∈ phones (extract_contact text)) /\
  (forall pre run post,
     text = pre ++ run ++ post -> digit_run 7 run ->
     forallb (fun c => negb (phone_symbol c)) (pre ++ post) = true ->
     phones (extract_contact text) = [run]).
Proof.
  assert (H : forall c, c ∈ phones (extract_contact text)
                        <-> phone_candidate text c /\ 7 <= digit_count c <= 15).
  { intros c. unfold extract_contact, phone_candidate. cbn [phones].
    rewrite elem_of_elements, elem_of_phone_fold. split.
    - intros [H|(m & H1 & H2 & H3)]; [by apply elem_of_empty in H|].
      split; [by exists m|done].
    - intros [(m & H1 & H2) H3]. right. by exists m. }
  split; [done|]. split; [unfold extract_contact; cbn [phones]; apply NoDup_elements|].
  split; [|split].
  - intros run Hrun [_ Hc]%H. rewrite (digit_run_count 6) in Hc by done. lia.
  - intros run Hrun Hc. apply H. split; [done|].
    rewrite (digit_run_count 7) by done. lia.
  - intros pre run post -> Hrun Hout. rewrite forallb_app in Hout.
    apply andb_prop in Hout as [Hpre Hpost].
    assert (HF : forall l, forallb (fun c => negb (phone_symbol c)) l = true ->
                           Forall not_phone_symbol l).
    { intros l Hl. apply Forall_forall. intros c Hc. rewrite forallb_forall in Hl.
      apply list_elem_of_In, Hl in Hc. by apply negb_true_iff in Hc. }
    destruct (phone_scan_run pre run post Hrun (HF _ Hpre) (HF _ Hpost)) as (m & Em & Et).
    unfold extract_contact. cbn [phones]. rewrite Em. simpl. unfold phone_step.
    rewrite digits_of_candidate, Et. destruct Hrun as [Hl Hd].
    rewrite (strip_digits run) by done.
    rewrite (digit_run_count 7 run) by done. simpl.
    rewrite union_empty_l_L. apply elements_singleton.
Qed.

(** A run of seven digits between two letters. *)
Lemma phone_filter_witness :
  phones (extract_contact (L "x1234567y")) = [L "1234567"].
Proof.
  apply (proj2 (proj2 (proj2 (proj2 (phone_filter (L "x1234567y")))))
           (L "x") (L "1234567") (L "y")).
  - reflexivity.
  - split; reflexivity.
  - reflexivity.
Defined.

(** The boundary on two small texts: a run of 6 digits standing alone is
    scanned and dropped, a run of 7 digits standing alone is returned. *)
Lemma phone_boundary_examples :
  map (fun m => strip (m_text m)) (re_finditer PHONE_RE (L "call 123456 now")) = [L "123456"] /\
  phones (extract_contact (L "call 123456 now")) = [] /\
  map (fun m => strip (m_text m)) (re_finditer PHONE_RE (L "call 1234567 now")) = [L "1234567"] /\
  phones (extract_contact (L "call 1234567 now")) = [L "1234567"].
Proof. by vm_compute. Qed.
(** * Further properties *)

(** ** The normalizer *)

Lemma rsub_length p lo repl s :
  0 < lo -> length repl <= lo -> length (re_sub (Rep p lo None) repl s) <= length s.
Proof.
  intros lo_pos Hl. induction s as [| c s Hc IH | w s Hne Hw Hs IH] using (run_ind p).
  - by rewrite rsub_nil.
  - rewrite rsub_off by done. simpl. lia.
  - rewrite rsub_run by done. rewrite !length_app.
    destruct (lo <=? length w) eqn:E; [apply Nat.leb_le in E|]; lia.
Qed.

Lemma strip_length s : length (strip s) <= length s.
Proof.
  destruct (strip_infix s) as (u & v & E). rewrite E at 2. rewrite !length_app. lia.
Qed.

(** Removing a class [p] from a text of characters of [p] or [q]. *)
Lemma rsub_forallb_rest p q s :
  forallb (fun c => p c || q c) s = true -> forallb q (re_sub (Rep p 1 None) [] s) = true.
Proof.
  assert (lo_pos : 0 < 1) by lia.
  induction s as [| c s Hc IH | w s Hne Hw Hs IH] using (run_ind p).
  - by rewrite rsub_nil.
  - rewrite rsub_off by done. simpl. rewrite Hc. simpl. intros H.
    apply andb_prop in H as [-> H]. by apply IH.
  - rewrite rsub_run by done. rewrite forallb_app. intros H.
    apply andb_prop in H as [_ H]. destruct w as [|c w]; [done|]. simpl. by apply IH.
Qed.

Lemma lstrip_spaces s : forallb is_space s = true -> lstrip s = [].
Proof.
  induction s as [|c s IH]; [done|]. simpl. intros H.
  apply andb_prop in H as [-> H]. by apply IH.
Qed.

Lemma strip_spaces s : forallb is_space s = true -> strip s = [].
Proof. intros H. unfold strip. by rewrite lstrip_spaces. Qed.

Lemma forallb_impl (p q : ascii -> bool) s :
  (forall c, p c = true -> q c = true) -> forallb p s = true -> forallb q s = true.
Proof.
  intros Hpq. rewrite !forallb_forall. intros H c Hc. by apply Hpq, H.
Qed.

Lemma replace_char_forallb q a b s :
  q b = true -> forallb q s = true -> forallb q (replace_char a b s) = true.
Proof.
  intros Hb. induction s as [|c s IH]; [done|]. simpl. intros H.
  apply andb_prop in H as [Hc H]. rewrite IH by done.
  destruct (is_char a c); by rewrite ?Hb, ?Hc.
Qed.

Lemma clean_text_blank x : forallb is_blank_or_ctrl x = true -> clean_text x = [].
Proof.
  intros Hx. unfold clean_text. apply strip_spaces.
  apply rsub_forallb_rest.
  assert (E : forallb is_blank_or_ctrl
                (re_sub (Rep (is_char LF) 3 None) [LF; LF]
                   (re_sub (Rep is_blank 1 None) [SP] (replace_char CR LF x))) = true).
  { apply rsub_forallb; [lia|done|]. apply rsub_forallb; [lia|done|].
    by apply replace_char_forallb. }
  revert E. apply forallb_impl. intros c. unfold is_blank_or_ctrl.
  by rewrite orb_comm.
Qed.

(** X1: whatever the input, the text that [clean_text] returns holds no
    carriage return, no tab and none of the control characters 0x00-0x08,
    0x0B-0x0C, 0x0E-0x1F, and it neither starts nor ends with white space. *)
Theorem clean_text_output (x : str) :
  forallb not_cr (clean_text x) = true /\
  forallb not_tab (clean_text x) = true /\
  forallb not_ctrl (clean_text x) = true /\
  starts_off is_space (clean_text x) = true /\
  starts_off is_space (rev (clean_text x)) = true /\
  strip (clean_text x) = clean_text x.
Proof.
  assert (H1 : 0 < 1) by lia. assert (H3 : 0 < 3) by lia.
  split; [|split; [|split; [apply clean_text_not_ctrl|]]].
  - unfold clean_text. apply strip_forallb.
    apply rsub_forallb; [done..|]. apply rsub_forallb; [done..|].
    apply rsub_forallb; [done..|]. apply replace_cr_not_cr.
  - unfold clean_text. apply strip_forallb.
    apply rsub_forallb; [done..|]. apply rsub_forallb; [done..|].
    apply rsub_forallb_new; try done.
    intros c Hc. unfold is_blank in Hc. apply orb_false_elim in Hc as [_ Hc].
    unfold not_tab. by rewrite Hc.
  - unfold clean_text. set (s := re_sub _ _ _). split; [|split; [|apply strip_idem]].
    + unfold strip. apply rstrip_starts_off, lstrip_starts_off.
    + unfold strip, rstrip. rewrite rev_involutive. apply lstrip_starts_off.
Qed.

(** X2: on a text without the removed control characters, the result of
    [clean_text] holds no two blanks (space or tab) in a row and no three
    line feeds in a row. *)
Theorem clean_text_collapses (x : str) :
  forallb not_ctrl x = true ->
  runs_le is_blank 1 (clean_text x) = true /\ runs_le (is_char LF) 2 (clean_text x) = true.
Proof. intros Hx. by destruct (clean_text_normal x Hx). Qed.

Lemma clean_text_collapses_witness :
  let x := L "a  	 b" ++ [LF; CR; LF; LF; LF] ++ L "c" in
  clean_text x = L "a b" ++ [LF; LF] ++ L "c" /\
  runs_le is_blank 1 (clean_text x) = true /\ runs_le (is_char LF) 2 (clean_text x) = true.
Proof.
  split; [reflexivity|]. apply (clean_text_collapses _). reflexivity.
Defined.

(** X3: [clean_text] never makes a text longer. *)
Theorem clean_text_length (x : str) : length (clean_text x) <= length x.
Proof.
  unfold clean_text.
  etransitivity; [apply strip_length|].
  etransitivity; [apply rsub_length; simpl; lia|].
  etransitivity; [apply rsub_length; simpl; lia|].
  etransitivity; [apply rsub_length; simpl; lia|].
  unfold replace_char. by rewrite length_map.
Qed.

(** X4: a text made only of white space and removed control characters is
    cleaned to the empty text, and parsing it gives the single section
    ["main"] with an empty body, no contact data, no education, no
    experience and an empty summary; without a language model it gives no
    skills either. *)
Theorem parse_blank_text (nlp : option (list str -> str -> list str)) (x : str) :
  forallb is_blank_or_ctrl x = true ->
  clean_text x = [] /\
  parse_resume_from_text nlp x
  = Ok {| contact := {| emails := []; phones := []; linkedin := [] |};
          summary := [];
          skills := extract_skills nlp [] None;
          education := [];
          experience := [];
          raw_sections := [(L "main", [])] |} /\
  extract_skills None [] None = [].
Proof.
  intros Hx. split; [by apply clean_text_blank|]. split; [|by vm_compute].
  unfold parse_resume_from_text. rewrite clean_text_blank by done. reflexivity.
Qed.

Lemma parse_blank_text_witness :
  parse_resume_from_text None ([SP; TAB; LF; "001"%char; CR; SP])
  = Ok {| contact := {| emails := []; phones := []; linkedin := [] |};
          summary := [];
          skills := [];
          education := [];
          experience := [];
          raw_sections := [(L "main", [])] |}.
Proof.
  apply (proj1 (proj2 (parse_blank_text None [SP; TAB; LF; "001"%char; CR; SP] eq_refl))).
Defined.

(** X5: the parser sees its input only through [clean_text]: cleaning a
    text without removed control characters beforehand does not change the
    result, and for every text, cleaning it twice beforehand gives the same
    result as cleaning it once. *)
Theorem parse_of_clean_text (nlp : option (list str -> str -> list str)) (x : str) :
  (forallb not_ctrl x = true ->
   parse_resume_from_text nlp (clean_text x) = parse_resume_from_text nlp x) /\
  parse_resume_from_text nlp (clean_text (clean_text x))
  = parse_resume_from_text nlp (clean_text x).
Proof.
  split.
  - intros Hx. unfold parse_resume_from_text.
    by rewrite (clean_text_fixed _ (clean_text_normal x Hx)).
  - unfold parse_resume_from_text. by rewrite clean_text_stable.
Qed.

Lemma parse_of_clean_text_witness :
  let x := L "  Skills " ++ [CR; LF] ++ L "python,	sql  " in
  parse_resume_from_text None (clean_text x) = parse_resume_from_text None x.
Proof.
  apply (proj1 (parse_of_clean_text None _)). reflexivity.
Defined.

(** ** The section segmenter *)

Lemma lower_char_idem c : lower_char (lower_char c) = lower_char c.
Proof.
  destruct c as [b0 b1 b2 b3 b4 b5 b6 b7].
  destruct b0, b1, b2, b3, b4, b5, b6, b7; reflexivity.
Qed.

Lemma lower_char_space c : is_space (lower_char c) = is_space c.
Proof.
  destruct c as [b0 b1 b2 b3 b4 b5 b6 b7].
  destruct b0, b1, b2, b3, b4, b5, b6, b7; reflexivity.
Qed.

Lemma lower_idem s : lower (lower s) = lower s.
Proof.
  unfold lower. rewrite map_map. apply map_ext. intros c. apply lower_char_idem.
Qed.

Lemma lstrip_lower s : lstrip (lower s) = lower (lstrip s).
Proof.
  induction s as [|c s IH]; [done|]. simpl. rewrite lower_char_space.
  by destruct (is_space c).
Qed.

Lemma rev_lower s : rev (lower s) = lower (rev s).
Proof. unfold lower. by rewrite map_rev. Qed.

Lemma strip_lower s : strip (lower s) = lower (strip s).
Proof.
  unfold strip, rstrip. by rewrite lstrip_lower, rev_lower, lstrip_lower, rev_lower.
Qed.

Lemma lookup_last_header_segments o ls i l :
  ls !! i = Some l -> is_header_line l = true ->
  (forall j l', i < j -> ls !! j = Some l' -> lower (strip l') <> lower (strip l)) ->
  lookup_last (lower (strip l)) (header_segments o ls)
  = Some (S (o + i), S (o + i) + length (before_header (drop (S i) ls))).
Proof.
  revert o i. induction ls as [|x rest IH]; intros o i Hi Hl Hlast; [done|].
  destruct i as [|i].
  - injection Hi as ->. cbn [header_segments]. rewrite Hl. cbn [lookup_last].
    assert (E : lookup_last (lower (strip l)) (header_segments (S o) rest) = None).
    { apply lookup_last_None. intros (l' & Hin & _ & E)%keys_header_segments.
      apply list_elem_of_lookup_1 in Hin as [j Hj].
      apply (Hlast (S j) l'); [lia|done..]. }
    rewrite E, str_eqb_refl, Nat.add_0_r. done.
  - cbn [header_segments]. simpl in Hi.
    assert (E : lookup_last (lower (strip l)) (header_segments (S o) rest)
                = Some (S (o + S i), S (o + S i) + length (before_header (drop (S (S i)) (x :: rest))))).
    { rewrite (IH (S o) i Hi Hl).
      - simpl. do 3 f_equal; lia.
      - intros j l' Hj Hl'. apply (Hlast (S j) l'); [lia|done]. }
    destruct (is_header_line x); [|done]. cbn [lookup_last]. by rewrite E.
Qed.

(** X6: when the same header occurs several times, the last occurrence
    wins: for a header line that no later line repeats (up to case and
    surrounding white space), the mapping holds under its key the trimmed
    text between this line and the next header line or the end of the
    text. *)
Theorem split_sections_last_header_wins (text : str) (i : nat) (l : str) :
  splitlines text !! i = Some l ->
  is_header_line l = true ->
  (forall j l', i < j -> splitlines text !! j = Some l' ->
                lower (strip l') <> lower (strip l)) ->
  exists m,
    split_sections text = Ok m /\
    dict_get (lower (strip l)) m
    = Some (body (splitlines text)
              (S i, S i + length (before_header (drop (S i) (splitlines text))))).
Proof.
  intros Hi Hl Hlast. pose proof (split_sections_ok text) as E. cbv zeta in E.
  assert (Hex : existsb is_header_line (splitlines text) = true).
  { apply existsb_exists. exists l. split; [|done].
    apply list_elem_of_In. by apply list_elem_of_lookup_2 in Hi. }
  rewrite Hex in E. eexists. split; [exact E|].
  rewrite dict_get_fold, lookup_last_with_body, lookup_last_app.
  assert (Htop : lookup_last (lower (strip l)) (top_segment (splitlines text)) = None).
  { apply lookup_last_None. intros [Hk _]%keys_top_segment.
    apply (top_not_header_key 0 (splitlines text)). rewrite <- Hk.
    apply keys_header_segments. exists l. split; [|done].
    by apply list_elem_of_lookup_2 in Hi. }
  rewrite Htop. by rewrite (lookup_last_header_segments 0 _ i l).
Qed.

Lemma split_sections_last_header_wins_witness :
  exists m,
    split_sections
      (join [LF] [L "Skills"; L "python"; L "SKILLS "; L "sql"; L "Education"; L "MIT"]) = Ok m /\
    dict_get (L "skills") m = Some (L "sql").
Proof.
  assert (Hlast : forall j l', 2 < j ->
            splitlines (join [LF] [L "Skills"; L "python"; L "SKILLS "; L "sql";
                                   L "Education"; L "MIT"]) !! j = Some l' ->
            lower (strip l') <> lower (strip (L "SKILLS "))).
  { intros j l' Hj Hl'. do 3 (destruct j as [|j]; [lia|]).
    do 3 (destruct j as [|j]; [injection Hl' as <-; by vm_compute|]). done. }
  destruct (split_sections_last_header_wins
              (join [LF] [L "Skills"; L "python"; L "SKILLS "; L "sql"; L "Education"; L "MIT"])
              2 (L "SKILLS ") eq_refl eq_refl Hlast) as (m & Hm & Hk).
  exists m. split; [exact Hm|exact Hk].
Defined.

(** X7: in the sections that the parser reports, every key is in lower
    case and neither a key nor a body starts or ends with white space. *)
Theorem raw_sections_trimmed (nlp : option (list str -> str -> list str)) (text : str) :
  exists r,
    parse_resume_from_text nlp text = Ok r /\
    Forall (fun kb => lower kb.1 = kb.1 /\ strip kb.1 = kb.1 /\ strip kb.2 = kb.2)
           (raw_sections r).
Proof.
  destruct (parse_resume_from_text_ok nlp text) as (r & sections & Hr & Hs & _ & Hraw & _).
  exists r. split; [done|]. rewrite Hraw. clear Hr Hraw.
  pose proof (split_sections_ok (clean_text text)) as E. cbv zeta in E.
  rewrite E in Hs. injection Hs as <-. clear E.
  destruct (existsb is_header_line (splitlines (clean_text text))).
  - apply Forall_forall. intros [k b] Hkb.
    apply elem_of_dict_of_items, survivors_elem_of in Hkb.
    apply list_elem_of_In, in_map_iff in Hkb as ([k' rg] & [= -> <-] & Hin).
    apply list_elem_of_In in Hin. simpl.
    split; [|split; [|apply strip_idem]].
    + apply elem_of_app in Hin as [Hin|Hin].
      * assert (Hk : k ∈ keys (header_segments 0 (splitlines (clean_text text)))).
        { by apply (elem_of_keys k rg). }
        apply keys_header_segments in Hk as (l & _ & _ & ->). apply lower_idem.
      * assert (Hk : k ∈ keys (top_segment (splitlines (clean_text text)))).
        { by apply (elem_of_keys k rg). }
        by apply keys_top_segment in Hk as [-> _].
    + apply elem_of_app in Hin as [Hin|Hin].
      * assert (Hk : k ∈ keys (header_segments 0 (splitlines (clean_text text)))).
        { by apply (elem_of_keys k rg). }
        apply keys_header_segments in Hk as (l & _ & _ & ->).
        by rewrite strip_lower, strip_idem.
      * assert (Hk : k ∈ keys (top_segment (splitlines (clean_text text)))).
        { by apply (elem_of_keys k rg). }
        by apply keys_top_segment in Hk as [-> _].
  - apply Forall_cons. split; [|apply Forall_nil_2]. simpl.
    split; [done|]. split; [done|]. unfold clean_text. apply strip_idem.
Qed.

(** ** The scan of a text for the matches of a pattern *)

Lemma occurs_in_cons w c s : occurs_in w s -> occurs_in w (c :: s).
Proof. intros (pre & post & ->). by exists (c :: pre), post. Qed.

Lemma occurs_in_drop w n s : occurs_in w (drop n s) -> occurs_in w s.
Proof.
  intros (pre & post & E). exists (take n s ++ pre), post.
  by rewrite <- app_assoc, <- E, take_drop.
Qed.

Lemma occurs_in_trans u w s : occurs_in u w -> occurs_in w s -> occurs_in u s.
Proof.
  intros (a & b & ->) (pre & post & ->). exists (pre ++ a), (b ++ post).
  by rewrite <- !app_assoc.
Qed.

Lemma occurs_in_strip s : occurs_in (strip s) s.
Proof. destruct (strip_infix s) as (u & v & E). by exists u, v. Qed.

(** Every match that [finditer] yields is a piece of the text that the
    pattern denotes. *)
Lemma scan_sound r prev skip s m :
  m ∈ scan r prev skip s -> occurs_in (m_text m) (drop skip s) /\ lang r (m_text m).
Proof.
  revert prev skip. induction s as [|c s IH]; intros prev skip; cbn [scan].
  - destruct skip; [|by intros H%elem_of_nil].
    destruct (match_at r prev []) as [m'|] eqn:E; [|by intros H%elem_of_nil].
    intros ->%list_elem_of_singleton. apply match_at_sound in E as (s' & E & H).
    split; [|done]. by exists [], s'.
  - destruct skip as [|n]; [|apply IH].
    destruct (match_at r prev (c :: s)) as [m'|] eqn:E.
    + intros [->|H]%elem_of_cons.
      * apply match_at_sound in E as (s' & E & H). split; [|done]. by exists [], s'.
      * apply IH in H as [H1 H2]. split; [|done].
        apply occurs_in_drop in H1. by apply occurs_in_cons.
    + intros H. apply IH in H as [H1 H2]. split; [|done]. by apply occurs_in_cons.
Qed.

Lemma finditer_sound r s m :
  m ∈ re_finditer r s -> occurs_in (m_text m) s /\ lang r (m_text m).
Proof. intros H. by apply scan_sound in H. Qed.

(** The matches stand in the text from left to right, without overlap. *)
Lemma scan_sublist r prev skip s :
  sublist (concat (map m_text (scan r prev skip s))) (drop skip s).
Proof.
  revert prev skip. induction s as [|c s IH]; intros prev skip; cbn [scan].
  - destruct skip; [|done].
    destruct (match_at r prev []) as [m'|] eqn:E; [|done].
    apply match_at_sound in E as (s' & E & H). symmetry in E.
    apply app_eq_nil in E as [E _]. simpl. by rewrite E.
  - destruct skip as [|n]; [|apply IH].
    destruct (match_at r prev (c :: s)) as [m'|] eqn:E.
    + apply match_at_sound in E as (s' & E & H). cbn [map concat].
      destruct (m_text m') as [|d w].
      * simpl. apply sublist_cons. apply (IH (Some c) 0).
      * injection E as <- ->. simpl length. simpl pred.
        specialize (IH (Some c) (length w)). rewrite drop_app_length in IH.
        simpl. apply sublist_skip. by apply sublist_app.
    + simpl. apply sublist_cons. apply (IH (Some c) 0).
Qed.

(** A text that a pattern denotes is made of characters that some class of
    the pattern accepts. *)
Lemma lang_accepts r w : lang r w -> forallb (fun c => negb (rejects r c)) w = true.
Proof.
  revert w. induction r as [|p|p lo hi|r1 IH1 r2 IH2|r1 IH1 r2 IH2|i r0 IH|];
    intros w; simpl.
  - by intros ->.
  - intros (c & -> & Hc). simpl. by rewrite Hc.
  - intros (H & _). revert H. apply forallb_impl. intros c ->. done.
  - intros (w1 & w2 & -> & H1 & H2). rewrite forallb_app. apply andb_true_intro. split.
    + apply IH1 in H1. revert H1. apply forallb_impl. intros c.
      rewrite negb_andb. by intros ->.
    + apply IH2 in H2. revert H2. apply forallb_impl. intros c.
      rewrite negb_andb. intros ->. apply orb_true_r.
  - intros [H|H].
    + apply IH1 in H. revert H. apply forallb_impl. intros c.
      rewrite negb_andb. by intros ->.
    + apply IH2 in H. revert H. apply forallb_impl. intros c.
      rewrite negb_andb. intros ->. apply orb_true_r.
  - apply IH.
  - by intros ->.
Qed.

Lemma lang_lit k w : lang (lit k) w -> w = k.
Proof.
  revert w. induction k as [|a k IH]; intros w; [done|].
  assert (E : lang (lit (a :: k)) w -> lang (Seq (Chr (is_char a)) (lit k)) w).
  { destruct k; [|done]. simpl. intros (c & -> & Hc). exists [c], []. split; [done|].
    split; [by exists c|done]. }
  intros H. apply E in H as (w1 & w2 & -> & (c & -> & Hc) & H2).
  apply IH in H2 as ->. by apply is_char_eq in Hc as ->.
Qed.

Lemma strip_no_space s : forallb (fun c => negb (is_space c)) s = true -> strip s = s.
Proof.
  intros H.
  assert (Hoff : forall t, forallb (fun c => negb (is_space c)) t = true ->
                           starts_off is_space t = true).
  { intros [|c t]; [done|]. simpl. by intros [Hc _]%andb_prop. }
  unfold strip. rewrite (lstrip_id s) by (by apply Hoff).
  unfold rstrip. rewrite lstrip_id; [apply rev_involutive|].
  apply Hoff. apply forallb_forall. intros c Hc. apply in_rev in Hc.
  rewrite forallb_forall in H. by apply H.
Qed.

(** ** The contact extractor *)

Lemma keys_dict_set_present {V : Type} k (v : V) d :
  k ∈ keys d -> keys (dict_set k v d) = keys d.
Proof.
  induction d as [|[k0 v0] d IH]; simpl; [by intros H%elem_of_nil|].
  destruct (str_eqb k k0) eqn:E; simpl.
  - by apply str_eqb_eq in E as ->.
  - intros [->|H]%elem_of_cons; [by rewrite str_eqb_refl in E|]. by rewrite IH.
Qed.

Lemma keys_fromkeys_fold l (d : dict unit) :
  keys (fold_left (fun d k => dict_set k tt d) l d)
  = keys d ++ filter (fun y => y ∉ keys d) (uniq l).
Proof.
  revert d. induction l as [|x l IH]; intros d; simpl.
  - by rewrite app_nil_r.
  - rewrite IH. destruct (decide (x ∈ keys d)) as [Hx|Hx].
    + rewrite keys_dict_set_present by done.
      rewrite filter_cons_False by (by intros H; apply H).
      f_equal. rewrite list_filter_filter. apply list_filter_iff. intros y.
      split; [|by intros [H _]]. intros H. split; [done|]. by intros ->.
    + rewrite dict_set_fresh by done. rewrite keys_app. simpl.
      rewrite filter_cons_True by done. rewrite <- app_assoc. simpl. do 2 f_equal.
      rewrite list_filter_filter. apply list_filter_iff. intros y.
      rewrite not_elem_of_app, list_elem_of_singleton. tauto.
Qed.

Lemma filter_not_in_nil (l : list str) : filter (fun y => y ∉ @nil str) l = l.
Proof.
  induction l as [|x l IH]; [done|].
  rewrite filter_cons_True by apply not_elem_of_nil. by rewrite IH.
Qed.

Lemma elem_of_uniq x l : x ∈ uniq l <-> x ∈ l.
Proof.
  induction l as [|y l IH]; simpl; [done|].
  rewrite !elem_of_cons, list_elem_of_filter, IH.
  destruct (decide (x = y)); tauto.
Qed.

Lemma NoDup_uniq l : NoDup (uniq l).
Proof.
  induction l as [|y l IH]; simpl; [apply NoDup_nil_2|].
  apply NoDup_cons. split; [|by apply NoDup_filter].
  intros [H _]%list_elem_of_filter. done.
Qed.

Lemma uniq_sublist l : sublist (uniq l) l.
Proof.
  induction l as [|y l IH]; simpl; [done|]. apply sublist_skip.
  etransitivity; [apply sublist_filter|done].
Qed.

(** X8: the emails of the result are the matches of the email pattern in
    the order of their first occurrence, each of them once. *)
Theorem emails_without_repetition (text : str) :
  emails (extract_contact text) = uniq (re_findall EMAIL_RE text) /\
  NoDup (emails (extract_contact text)) /\
  sublist (emails (extract_contact text)) (re_findall EMAIL_RE text) /\
  (forall e, e ∈ emails (extract_contact text) <-> e ∈ re_findall EMAIL_RE text).
Proof.
  assert (E : emails (extract_contact text) = uniq (re_findall EMAIL_RE text)).
  { unfold extract_contact, fromkeys. cbn [emails]. rewrite keys_fromkeys_fold. simpl.
    apply filter_not_in_nil. }
  rewrite E. split; [done|]. split; [apply NoDup_uniq|].
  split; [apply uniq_sublist|]. intros e. apply elem_of_uniq.
Qed.

Lemma lang_email w :
  lang EMAIL_RE w ->
  exists local domain suffix,
    w = local ++ L "@" ++ domain ++ L "." ++ suffix /\
    local <> [] /\ domain <> [] /\ suffix <> [] /\
    forallb email_char local = true /\ forallb email_char domain = true /\
    forallb is_word suffix = true.
Proof.
  unfold EMAIL_RE, plus. cbn [seqs lang].
  intros (w1 & ? & -> & (H1 & L1 & _) & ? & ? & -> & (c & -> & Hc) &
          w2 & ? & -> & (H2 & L2 & _) & ? & w3 & -> & (d & -> & Hd) & H3 & L3 & _).
  apply (is_char_eq "@"%char) in Hc as ->. apply (is_char_eq "."%char) in Hd as ->.
  exists w1, w2, w3. repeat split; try done.
  - intros ->. simpl in L1. lia.
  - intros ->. simpl in L2. lia.
  - intros ->. simpl in L3. lia.
Qed.

(** X9: every email of the result is a piece of the text of the form
    local@domain.suffix, where the local part and the domain are not empty
    and made of word characters, dots and hyphens, and the suffix is not
    empty and made of word characters. *)
Theorem emails_shape (text : str) :
  Forall (fun e =>
            occurs_in e text /\
            exists local domain suffix,
              e = local ++ L "@" ++ domain ++ L "." ++ suffix /\
              local <> [] /\ domain <> [] /\ suffix <> [] /\
              forallb email_char local = true /\ forallb email_char domain = true /\
              forallb is_word suffix = true)
         (emails (extract_contact text)).
Proof.
  apply Forall_forall. intros e He.
  assert (Hin : e ∈ re_findall EMAIL_RE text).
  { unfold extract_contact, fromkeys in He. cbn [emails] in He.
    rewrite keys_fromkeys_fold in He. simpl in He.
    rewrite filter_not_in_nil in He. exact (proj1 (elem_of_uniq _ _) He). }
  apply list_elem_of_In, in_map_iff in Hin as (m & <- & Hm).
  apply list_elem_of_In, finditer_sound in Hm as [Ho Hl].
  split; [done|]. by apply lang_email.
Qed.

Lemma space_rejected_by_linkedin c : is_space c = true -> rejects LINKEDIN_RE c = true.
Proof.
  destruct c as [b0 b1 b2 b3 b4 b5 b6 b7].
  destruct b0, b1, b2, b3, b4, b5, b6, b7; vm_compute; try reflexivity; discriminate.
Qed.

Lemma linkedin_match_no_space w :
  lang LINKEDIN_RE w -> forallb (fun c => negb (is_space c)) w = true.
Proof.
  intros H%lang_accepts. revert H. apply forallb_impl. intros c Hc.
  destruct (is_space c) eqn:E; [|done].
  by rewrite (space_rejected_by_linkedin c E) in Hc.
Qed.

Lemma lang_linkedin w :
  lang LINKEDIN_RE w ->
  exists scheme www path,
    w = scheme ++ www ++ L "linkedin.com/" ++ path /\
    (scheme = [] \/ scheme = L "http://" \/ scheme = L "https://") /\
    (www = [] \/ www = L "www.") /\
    path <> [] /\ forallb path_char path = true.
Proof.
  unfold LINKEDIN_RE, plus, Opt. cbn [seqs lang].
  intros (scheme & ? & -> & Hs & www & ? & -> & Hw & host & path & -> & Hh & Hp & Lp & _).
  apply lang_lit in Hh as ->. exists scheme, www, path.
  split; [done|]. split; [|split; [|split; [|done]]].
  - destruct Hs as [(h & ? & -> & ->%lang_lit & w3 & w4 & -> & [(c & -> & Hc)| ->] & ->%lang_lit)| ->].
    + apply (is_char_eq "s"%char) in Hc as ->. by right; right.
    + by right; left.
    + by left.
  - destruct Hw as [->%lang_lit| ->]; [by right|by left].
  - intros ->. simpl in Lp. lia.
Qed.

(** X10: the LinkedIn links of the result are exactly the matches of the
    link pattern, in the order of the text and without overlap (trimming
    them changes nothing, for a match holds no white space); each is a piece
    of the text made of an optional [http://] or [https://], an optional
    [www.], the text [linkedin.com/] and a path, not empty, of word
    characters, hyphens and slashes. *)
Theorem linkedin_links (text : str) :
  linkedin (extract_contact text) = re_findall LINKEDIN_RE text /\
  sublist (concat (linkedin (extract_contact text))) text /\
  Forall (fun url =>
            occurs_in url text /\
            forallb (fun c => negb (is_space c)) url = true /\
            exists scheme www path,
              url = scheme ++ www ++ L "linkedin.com/" ++ path /\
              (scheme = [] \/ scheme = L "http://" \/ scheme = L "https://") /\
              (www = [] \/ www = L "www.") /\
              path <> [] /\ forallb path_char path = true)
         (linkedin (extract_contact text)).
Proof.
  assert (E : linkedin (extract_contact text) = re_findall LINKEDIN_RE text).
  { unfold extract_contact, re_findall. cbn [linkedin]. apply map_ext_in.
    intros m Hm. apply list_elem_of_In, finditer_sound in Hm as [_ Hm].
    by apply strip_no_space, linkedin_match_no_space. }
  rewrite E. split; [done|]. split.
  - apply (scan_sublist LINKEDIN_RE None 0 text).
  - apply Forall_forall. intros url Hin.
    apply list_elem_of_In, in_map_iff in Hin as (m & <- & Hm).
    apply list_elem_of_In, finditer_sound in Hm as [Ho Hl].
    split; [done|]. split; [by apply linkedin_match_no_space|by apply lang_linkedin].
Qed.

(** X11: every phone number of the result is a piece of the text, neither
    starts nor ends with white space, and is made only of digits, white
    space and the characters [+ ( ) - .]; no number is reported twice. *)
Theorem phones_shape (text : str) :
  NoDup (phones (extract_contact text)) /\
  Forall (fun c => occurs_in c text /\ strip c = c /\ forallb phone_symbol c = true)
         (phones (extract_contact text)).
Proof.
  split; [unfold extract_contact; cbn [phones]; apply NoDup_elements|].
  apply Forall_forall. intros c Hc.
  unfold extract_contact in Hc. cbn [phones] in Hc.
  apply elem_of_elements, elem_of_phone_fold in Hc as [Hc|(m & Hm & -> & _)];
    [by apply elem_of_empty in Hc|].
  apply finditer_sound in Hm as [Ho Hl].
  split; [|split; [apply strip_idem|]].
  - apply (occurs_in_trans _ (m_text m)); [apply occurs_in_strip|done].
  - apply strip_forallb. apply lang_accepts in Hl. revert Hl.
    apply forallb_impl. intros x Hx. destruct (phone_symbol x) eqn:E; [done|].
    by rewrite (not_symbol_rejects x E) in Hx.
Qed.

(** ** The skill extractor *)

#[local] Instance str_le_total : Total str_le.
Proof.
  intros a. unfold str_le. induction a as [|x a IH]; intros [|y b]; simpl; auto.
  destruct (code x <? code y)%N eqn:E1, (code y <? code x)%N eqn:E2; auto.
Qed.

#[local] Instance str_le_trans : Transitive str_le.
Proof.
  intros a. unfold str_le. induction a as [|x a IH]; intros [|y b] [|z c]; simpl; try done.
  destruct (code x <? code y)%N eqn:E1, (code y <? code x)%N eqn:E2,
           (code y <? code z)%N eqn:E3, (code z <? code y)%N eqn:E4,
           (code x <? code z)%N eqn:E5, (code z <? code x)%N eqn:E6;
    try done; try apply IH;
    rewrite ?N.ltb_lt, ?N.ltb_ge in *; lia.
Qed.

Lemma elem_of_sorted (x : str) (s : gset str) : x ∈ sorted s <-> x ∈ s.
Proof. unfold sorted. by rewrite merge_sort_Permutation, elem_of_elements. Qed.

Lemma NoDup_sorted (s : gset str) : NoDup (sorted s).
Proof. unfold sorted. rewrite merge_sort_Permutation. apply NoDup_elements. Qed.

Lemma elem_of_fold_add {A : Type} (f : A -> str) (x : str) (l : list A) (acc : gset str) :
  x ∈ fold_left (fun acc a => acc ∪ {[ f a ]}) l acc
  <-> x ∈ acc \/ exists a, a ∈ l /\ x = f a.
Proof.
  revert acc. induction l as [|a l IH]; intros acc; simpl.
  - split; [by left|]. intros [?|(a & H & _)]; [done|]. by apply elem_of_nil in H.
  - rewrite IH, elem_of_union, elem_of_singleton. split.
    + intros [[?| ->]|(a' & H1 & H2)]; [by left| |].
      * right. exists a. split; [by left|done].
      * right. exists a'. split; [by right|done].
    + intros [?|(a' & [->|H1]%elem_of_cons & H2)]; [by left; left|by left; right|].
      right. by exists a'.
Qed.

Lemma elem_of_fold_add_if {A : Type} (c : A -> bool) (f : A -> str) (x : str) (l : list A)
    (acc : gset str) :
  x ∈ fold_left (fun acc a => if c a then acc ∪ {[ f a ]} else acc) l acc
  <-> x ∈ acc \/ exists a, a ∈ l /\ c a = true /\ x = f a.
Proof.
  revert acc. induction l as [|a l IH]; intros acc; simpl.
  - split; [by left|]. intros [?|(a & H & _)]; [done|]. by apply elem_of_nil in H.
  - rewrite IH. destruct (c a) eqn:E.
    + rewrite elem_of_union, elem_of_singleton. split.
      * intros [[?| ->]|(a' & H1 & H2)]; [by left| |].
        -- right. exists a. split; [by left|done].
        -- right. exists a'. split; [by right|done].
      * intros [?|(a' & [->|H1]%elem_of_cons & H2 & H3)]; [by left; left|by left; right|].
        right. by exists a'.
    + split.
      * intros [?|(a' & H1 & H2)]; [by left|]. right. exists a'. split; [by right|done].
      * intros [?|(a' & [->|H1]%elem_of_cons & H2 & H3)]; [by left|congruence|].
        right. by exists a'.
Qed.

Lemma elem_of_extract_skills nlp text skills_list s :
  s ∈ extract_skills nlp text skills_list
  <-> (exists k, k ∈ default DEFAULT_SKILLS skills_list /\
                 contains (lower k) (lower text) = true /\ s = lower k)
      \/ (exists matcher span, nlp = Some matcher /\
            span ∈ matcher (default DEFAULT_SKILLS skills_list) (lower text) /\
            s = lower span).
Proof.
  unfold extract_skills. rewrite elem_of_sorted, elem_of_fold_add_if.
  destruct nlp as [matcher|].
  - rewrite elem_of_fold_add. split.
    + intros [[H|(span & H1 & H2)]|H]; [by apply elem_of_empty in H| |by left].
      right. by exists matcher, span.
    + intros [H|(matcher' & span & [= <-] & H1 & H2)]; [by right|].
      left. right. by exists span.
  - split.
    + intros [H|H]; [by apply elem_of_empty in H|by left].
    + intros [H|(matcher' & span & [=] & _)]. by right.
Qed.

(** X12: the skill extractor returns a text exactly when it is the
    lower-cased form of a skill of the list that occurs in the lower-cased
    text, or the lower-cased form of a span that the phrase matcher of the
    language model reports; the result is in lower case, holds no text
    twice, and is in ascending order. *)
Theorem extract_skills_spec (nlp : option (list str -> str -> list str))
    (text : str) (skills_list : option (list str)) :
  (forall s, s ∈ extract_skills nlp text skills_list
     <-> (exists k, k ∈ default DEFAULT_SKILLS skills_list /\
                    contains (lower k) (lower text) = true /\ s = lower k)
         \/ (exists matcher span, nlp = Some matcher /\
               span ∈ matcher (default DEFAULT_SKILLS skills_list) (lower text) /\
               s = lower span)) /\
  Forall (fun s => lower s = s) (extract_skills nlp text skills_list) /\
  NoDup (extract_skills nlp text skills_list) /\
  StronglySorted str_le (extract_skills nlp text skills_list).
Proof.
  split; [apply elem_of_extract_skills|]. split; [|split].
  - apply Forall_forall. intros s Hs.
    apply elem_of_extract_skills in Hs as [(k & _ & _ & ->)|(? & span & _ & _ & ->)];
      apply lower_idem.
  - apply NoDup_sorted.
  - apply StronglySorted_merge_sort; apply _.
Qed.

(** X13: without a language model the result depends only on the
    lower-cased text and on which skills the list holds, not on their order
    or repetition. *)
Theorem extract_skills_order_and_case (text1 text2 : str) (skills1 skills2 : list str) :
  lower text1 = lower text2 ->
  (forall k, k ∈ skills1 <-> k ∈ skills2) ->
  extract_skills None text1 (Some skills1) = extract_skills None text2 (Some skills2).
Proof.
  intros Ht Hk. unfold extract_skills, sorted. cbn [default]. rewrite Ht.
  f_equal. f_equal. apply set_eq. intros x. rewrite !elem_of_fold_add_if.
  split; (intros [H|(k & H1 & H2)]; [by left|right; exists k; split; [by apply Hk|done]]).
Qed.

Lemma extract_skills_order_and_case_witness :
  extract_skills None (L "I know PYTHON and Sql") (Some [L "sql"; L "Python"; L "sql"])
  = extract_skills None (L "i know python and sql") (Some [L "Python"; L "sql"]).
Proof.
  apply extract_skills_order_and_case; [reflexivity|].
  intros k. rewrite !elem_of_cons. tauto.
Defined.

(** ** The education extractor *)

Lemma split_on_shape p s :
  exists hd tl rest,
    split_on p s = hd :: tl /\ s = hd ++ rest /\
    forallb (fun c => negb (p c)) hd = true /\
    Forall (fun piece => forallb (fun c => negb (p c)) piece = true /\ occurs_in piece rest) tl.
Proof.
  induction s as [|c s (hd & tl & rest & E & -> & Hhd & Htl)].
  - exists [], [], []. repeat split; constructor.
  - simpl. rewrite E. destruct (p c) eqn:Hc.
    + exists [], (hd :: tl), (c :: hd ++ rest). repeat split.
      apply Forall_cons. split.
      * split; [done|]. by exists [c], rest.
      * eapply Forall_impl; [exact Htl|]. intros piece [H1 H2]. split; [done|].
        apply occurs_in_cons. destruct H2 as (a & b & ->). exists (hd ++ a), b.
        by rewrite <- app_assoc.
    + exists (c :: hd), tl, rest. simpl. rewrite Hc. repeat split; done.
Qed.

Lemma split_on_pieces p s piece :
  piece ∈ split_on p s ->
  forallb (fun c => negb (p c)) piece = true /\ occurs_in piece s.
Proof.
  destruct (split_on_shape p s) as (hd & tl & rest & -> & -> & Hhd & Htl).
  intros [->|H]%elem_of_cons.
  - split; [done|]. by exists [], rest.
  - rewrite Forall_forall in Htl. destruct (Htl _ H) as [H1 (a & b & ->)].
    split; [done|]. exists (hd ++ a), b. by rewrite <- app_assoc.
Qed.

Lemma parts_of_part line part :
  part ∈ parts_of line -> part <> [] /\ part_of_line part line.
Proof.
  unfold parts_of. intros [Hne Hin]%list_elem_of_filter.
  apply list_elem_of_In, in_map_iff in Hin as (piece & <- & Hp).
  apply list_elem_of_In, split_on_pieces in Hp as [H1 H2].
  split; [done|]. split; [apply strip_idem|]. split; [by apply strip_forallb|].
  apply (occurs_in_trans _ piece); [apply occurs_in_strip|done].
Qed.

Lemma lang_year w : lang YEAR_RE w -> is_year w.
Proof.
  unfold YEAR_RE, times. cbn [lang].
  intros (w1 & w2 & -> & H1 & Hd & Hlo & Hhi).
  specialize (Hhi 2 eq_refl).
  destruct w2 as [|c [|d [|? ?]]]; simpl in Hlo, Hhi; try lia.
  simpl in Hd. rewrite andb_true_r in Hd. apply andb_prop in Hd as [Hc Hd].
  exists c, d. split; [|done].
  destruct H1 as [->%lang_lit| ->%lang_lit]; [by left|by right].
Qed.

Lemma first_year_shape line :
  first_year line = [] \/ (is_year (first_year line) /\ occurs_in (first_year line) line).
Proof.
  destruct (search_year None line) as [E Hnone].
  destruct (search_from YEAR_RE None line) as [m|] eqn:Es.
  - right. simpl in E. rewrite <- E.
    apply search_sound in Es as (pre & post & Hl & Hy).
    split; [by apply lang_year|by exists pre, post].
  - left. by apply Hnone.
Qed.

(** X14: every entry of the education extractor comes from one line of the
    section with a degree keyword: its degree is not empty; degree and
    institution are trimmed pieces of that line without comma or hyphen (the
    institution may be empty); its year is empty or is 19 or 20 followed by
    two digits, standing in that line; and there are no more entries than
    lines. *)
Theorem education_entries_shape (section_text : str) :
  exists es,
    extract_education section_text = Ok es /\
    length es <= length (splitlines section_text) /\
    Forall (fun e =>
              exists line,
                line ∈ splitlines section_text /\
                has_degree_keyword line = true /\
                raw e = strip line /\
                degree e <> [] /\ part_of_line (degree e) line /\
                (institution e = [] \/ part_of_line (institution e) line) /\
                (year e = [] \/ (is_year (year e) /\ occurs_in (year e) line)))
           es.
Proof.
  unfold extract_education. rewrite education_loop_spec. simpl.
  eexists. split; [done|]. split.
  - rewrite length_map. apply length_filter.
  - apply Forall_forall. intros e He.
    apply list_elem_of_In, in_map_iff in He as (line & <- & Hin).
    apply list_elem_of_In, list_elem_of_filter in Hin as [Hk Hin].
    exists line. split; [done|]. split; [done|]. split; [done|].
    unfold education_entry. cbn [degree institution year].
    pose proof (degree_keyword_parts line Hk) as Hne.
    destruct (parts_of line) as [|p1 rest] eqn:Ep; [done|].
    assert (H1 : p1 ∈ parts_of line) by (rewrite Ep; by left).
    apply parts_of_part in H1 as [H1 H1']. simpl.
    split; [done|]. split; [done|]. split; [|apply first_year_shape].
    destruct rest as [|p2 rest]; [by left|]. right.
    assert (H2 : p2 ∈ parts_of line) by (rewrite Ep; right; by left).
    by apply parts_of_part in H2 as [_ H2].
Qed.

(** ** The experience extractor *)

Lemma content_lines_eq section_text :
  map strip (filter (fun l => nonempty (strip l) = true) (splitlines section_text))
  = content_lines section_text.
Proof.
  unfold content_lines. induction (splitlines section_text) as [|l ls IH]; [done|].
  simpl. destruct (strip l) as [|c s] eqn:E.
  - rewrite filter_cons_False by (by rewrite E).
    by rewrite filter_cons_False by (by intros H; apply H).
  - rewrite filter_cons_True by (by rewrite E).
    rewrite filter_cons_True by done. simpl. by rewrite E, IH.
Qed.

Lemma search_none_scan r prev s : search_from r prev s = None -> scan r prev 0 s = [].
Proof.
  revert prev. induction s as [|c s IH]; intros prev; simpl.
  - by destruct (match_at r prev []).
  - destruct (match_at r prev (c :: s)); [done|]. apply IH.
Qed.

Lemma undated_no_dates line :
  is_dated line = false -> re_findall_groups DATE_RANGE_GROUPS DATE_RANGE_RE line = [].
Proof.
  unfold is_dated, re_search, re_findall_groups, re_finditer.
  destruct (search_from DATE_RANGE_RE None line) eqn:E; [done|]. intros _.
  by rewrite search_none_scan.
Qed.

(** The lines of the entries, in order. *)
Lemma experience_loop_lines lines entries cur :
  concat (map (fun e => o_title_company e :: o_details e) (experience_loop lines entries cur))
  = concat (map (fun e => o_title_company e :: o_details e) (close_entry cur entries)) ++ lines.
Proof.
  revert entries cur. induction lines as [|line rest IH]; intros entries cur.
  - simpl. by rewrite app_nil_r.
  - cbn [experience_loop]. destruct (found (re_search DATE_RANGE_RE line)).
    + rewrite IH. cbn [close_entry]. rewrite map_app, concat_app. simpl.
      by rewrite <- app_assoc.
    + destruct cur as [e|]; rewrite IH; cbn [close_entry];
        rewrite !map_app, !concat_app; simpl; rewrite ?app_nil_r, <- ?app_assoc; [|done].
      simpl. by rewrite <- app_assoc.
Qed.

Lemma well_grouped_snoc es e :
  well_grouped es ->
  Forall (fun d => is_dated d = false) (o_details e) ->
  o_dates e = re_findall_groups DATE_RANGE_GROUPS DATE_RANGE_RE (o_title_company e) ->
  (es = [] \/ is_dated (o_title_company e) = true) ->
  well_grouped (es ++ [e]).
Proof.
  intros [H1 H2] Hd He Ht. split.
  - apply Forall_app. split; [done|]. by apply Forall_singleton.
  - destruct es as [|e0 es]; [constructor|]. simpl in *.
    apply Forall_app. split; [done|]. apply Forall_singleton.
    by destruct Ht.
Qed.

Lemma well_grouped_init es e : well_grouped (es ++ [e]) -> well_grouped es.
Proof.
  intros [H1 H2]. apply Forall_app in H1 as [H1 _]. split; [done|].
  destruct es as [|e0 es]; [constructor|]. simpl in *. by apply Forall_app in H2 as [H2 _].
Qed.

Lemma well_grouped_last es e :
  well_grouped (es ++ [e]) ->
  Forall (fun d => is_dated d = false) (o_details e) /\
  o_dates e = re_findall_groups DATE_RANGE_GROUPS DATE_RANGE_RE (o_title_company e) /\
  (es = [] \/ is_dated (o_title_company e) = true).
Proof.
  intros [H1 H2]. apply Forall_app in H1 as [_ H1]. apply Forall_singleton in H1 as [Ha Hb].
  split; [done|]. split; [done|].
  destruct es as [|e0 es]; [by left|]. right. simpl in H2.
  apply Forall_app in H2 as [_ H2]. by rewrite Forall_singleton in H2.
Qed.

Lemma experience_loop_grouped lines entries cur :
  (cur = None -> entries = []) ->
  well_grouped (close_entry cur entries) ->
  well_grouped (experience_loop lines entries cur).
Proof.
  revert entries cur. induction lines as [|line rest IH]; intros entries cur Hnone Hw; [done|].
  cbn [experience_loop]. fold (is_dated line). destruct (is_dated line) eqn:Hd.
  - apply IH; [done|]. cbn [close_entry]. apply well_grouped_snoc; try done.
    by right.
  - destruct cur as [e|].
    + cbn [close_entry] in Hw. apply well_grouped_last in Hw as Hl.
      destruct Hl as (Ha & Hb & Hc). apply well_grouped_init in Hw.
      apply IH; [done|]. cbn [close_entry]. apply well_grouped_snoc; try done.
      cbn [o_details]. apply Forall_app. split; [done|]. by apply Forall_singleton.
    + rewrite (Hnone eq_refl). apply IH; [done|]. cbn [close_entry].
      apply (well_grouped_snoc []).
      * split; constructor.
      * constructor.
      * cbn [o_dates o_title_company]. by rewrite undated_no_dates.
      * by left.
Qed.

Lemma experience_loop_length lines entries cur :
  length (experience_loop lines entries cur)
  = length entries
    + match cur with
      | Some _ => 1 + length (filter (fun l => is_dated l = true) lines)
      | None => entry_count lines
      end.
Proof.
  revert entries cur. induction lines as [|line rest IH]; intros entries cur.
  - unfold entry_count. rewrite filter_nil.
    destruct cur; simpl; rewrite ?length_app; simpl; lia.
  - cbn [experience_loop]. fold (is_dated line). unfold entry_count.
    destruct (is_dated line) eqn:Hd.
    + rewrite IH. rewrite filter_cons_True by done.
      destruct cur; cbn [close_entry]; rewrite ?length_app; simpl; lia.
    + rewrite filter_cons_False by (by rewrite Hd).
      destruct cur; rewrite IH; lia.
Qed.

(** X15: the experience extractor loses no line and invents none: the
    titles and details of its entries, read in order, are exactly the
    trimmed non-empty lines of the section, so it returns no entry exactly
    when the section has no such line. *)
Theorem parse_experience_lines (section_text : str) :
  concat (map entry_lines (parse_experience section_text)) = content_lines section_text /\
  (parse_experience section_text = [] <-> content_lines section_text = []).
Proof.
  assert (E : concat (map entry_lines (parse_experience section_text))
              = content_lines section_text).
  { unfold parse_experience. rewrite content_lines_eq, map_map.
    apply (experience_loop_lines (content_lines section_text) [] None). }
  split; [done|]. split.
  - intros H. by rewrite H in E.
  - intros H. unfold parse_experience. by rewrite content_lines_eq, H.
Qed.

(** X16: the experience extractor opens one entry for every line with a
    date, and one for the first line when it has no date: so every entry
    after the first has a title with a date, no detail line has a date, the
    [dates] of an entry are the matches of the date pattern in its title,
    and the number of entries is the number of dated lines, plus one when
    the first line is not dated. *)
Theorem parse_experience_grouping (section_text : str) :
  Forall (fun e => is_dated (title_company e) = true) (tail (parse_experience section_text)) /\
  Forall (fun e => Forall (fun d => is_dated d = false) (details e) /\
                   dates e = re_findall_groups DATE_RANGE_GROUPS DATE_RANGE_RE
                               (title_company e))
         (parse_experience section_text) /\
  length (parse_experience section_text) = entry_count (content_lines section_text).
Proof.
  unfold parse_experience. rewrite content_lines_eq.
  destruct (experience_loop_grouped (content_lines section_text) [] None) as [H1 H2];
    [done|split; constructor|].
  split; [|split].
  - destruct (experience_loop _ _ _) as [|e0 es]; [constructor|]. simpl in *.
    apply Forall_forall. intros e (o & <- & Ho)%list_elem_of_In%in_map_iff.
    rewrite Forall_forall in H2. by apply H2, list_elem_of_In.
  - apply Forall_forall. intros e (o & <- & Ho)%list_elem_of_In%in_map_iff.
    rewrite Forall_forall in H1. by apply H1, list_elem_of_In.
  - rewrite length_map.
    by rewrite (experience_loop_length (content_lines section_text) [] None).
Qed.

(** ** Reading a file *)

Lemma ends_with_app suffix s : ends_with suffix (s ++ suffix) = true.
Proof. unfold ends_with. rewrite rev_app_distr. apply starts_with_app. Qed.

Lemma ends_with_lower stem ext suffix :
  lower ext = suffix -> ends_with suffix (lower (stem ++ ext)) = true.
Proof. intros <-. rewrite lower_app. apply ends_with_app. Qed.

(** A path has at most one of the three extensions. *)
Lemma extensions_exclusive s :
  (ends_with (L ".pdf") s = true -> ends_with (L ".docx") s = false /\ ends_with (L ".txt") s = false)
  /\ (ends_with (L ".docx") s = true -> ends_with (L ".txt") s = false).
Proof.
  unfold ends_with. destruct (rev s) as [|c t]; [done|].
  change (rev (L ".pdf")) with (L "fdp."). change (rev (L ".docx")) with (L "xcod.").
  change (rev (L ".txt")) with (L "txt."). cbn [L list_ascii_of_string starts_with].
  split.
  - intros [Hc _]%andb_prop. apply Ascii.eqb_eq in Hc as <-. done.
  - intros [Hc _]%andb_prop. apply Ascii.eqb_eq in Hc as <-. done.
Qed.

Lemma parse_text_done nlp text :
  exists r, parse_text nlp (Done text) = Done r /\ parse_resume_from_text nlp text = Ok r.
Proof.
  destruct (parse_resume_from_text_ok nlp text) as (r & _ & Hr & _).
  exists r. simpl. by rewrite Hr.
Qed.

Ltac split_cases :=
  repeat match goal with
         | H : _ \/ _ |- _ => destruct H
         | H : _ /\ _ |- _ => destruct H
         | H : exists _, _ |- _ => destruct H
         end;
  simplify_eq; try congruence.

Ltac close_case := solve [repeat first [done | eassumption | split | eexists]].

Ltac choose_case := first [close_case | left; close_case | right; choose_case].

Ltac failure_cases := simpl; repeat split; intros; split_cases; choose_case.

(** X17: what [parse_resume_file] raises.  It raises a ValueError of its
    own when the lower-cased path ends with none of [.pdf], [.docx] and
    [.txt], and a RuntimeError of its own when the extension asks for a
    backend that is not installed; in every other case it raises exactly what
    the reader that the extension selects raises, which can itself be a
    ValueError or a RuntimeError.  Nothing else is raised: the call returns
    exactly when the selected reader returns, so parsing adds no exception. *)
Theorem parse_resume_file_failures
    (fitz docx : option (str -> external (list str))) (read_text : str -> external str)
    (nlp : option (list str -> str -> list str)) (path : str) :
  (forall f,
     parse_resume_file fitz docx read_text nlp path = Failed f
     <-> (ends_with (L ".pdf") (lower path) = false /\
          ends_with (L ".docx") (lower path) = false /\
          ends_with (L ".txt") (lower path) = false /\ f = ValueError)
         \/ (ends_with (L ".pdf") (lower path) = true /\ fitz = None /\ f = RuntimeError)
         \/ (ends_with (L ".pdf") (lower path) = true /\
             exists pages_of, fitz = Some pages_of /\ pages_of path = Throws f)
         \/ (ends_with (L ".docx") (lower path) = true /\ docx = None /\ f = RuntimeError)
         \/ (ends_with (L ".docx") (lower path) = true /\
             exists paragraphs_of, docx = Some paragraphs_of /\ paragraphs_of path = Throws f)
         \/ (ends_with (L ".txt") (lower path) = true /\ read_text path = Throws f)) /\
  ((exists r, parse_resume_file fitz docx read_text nlp path = Done r)
   <-> (ends_with (L ".pdf") (lower path) = true /\
        exists pages_of pages, fitz = Some pages_of /\ pages_of path = Returns pages)
       \/ (ends_with (L ".docx") (lower path) = true /\
           exists paragraphs_of paragraphs,
             docx = Some paragraphs_of /\ paragraphs_of path = Returns paragraphs)
       \/ (ends_with (L ".txt") (lower path) = true /\
           exists text, read_text path = Returns text)).
Proof.
  destruct (extensions_exclusive (lower path)) as [Hpdf Hdocx].
  unfold parse_resume_file, extract_text_from_pdf, extract_text_from_docx, read_file.
  destruct (ends_with (L ".pdf") (lower path)) eqn:E1.
  { destruct (Hpdf eq_refl) as [-> ->]. clear Hpdf Hdocx.
    destruct fitz as [pages_of|]; [destruct (pages_of path) as [pages|f0] eqn:Ep|].
    - destruct (parse_text_done nlp (join [LF] pages)) as (r & -> & _).
      failure_cases.
    - failure_cases.
    - failure_cases. }
  destruct (ends_with (L ".docx") (lower path)) eqn:E2.
  { rewrite (Hdocx eq_refl). clear Hpdf Hdocx.
    destruct docx as [paragraphs_of|]; [destruct (paragraphs_of path) as [paragraphs|f0] eqn:Ep|].
    - destruct (parse_text_done nlp (join [LF] paragraphs)) as (r & -> & _).
      failure_cases.
    - failure_cases.
    - failure_cases. }
  clear Hpdf Hdocx. destruct (ends_with (L ".txt") (lower path)) eqn:E3.
  { destruct (read_text path) as [text|f0] eqn:Er.
    - destruct (parse_text_done nlp text) as (r & -> & _).
      failure_cases.
    - failure_cases. }
  failure_cases.
Qed.

(** A text file that cannot be opened: the ValueError of the reader comes
    out, although the extension is supported. *)
Lemma parse_resume_file_failures_witness :
  parse_resume_file None None (fun _ => Throws ValueError) None (L "cv.txt") = Failed ValueError.
Proof.
  apply (proj1 (parse_resume_file_failures None None (fun _ => Throws ValueError) None
                  (L "cv.txt"))).
  do 5 right. split; reflexivity.
Defined.

(** X18: the extension is read without regard to case, and what is parsed
    is what the selected reader returns: the text of a [.txt] file, the
    texts of the pages of a [.pdf] file or of the paragraphs of a [.docx]
    file joined by line feeds; parsing then always succeeds. *)
Theorem parse_resume_file_reads
    (fitz docx : option (str -> external (list str))) (read_text : str -> external str)
    (nlp : option (list str -> str -> list str)) (stem ext : str) :
  (lower ext = L ".txt" ->
   forall text, read_text (stem ++ ext) = Returns text ->
     exists r, parse_resume_file fitz docx read_text nlp (stem ++ ext) = Done r /\
               parse_resume_from_text nlp text = Ok r) /\
  (lower ext = L ".pdf" ->
   forall pages_of pages, fitz = Some pages_of -> pages_of (stem ++ ext) = Returns pages ->
     exists r, parse_resume_file fitz docx read_text nlp (stem ++ ext) = Done r /\
               parse_resume_from_text nlp (join [LF] pages) = Ok r) /\
  (lower ext = L ".docx" ->
   forall paragraphs_of paragraphs,
     docx = Some paragraphs_of -> paragraphs_of (stem ++ ext) = Returns paragraphs ->
     exists r, parse_resume_file fitz docx read_text nlp (stem ++ ext) = Done r /\
               parse_resume_from_text nlp (join [LF] paragraphs) = Ok r).
Proof.
  destruct (extensions_exclusive (lower (stem ++ ext))) as [Hpdf Hdocx].
  unfold parse_resume_file, extract_text_from_pdf, extract_text_from_docx, read_file.
  split; [|split].
  - intros He text Hr. pose proof (ends_with_lower stem ext _ He) as E.
    destruct (ends_with (L ".pdf") (lower (stem ++ ext)));
      [destruct (Hpdf eq_refl) as [_ H]; congruence|].
    destruct (ends_with (L ".docx") (lower (stem ++ ext))); [specialize (Hdocx eq_refl); congruence|].
    rewrite E, Hr. apply parse_text_done.
  - intros He pages_of pages -> Hr. rewrite (ends_with_lower stem ext _ He), Hr.
    apply parse_text_done.
  - intros He paragraphs_of paragraphs -> Hr. pose proof (ends_with_lower stem ext _ He) as E.
    destruct (ends_with (L ".pdf") (lower (stem ++ ext)));
      [destruct (Hpdf eq_refl) as [H _]; congruence|].
    rewrite E, Hr. apply parse_text_done.
Qed.

Lemma parse_resume_file_reads_witness :
  exists r,
    parse_resume_file None None (fun _ => Returns (L "Jane Doe")) None (L "cv" ++ L ".TXT") = Done r /\
    parse_resume_from_text None (L "Jane Doe") = Ok r.
Proof.
  apply (proj1 (parse_resume_file_reads None None (fun _ => Returns (L "Jane Doe")) None
                  (L "cv") (L ".TXT")) eq_refl (L "Jane Doe") eq_refl).
Defined.

(** ** The user interface and the table *)

(** X19: the interface can never warn that parsing returned no structured
    data: the [contact] entry of a parse result is a dict with three keys,
    which counts as true whatever the lists under them hold. *)
Theorem no_structured_data_never (r : ParsedResume) : no_structured_data (py_parsed r) = false.
Proof.
  unfold no_structured_data.
  assert (E : py_truthy (py_get (L "contact") (py_parsed r)) = true) by reflexivity.
  rewrite E. apply andb_false_r.
Qed.

Lemma filter_map_all {A B : Type} (P : B -> Prop) `{forall x, Decision (P x)}
    (f : A -> B) (l : list A) :
  (forall a, P (f a)) -> filter P (map f l) = map f l.
Proof.
  intros HP. induction l as [|a l IH]; [done|]. simpl.
  rewrite filter_cons_True by done. by rewrite IH.
Qed.

Lemma filter_map_none {A B : Type} (P : B -> Prop) `{forall x, Decision (P x)}
    (f : A -> B) (l : list A) :
  (forall a, ~ P (f a)) -> filter P (map f l) = [].
Proof.
  intros HP. induction l as [|a l IH]; [done|]. simpl.
  by rewrite filter_cons_False by done.
Qed.

(** X20: the table has three contact rows and a summary row, then one row
    for every skill, every education entry and every experience entry, in
    this order; the skills, the degrees and the titles can be read back from
    the rows of their section. *)
Theorem parsed_to_dataframe_rows (parsed : ParsedResume) :
  let rows := parsed_to_dataframe parsed in
  length rows
  = 4 + length (skills parsed) + length (education parsed) + length (experience parsed) /\
  map r_section rows
  = [L "contact"; L "contact"; L "contact"; L "summary"]
    ++ replicate (length (skills parsed)) (L "skills")
    ++ replicate (length (education parsed)) (L "education")
    ++ replicate (length (experience parsed)) (L "experience") /\
  map r_value (filter (fun row : DataRow => r_section row = L "skills") rows) = skills parsed /\
  map r_key (filter (fun row : DataRow => r_section row = L "education") rows)
  = map degree (education parsed) /\
  map r_key (filter (fun row : DataRow => r_section row = L "experience") rows)
  = map title_company (experience parsed).
Proof.
  assert (Hrep : forall (A : Type) (f : A -> DataRow) (l : list A) s,
            (forall a, r_section (f a) = s) -> map r_section (map f l) = replicate (length l) s).
  { intros A f l s Hs. induction l as [|a l IH]; [done|]. simpl. by rewrite Hs, IH. }
  unfold parsed_to_dataframe. cbv zeta. split; [|split; [|split; [|split]]].
  - rewrite !length_app, !length_map. simpl. lia.
  - rewrite !map_app. simpl. do 4 f_equal.
    rewrite (Hrep _ _ (skills parsed) (L "skills")) by done.
    rewrite (Hrep _ _ (education parsed) (L "education")) by done.
    by rewrite (Hrep _ _ (experience parsed) (L "experience")) by done.
  - rewrite !filter_app. do 4 (rewrite filter_cons_False by done). rewrite filter_nil.
    repeat first [rewrite filter_map_none by done | rewrite filter_map_all by done].
    simpl. rewrite app_nil_r, map_map. simpl. apply map_id.
  - rewrite !filter_app. do 4 (rewrite filter_cons_False by done). rewrite filter_nil.
    repeat first [rewrite filter_map_none by done | rewrite filter_map_all by done].
    simpl. by rewrite ?app_nil_r, map_map.
  - rewrite !filter_app. do 4 (rewrite filter_cons_False by done). rewrite filter_nil.
    repeat first [rewrite filter_map_none by done | rewrite filter_map_all by done].
    simpl. by rewrite ?app_nil_r, map_map.
Qed.

(** ** JSON export *)

Lemma json_dumps_tuples_to_lists v : json_dumps (tuples_to_lists v) = json_dumps v.
Proof.
  induction v as [s|l IH|l IH|d IH] using pyval_ind'; simpl.
  - done.
  - f_equal. rewrite map_map. induction IH as [|x l Hx _ IHl]; simpl; [done|].
    by rewrite Hx, IHl.
  - f_equal. rewrite map_map. induction IH as [|x l Hx _ IHl]; simpl; [done|].
    by rewrite Hx, IHl.
  - f_equal. rewrite map_map. induction IH as [|[k x] d Hx _ IHd]; simpl; [done|].
    simpl in Hx. by rewrite Hx, IHd.
Qed.

(** X21: the exported document is stable: for every value whose dicts have
    distinct keys, exporting the value that was parsed back from the export
    gives the same document again, and a second round trip gives the same
    value as the first, although the first may have turned tuples into
    lists. *)
Theorem to_json_stable (v : pyval) :
  py_wf v ->
  to_json (json_loads (to_json v)) = to_json v /\
  json_loads (to_json (json_loads (to_json v))) = json_loads (to_json v).
Proof.
  intros Hwf. unfold to_json.
  assert (E : json_dumps (json_loads (json_dumps v)) = json_dumps v).
  { rewrite json_loads_dumps by done. apply json_dumps_tuples_to_lists. }
  by rewrite E.
Qed.

Lemma to_json_stable_witness :
  let v := PDict [(L "dates", PList [PTuple [PStr (L "2020"); PStr []]])] in
  json_loads (to_json v) <> v /\
  to_json (json_loads (to_json v)) = to_json v.
Proof.
  split; [by vm_compute|].
  apply (to_json_stable _).
  constructor; [apply NoDup_singleton|].
  repeat (constructor; simpl).
Defined.
